(** * Optimal quantization on a manifold: a shallow embedding of
      [quantization/optimal_quantization.py] and its properties.

    The module calls two external libraries: numpy (arrays, the global random
    generator) and geomstats ([HypersphereMetric], with its three operations
    [dist], [exp] and [log]).  Both are taken as parameters: the float64
    arithmetic as an instance of the class [Scalar], the element type of the
    cloud as an instance of the class [Dtype], the metric constructor and
    the random generator as section variables.  The numpy functions the
    module calls ([argmin], [max], [maximum], [sum], [zeros], [randint]) are
    written out from their documented behaviour. *)

From Stdlib Require Import ZArith QArith Qcanon Qround Field_theory Ring_theory Field.
From Stdlib Require Import String Ascii.
From Stdlib Require PrimFloat FloatOps SpecFloat FloatAxioms.
From stdpp Require Import base list.

Open Scope string_scope.
Open Scope nat_scope.

(** ** Exceptions and outcomes *)

(** The Python exceptions that the module or the numpy calls in it can raise.
    [InvalidReference] is not a Python exception: it marks a location outside
    the store, which no Python program can hold. *)
Inductive exn : Type :=
  | NotImplementedError (msg : string)
  | ValueError (msg : string)
  | ZeroDivisionError
  | IndexError
  | InvalidReference.

(** A call returns a value, raises, or is still running when the fuel given
    to its [while] loop is spent. *)
Inductive outcome (A : Type) : Type :=
  | Ok (a : A)
  | Raise (e : exn)
  | OutOfFuel.

Arguments Ok {A} a.
Arguments Raise {A} e.
Arguments OutOfFuel {A}.

Definition obind {A B : Type} (c : outcome A) (k : A -> outcome B) : outcome B :=
  match c with
  | Ok a => k a
  | Raise e => Raise e
  | OutOfFuel => OutOfFuel
  end.

Notation "'let?' x ':=' c 'in' k" := (obind c (fun x => k))
  (at level 10, x pattern, c at level 100, k at level 200).

(** A [for] loop over a list whose body may raise. *)
Fixpoint foldM_o {A B : Type} (f : B -> A -> outcome B) (l : list A) (b : B)
  : outcome B :=
  match l with
  | [] => Ok b
  | a :: r => let? b' := f b a in foldM_o f r b'
  end.

(** ** float64 scalars *)

(** The float64 operations the module uses, as an interface.  Two instances
    are given below: exact rationals and IEEE binary64. *)
Class Scalar (F : Type) : Type := {
  fzero : F;
  fone : F;
  fadd : F -> F -> F;
  fmul : F -> F -> F;
  fsub : F -> F -> F;
  fopp : F -> F;
  fdiv : F -> F -> F;
  finv : F -> F;
  ffloor : F -> F;
  of_Z : Z -> F;
  fltb : F -> F -> bool;
  fleb : F -> F -> bool;
  feqb : F -> F -> bool
}.

(** The element type of the cloud.  The module takes the cloud as it comes: a
    float64 array, or an integer one.  An array built from rows of the cloud
    ([sample_from]) has the element type of the cloud, and numpy converts
    what is assigned into such an array: [astype x] is the float64 value [x]
    as an array of that type stores it, [x] itself in a float64 array, [x]
    truncated in an integer one. *)
Class Dtype (F : Type) : Type := {
  astype : F -> F
}.

(** A point or a tangent vector is its list of coordinates, a
    two-dimensional array the list of its rows. *)
Abbreviation vector F := (list F) (only parsing).
Abbreviation array F := (list (list F)) (only parsing).

(** The capability geomstats provides: [metric.dist], [metric.exp] and
    [metric.log], on single points.  A call on a stack of points
    ([metric.dist(point, neighbors)]) is the map over its rows. *)
Record Metric (F : Type) : Type := {
  dist : vector F -> vector F -> F;
  exp : vector F -> vector F -> vector F;
  log : vector F -> vector F -> vector F
}.

Arguments dist {F} m a b.
Arguments exp {F} m tangent base.
Arguments log {F} m point base.

Section Numpy.
Context {F : Type} `{Scalar F}.

(** A Python [bool] used as a number. *)
Definition of_bool (b : bool) : F := if b then fone else fzero.

Definition of_nat (n : nat) : F := of_Z (Z.of_nat n).

(** [np.maximum(a, b)] *)
Definition maximum (a b : F) : F := if fltb a b then b else a.

(** [a.max()] : raises on an empty array. *)
Definition amax (a : list F) : outcome F :=
  match a with
  | [] => Raise (ValueError "zero-size array to reduction operation maximum which has no identity")
  | x :: r => Ok (foldl maximum x r)
  end.

(** The scan of [a.argmin()]: [best] is the least value seen so far, found
    at index [ibest]; [i] is the index of the head of [a]. *)
Fixpoint argmin_scan (a : list F) (best : F) (ibest i : nat) : nat :=
  match a with
  | [] => ibest
  | x :: r =>
      if fltb x best then argmin_scan r x i (S i)
      else argmin_scan r best ibest (S i)
  end.

(** [a.argmin()] : the first index of the least entry; raises on an empty
    array. *)
Definition argmin (a : list F) : outcome nat :=
  match a with
  | [] => Raise (ValueError "attempt to get argmin of an empty sequence")
  | x :: r => Ok (argmin_scan r x 0 1)
  end.

(** [np.zeros((n, d))] and [np.zeros((n,))] *)
Definition zeros1 (n : nat) : list F := replicate n fzero.
Definition zeros (n d : nat) : array F := replicate n (zeros1 d).

(** [points.shape[-1]] *)
Definition shape1 (a : array F) : nat :=
  match a with
  | [] => 0
  | r :: _ => length r
  end.

Definition vadd (u v : vector F) : vector F := zip_with fadd u v.

(** [np.sum(a, axis=0)] for an array of [d] columns. *)
Definition sum_axis0 (d : nat) (a : array F) : vector F :=
  foldl vadd (zeros1 d) a.

(** [v / s] *)
Definition vdiv (v : vector F) (s : F) : vector F :=
  map (fun x => fdiv x s) v.

(** [a[i]] and [a[i] = x] on a one-dimensional array, [a[i, :]] and
    [a[i, :] = v] on a two-dimensional one: out of range they raise. *)
Definition get_item {A : Type} (a : list A) (i : nat) : outcome A :=
  match a !! i with
  | Some x => Ok x
  | None => Raise IndexError
  end.

Definition set_item {A : Type} (a : list A) (i : nat) (x : A) : outcome (list A) :=
  if i <? length a then Ok (<[i := x]> a) else Raise IndexError.

End Numpy.

(** ** The store and the random generator *)

(** numpy arrays are objects: a variable holds a reference.  The store is the
    list of the two-dimensional arrays allocated so far and a location is an
    index into it; it holds the cloud and the arrays built from its rows, all
    of the element type of the cloud (the float64 arrays of zeros the module
    fills are local to a call and carried by value).  The state of a run is
    the store and the state of numpy's global random generator. *)
Definition loc : Type := nat.

Record state (F Rng : Type) : Type := {
  heap : list (array F);
  rng : Rng
}.

Arguments heap {F Rng} s.
Arguments rng {F Rng} s.
Arguments Build_state {F Rng} heap rng.

Definition M (F Rng A : Type) : Type := state F Rng -> outcome A * state F Rng.

Section Monad.
Context {F Rng : Type} `{Dtype F}.

Definition ret {A : Type} (a : A) : M F Rng A := fun s => (Ok a, s).

Definition bind {A B : Type} (c : M F Rng A) (k : A -> M F Rng B) : M F Rng B :=
  fun s =>
    match c s with
    | (Ok a, s') => k a s'
    | (Raise e, s') => (Raise e, s')
    | (OutOfFuel, s') => (OutOfFuel, s')
    end.

Definition lift {A : Type} (c : outcome A) : M F Rng A := fun s => (c, s).

(** The fuel of a [while] loop is spent. *)
Definition out_of_fuel {A : Type} : M F Rng A := lift OutOfFuel.

(** The contents of the array at a location. *)
Definition read (l : loc) : M F Rng (array F) :=
  fun s =>
    match heap s !! l with
    | Some a => (Ok a, s)
    | None => (Raise InvalidReference, s)
    end.

(** A new array object. *)
Definition alloc (a : array F) : M F Rng loc :=
  fun s => (Ok (length (heap s)), Build_state (heap s ++ [a]) (rng s)).

(** [a[i, :] = v] on the array object at [l]: the row is converted to the
    element type of the array. *)
Definition write_row (l : loc) (i : nat) (v : vector F) : M F Rng unit :=
  fun s =>
    match heap s !! l with
    | Some a =>
        if i <? length a
        then (Ok tt,
              Build_state (<[l := <[i := map astype v]> a]> (heap s)) (rng s))
        else (Raise IndexError, s)
    | None => (Raise InvalidReference, s)
    end.

End Monad.

Notation "'let!' x ':=' c 'in' k" := (bind c (fun x => k))
  (at level 10, x pattern, c at level 100, k at level 200).

(** ** The module *)

(** [IMPLEMENTED = ('S1', 'S2')] *)
Definition IMPLEMENTED : list string := ["S1"; "S2"].

(** The [space] argument: [None] (the default) or a string. *)
Definition space_in_IMPLEMENTED (space : option string) : bool :=
  match space with
  | None => false
  | Some s => existsb (String.eqb s) IMPLEMENTED
  end.

(** [str(space)], as ['{}'.format(space)] prints it. *)
Definition str_space (space : option string) : string :=
  match space with
  | None => "None"
  | Some s => s
  end.

(** [repr] of a string without quotes or escapes in it, and of a tuple of
    two or more such strings. *)
Definition repr_str (s : string) : string := "'" ++ s ++ "'".
Definition repr_tuple (l : list string) : string :=
  "(" ++ String.concat ", " (map repr_str l) ++ ")".

(** The message of the [NotImplementedError] of each function: they differ
    in the name of the function ([what]) and in the words after
    "The spaces available" ([whom]). *)
Definition not_implemented_message (what whom : string) (space : option string)
  : string :=
  "The " ++ what ++ " function is not implemented for space "
  ++ str_space space ++ ". The spaces available" ++ whom ++ " are: "
  ++ repr_tuple IMPLEMENTED ++ ".".

Open Scope list_scope.

Section Quantization.
Context {F : Type} `{Scalar F} `{Dtype F}.

(** [geomstats.hypersphere.HypersphereMetric(dimension=...)] *)
Variable HypersphereMetric : Z -> Metric F.

(** numpy's global random generator: [next high g] is one draw from
    [0, high), for [0 < high], and the generator's next state. *)
Context {Rng : Type}.
Variable next : nat -> Rng -> nat * Rng.

Local Abbreviation St := (M F Rng).

(** [TOLERANCE = 1e-5] *)
Definition TOLERANCE : F := fdiv fone (of_Z 100000).

(** The head of each of the four functions:
    [if space not in IMPLEMENTED: raise NotImplementedError(...)]
    [elif space == 'S1': metric = HypersphereMetric(dimension=1)]
    [else: metric = HypersphereMetric(dimension=2)] *)
Definition select_metric (what whom : string) (space : option string)
  : outcome (Metric F) :=
  if negb (space_in_IMPLEMENTED space)
  then Raise (NotImplementedError (not_implemented_message what whom space))
  else if (match space with Some s => String.eqb s "S1" | None => false end)
       then Ok (HypersphereMetric 1)
       else Ok (HypersphereMetric 2).

(** [size] successive draws. *)
Fixpoint draws (high size : nat) (g : Rng) : list nat * Rng :=
  match size with
  | O => ([], g)
  | S k =>
      let '(i, g1) := next high g in
      let '(r, g2) := draws high k g1 in
      (i :: r, g2)
  end.

(** [np.random.randint(low=0, high=high, size=size)]: an empty range is
    an error unless no sample is taken. *)
Definition randint (high size : nat) : St (list nat) :=
  fun s =>
    if (size =? 0)%nat then (Ok [], s)
    else if (high =? 0)%nat then (Raise (ValueError "low >= high"), s)
    else let '(index, g) := draws high size (rng s) in
         (Ok index, Build_state (heap s) g).

(** [points[np.ix_(index, np.arange(dimension))]], with
    [dimension = points.shape[-1]]: indexing with index arrays builds a new
    array, the rows [index] of [points] with all their [dimension] columns,
    that is, whole rows. *)
Fixpoint take_rows (points : array F) (index : list nat) : outcome (array F) :=
  match index with
  | [] => Ok []
  | i :: r =>
      let? row := get_item points i in
      let? rest := take_rows points r in
      Ok (row :: rest)
  end.

(** [sample_from(points, size)]: the location of the new array. *)
Definition sample_from (points : loc) (size : nat) : St loc :=
  let! pts := read points in
  let n_points := length pts in
  let! index := randint n_points size in
  let! sample := lift (take_rows pts index) in
  alloc sample.

(** [closest_neighbor] and [diameter_of_data] read their arguments and
    nothing else: they are functions of the contents of the arrays. *)
Definition closest_neighbor (point : vector F) (neighbors : array F)
    (space : option string) : outcome nat :=
  let? metric := select_metric "closest neighbor" "" space in
  let dist_ := map (dist metric point) neighbors in
  let? index_closest_neighbor := argmin dist_ in
  Ok index_closest_neighbor.

Definition diameter_of_data (points : array F) (space : option string)
  : outcome F :=
  let? metric := select_metric "diameter" "" space in
  let diameter := fzero in
  let n_points := length points in
  foldM_o (fun diameter i =>
             let? p := get_item points i in
             let dist_to_neighbors := map (dist metric p) (drop (S i) points) in
             let? dist_to_farthest_neighbor := amax dist_to_neighbors in
             Ok (maximum diameter (fmul dist_to_farthest_neighbor (of_Z 2))))
          (seq 0 (n_points - 1)) diameter.

(** The body of the [while] loop of [karcher_flow]. *)
Definition karcher_step (metric : Metric F) (points : loc) (n_points : nat)
    (karcher_mean : vector F) : St (vector F * F) :=
  let! pts := read points in
  let tangent_vectors := zeros (length pts) (shape1 pts) in
  let! tangent_vectors :=
    lift (foldM_o (fun tangent_vectors i =>
                     let? p := get_item pts i in
                     set_item tangent_vectors i (log metric p karcher_mean))
                  (seq 0 n_points) tangent_vectors) in
  let tan_vec_update :=
    vdiv (sum_axis0 (shape1 pts) tangent_vectors) (of_nat n_points) in
  let karcher_mean_updated := exp metric tan_vec_update karcher_mean in
  let gap := dist metric karcher_mean karcher_mean_updated in
  ret (karcher_mean_updated, gap).

(** [while gap > tolerance: ...; step += 1] *)
Fixpoint karcher_loop (fuel : nat) (metric : Metric F) (points : loc)
    (n_points : nat) (tolerance : F) (karcher_mean : vector F) (gap : F)
    (step : nat) : St (vector F * nat) :=
  if fltb tolerance gap then
    match fuel with
    | O => out_of_fuel
    | S fuel' =>
        let! (karcher_mean_updated, gap) :=
          karcher_step metric points n_points karcher_mean in
        karcher_loop fuel' metric points n_points tolerance
          karcher_mean_updated gap (S step)
    end
  else ret (karcher_mean, step).

(** The mean is a single point: the one row of the array [sample_from]
    returns, then what [metric.exp] returns.  It is never written in
    place, so it is carried by value. *)
Definition karcher_flow (fuel : nat) (points : loc) (space : option string)
    (tolerance : F) : St (vector F * nat) :=
  let! metric :=
    lift (select_metric "Karcher mean" " for Karcher flow" space) in
  let! sample := sample_from points 1 in
  let! s := read sample in
  let! karcher_mean := lift (get_item s 0) in
  let! pts := read points in
  let n_points := length pts in
  let gap := fone in
  let step := 0 in
  karcher_loop fuel metric points n_points tolerance karcher_mean gap step.

(** [gap = (gap != 0) * gap + (gap == 0)] *)
Definition gap_guard (gap : F) : F :=
  fadd (fmul (of_bool (negb (feqb gap fzero))) gap) (of_bool (feqb gap fzero)).

(** [step / n_repetition] on Python integers. *)
Definition true_div (step : nat) (n_repetition : Z) : outcome F :=
  if (n_repetition =? 0)%Z then Raise ZeroDivisionError
  else Ok (fdiv (of_nat step) (of_Z n_repetition)).

(** One pass of the [while] loop of [optimal_quantization], up to the
    distance the winner moves: the winner's index, its new position and the
    distance. *)
Definition quantization_move (metric : Metric F) (points centers : loc)
    (space : option string) (n_repetition : Z) (step : nat)
  : St (nat * vector F * F) :=
  let! ratio := lift (true_div step n_repetition) in
  let k := fadd (ffloor ratio) fone in
  let! sample := sample_from points 1 in
  let! s := read sample in
  let! point := lift (get_item s 0) in
  let! cs := read centers in
  let! index := lift (closest_neighbor point cs space) in
  let! center_to_update := lift (get_item cs index) in
  let tan_vec_update :=
    vdiv (log metric point center_to_update) (fadd k fone) in
  let new_center := exp metric tan_vec_update center_to_update in
  let gap := dist metric center_to_update new_center in
  ret (index, new_center, gap).

(** The body of the loop: the value of [gap] after it. *)
Definition quantization_step (metric : Metric F) (points centers : loc)
    (space : option string) (n_repetition : Z) (step : nat) : St F :=
  let! (index, new_center, gap) :=
    quantization_move metric points centers space n_repetition step in
  let gap := gap_guard gap in
  let! _ := write_row centers index new_center in
  ret gap.

(** [while gap > tolerance: step += 1; ...] *)
Fixpoint quantization_loop (fuel : nat) (metric : Metric F)
    (points centers : loc) (space : option string) (n_repetition : Z)
    (tolerance : F) (gap : F) (step : nat) : St nat :=
  if fltb tolerance gap then
    match fuel with
    | O => out_of_fuel
    | S fuel' =>
        let step := S step in
        let! gap :=
          quantization_step metric points centers space n_repetition step in
        quantization_loop fuel' metric points centers space n_repetition
          tolerance gap step
    end
  else ret step.

(** The body of [for i, point in enumerate(points)]. *)
Definition label_point (centers : array F) (space : option string)
    (acc : list F * list F) (ip : nat * vector F)
  : outcome (list F * list F) :=
  let '(clustering, weights) := acc in
  let '(i, point) := ip in
  let? index := closest_neighbor point centers space in
  let? clustering := set_item clustering i (of_nat index) in
  let? w := get_item weights index in
  let? weights := set_item weights index (fadd w fone) in
  Ok (clustering, weights).

(** The labelling pass, lines 160 to 169. *)
Definition labelling (points centers : loc) (n_centers : nat)
    (space : option string) : St (list F * list F) :=
  let! pts := read points in
  let n_points := length pts in
  let clustering := zeros1 n_points in
  let weights := zeros1 n_centers in
  let! cs := read centers in
  let! (clustering, weights) :=
    lift (foldM_o (label_point cs space) (zip (seq 0 n_points) pts)
                  (clustering, weights)) in
  let weights := vdiv weights (of_nat n_points) in
  ret (weights, clustering).

(** [optimal_quantization]: the location of the array of centers, the
    weights, the labels and the number of steps. *)
Definition optimal_quantization (fuel : nat) (points : loc) (n_centers : nat)
    (space : option string) (n_repetition : Z) (tolerance : F)
  : St (loc * list F * list F * nat) :=
  let! metric :=
    lift (select_metric "optimal quantization" " for quantization" space) in
  let! centers := sample_from points n_centers in
  let gap := fone in
  let step := 0 in
  let! step :=
    quantization_loop fuel metric points centers space n_repetition
      tolerance gap step in
  let! (weights, clustering) := labelling points centers n_centers space in
  ret (centers, weights, clustering, step).

End Quantization.

(** ** Instances to run the module on *)

(** Exact arithmetic: the rationals in lowest terms. *)
Definition Qc_ltb (x y : Qc) : bool :=
  match (x ?= y)%Qc with Lt => true | _ => false end.
Definition Qc_leb (x y : Qc) : bool :=
  match (x ?= y)%Qc with Gt => false | _ => true end.
Definition Qc_floor (x : Qc) : Qc := Q2Qc (inject_Z (Qfloor x)).
Definition Qc_of_Z (z : Z) : Qc := Q2Qc (inject_Z z).

#[export] Instance Qc_scalar : Scalar Qc := {|
  fzero := 0%Qc;
  fone := 1%Qc;
  fadd := Qcplus;
  fmul := Qcmult;
  fsub := Qcminus;
  fopp := Qcopp;
  fdiv := Qcdiv;
  finv := Qcinv;
  ffloor := Qc_floor;
  of_Z := Qc_of_Z;
  fltb := Qc_ltb;
  fleb := Qc_leb;
  feqb := Qc_eq_bool
|}.

(** IEEE binary64, as numpy's float64. *)
Definition float_of_Z (z : Z) : PrimFloat.float :=
  FloatOps.SF2Prim
    (SpecFloat.binary_normalize FloatOps.prec FloatOps.emax z 0 false).

Definition float_floor (x : PrimFloat.float) : PrimFloat.float :=
  match FloatOps.Prim2SF x with
  | SpecFloat.S754_finite s m e =>
      if (0 <=? e)%Z then x
      else float_of_Z ((if s then Z.neg m else Z.pos m) / 2 ^ (- e))%Z
  | _ => x
  end.

#[export] Instance float_scalar : Scalar PrimFloat.float := {|
  fzero := PrimFloat.zero;
  fone := PrimFloat.one;
  fadd := PrimFloat.add;
  fmul := PrimFloat.mul;
  fsub := PrimFloat.sub;
  fopp := PrimFloat.opp;
  fdiv := PrimFloat.div;
  finv := PrimFloat.div PrimFloat.one;
  ffloor := float_floor;
  of_Z := float_of_Z;
  fltb := PrimFloat.ltb;
  fleb := PrimFloat.leb;
  feqb := PrimFloat.eqb
|}.

(** The element type of a float64 cloud: nothing is converted. *)
Definition float64_dtype (F : Type) : Dtype F := {| astype := fun x => x |}.

(** The element type of an integer cloud, on the rationals: a value is
    truncated toward zero. *)
Definition Qc_trunc (x : Qc) : Qc :=
  Qc_of_Z (Z.quot (Qnum x) (Z.pos (Qden x))).

Definition int64_dtype : Dtype Qc := {| astype := Qc_trunc |}.

(** Unless told otherwise the clouds of the concrete runs are float64
    arrays. *)
#[export] Instance Qc_dtype : Dtype Qc := float64_dtype Qc.
#[export] Instance float_dtype : Dtype PrimFloat.float :=
  float64_dtype PrimFloat.float.

(** A random generator that replays a tape of raw draws, reduced modulo
    the bound. *)
Definition tape_next (high : nat) (g : list nat) : nat * list nat :=
  match g with
  | [] => (0, [])
  | r :: g' => (r mod high, g')
  end.

(** A metric provider to run the module on: coordinates with the sum of the
    absolute differences as distance and straight lines as geodesics. *)
Section FlatMetric.
Context {F : Type} `{Scalar F}.

Definition fabs (x : F) : F := if fltb x fzero then fopp x else x.

Definition flat_dist (a b : vector F) : F :=
  foldl fadd fzero (zip_with (fun x y => fabs (fsub x y)) a b).

Definition flat_metric : Metric F := {|
  dist := flat_dist;
  exp := fun tangent base => zip_with fadd base tangent;
  log := fun point base => zip_with fsub point base
|}.

End FlatMetric.

(** The provider used in the concrete runs, whatever the dimension asked. *)
Definition flat_provider (F : Type) `{Scalar F} : Z -> Metric F :=
  fun _ => flat_metric.

(** A store for a pass in which the winner does not move: the cloud, of one
    point, at location 0 and the centers, that same point, at location 1. *)
Definition still_state : state Qc (list nat) :=
  Build_state [[[1%Qc; 0%Qc]]; [[1%Qc; 0%Qc]]] [0].

(** A cloud of six points of the circle, of three distinct positions, at
    location 0, and a tape that draws the points 0, 1 and 5 as centers. *)
Definition six_points (F : Type) `{Scalar F} : array F :=
  [[fone; fzero]; [fzero; fone]; [fzero; fone]; [fzero; fone]; [fzero; fone];
   [fopp fone; fzero]].

Definition six_state (F : Type) `{Scalar F} : state F (list nat) :=
  Build_state [six_points F] [0; 1; 5].

(** A cloud of two points, at location 0, for a flow that takes two
    iterations. *)
Definition two_state : state Qc (list nat) :=
  Build_state [[[1%Qc; 0%Qc]; [0%Qc; 1%Qc]]] [0].

(** A cloud of six points on which the loop runs with the default
    tolerance: the tape draws the points 0, 2 and 5 as centers and then the
    point 1 at every pass. *)
Definition pulled_state : state PrimFloat.float (list nat) :=
  Build_state
    [[[fone; fzero]; [fdiv (of_Z 3) (of_Z 4); fdiv (of_Z 1) (of_Z 4)];
      [fzero; fone]; [fzero; fone]; [fzero; fone]; [fopp fone; fzero]]]
    ([0; 2; 5] ++ replicate 20 1).

(** The same cloud on the rationals. *)
Definition pulled_state_Qc : state Qc (list nat) :=
  Build_state
    [[[1%Qc; 0%Qc]; [Q2Qc (3 # 4); Q2Qc (1 # 4)];
      [0%Qc; 1%Qc]; [0%Qc; 1%Qc]; [0%Qc; 1%Qc]; [Qcopp 1; 0%Qc]]]
    ([0; 2; 5] ++ replicate 20 1).

(** A store for a pass that moves a center: a float64 cloud of three points
    at location 0 and three centers at location 1; the tape draws the
    point 1 of the cloud, (3/4, 1/4), whose nearest center is the one of
    index 1. *)
Definition pass_state : state Qc (list nat) :=
  Build_state
    [[[1%Qc; 0%Qc]; [Q2Qc (3 # 4); Q2Qc (1 # 4)]; [0%Qc; 1%Qc]];
     [[0%Qc; 1%Qc]; [1%Qc; 0%Qc]; [Qcopp 1; 0%Qc]]]
    [1].

(** A store for a pass on an integer cloud: three points at location 0 and
    two centers at location 1, both at the same distance from the point 1
    of the cloud, which the tape draws. *)
Definition int_pass_state : state Qc (list nat) :=
  Build_state
    [[[1%Qc; 0%Qc]; [0%Qc; 1%Qc]; [Qcopp 1; 0%Qc]];
     [[1%Qc; 0%Qc]; [Qcopp 1; 0%Qc]]]
    [1].

(** A store with a cloud of one point at location 0. *)
Definition one_point_state : state Qc (list nat) :=
  Build_state [[[1%Qc; 0%Qc]]] [4; 2; 7].

(** ** Assumptions on the scalars and on the metric *)

(** The comparisons form a total order (float64 without NaN). *)
Record OrderLaws (F : Type) `{Scalar F} : Prop := {
  fltb_irrefl : forall x : F, fltb x x = false;
  fltb_trans : forall x y z : F,
    fltb x y = true -> fltb y z = true -> fltb x z = true;
  fltb_total : forall x y : F, fltb x y = false -> fltb y x = false -> x = y;
  fleb_fltb : forall x y : F, fleb x y = negb (fltb y x);
  feqb_eq : forall x y : F, feqb x y = true <-> x = y
}.

(** Exact arithmetic: an ordered field, with [of_Z] the embedding of the
    integers. *)
Record ExactLaws (F : Type) `{Scalar F} : Prop := {
  exact_order : OrderLaws F;
  exact_field : field_theory fzero fone fadd fmul fsub fopp fdiv finv eq;
  fadd_lt : forall x y z : F,
    fltb x y = true -> fltb (fadd x z) (fadd y z) = true;
  fmul_pos : forall x y : F,
    fltb fzero x = true -> fltb fzero y = true -> fltb fzero (fmul x y) = true;
  of_Z_0 : of_Z 0 = fzero;
  of_Z_succ : forall z : Z, of_Z (z + 1) = fadd (of_Z z) fone
}.

(** What holds of the signs in float64 as in exact arithmetic: zero is not
    negative, adding one to a number that is not negative gives one, and so
    does dividing it by a count of points, a whole number above zero that
    float64 holds exactly. *)
Record SignLaws (F : Type) `{Scalar F} : Prop := {
  sign_zero : fleb fzero fzero = true;
  sign_succ : forall x : F,
    fleb fzero x = true -> fleb fzero (fadd x fone) = true;
  sign_div : forall (x : F) (n : Z),
    fleb fzero x = true -> (0 < n < 2 ^ 53)%Z ->
    fleb fzero (fdiv x (of_Z n)) = true
}.

(** A float64, by its IEEE 754 specification, is neither NaN nor below
    zero. *)
Definition sf_nonneg (x : SpecFloat.spec_float) : bool :=
  match x with
  | SpecFloat.S754_zero _ => true
  | SpecFloat.S754_infinity s => negb s
  | SpecFloat.S754_nan => false
  | SpecFloat.S754_finite s _ _ => negb s
  end.

(** What the module relies on from a distance: it is symmetric and not
    negative. *)
Record MetricLaws {F : Type} `{Scalar F} (m : Metric F) : Prop := {
  dist_sym : forall a b, dist m a b = dist m b a;
  dist_nonneg : forall a b, fleb fzero (dist m a b) = true
}.

(** ** Notions the properties are stated with *)

(** [s] occurs in [t]. *)
Definition contains (s t : string) : Prop :=
  exists pre post : string, t = (pre ++ s ++ post)%string.

(** The message of an error names the requested space and the catalog. *)
Definition names_request (msg : string) (space : option string) : Prop :=
  contains (str_space space) msg /\ contains (repr_tuple IMPLEMENTED) msg.

(** The space is one of the catalog. *)
Definition supported (space : option string) : Prop :=
  space = Some "S1" \/ space = Some "S2".

(** The metric of a supported space. *)
Definition space_metric {F : Type} (HypersphereMetric : Z -> Metric F)
    (space : option string) : Metric F :=
  match space with
  | Some "S1" => HypersphereMetric 1%Z
  | _ => HypersphereMetric 2%Z
  end.

Section Notions.
Context {F : Type} `{Scalar F}.

(** Index [i] is the first one among the candidates that are nearest to
    [point]: no candidate is nearer and every earlier one is farther. *)
Definition first_minimal (m : Metric F) (point : vector F)
    (neighbors : array F) (i : nat) : Prop :=
  exists c,
    neighbors !! i = Some c
    /\ (forall j x, neighbors !! j = Some x ->
                    fleb (dist m point c) (dist m point x) = true)
    /\ (forall j x, j < i -> neighbors !! j = Some x ->
                    fltb (dist m point c) (dist m point x) = true).

End Notions.

Section Frame.
Context {F Rng : Type}.

(** What a run from [s] to [s'] that writes to no array but the one at [c]
    leaves in place: the store only grows, every array that was in it,
    except the one at [c], is as it was, and the one at [c] has as many rows
    as before. *)
Definition frame (c : loc) (s s' : state F Rng) : Prop :=
  length (heap s) <= length (heap s')
  /\ (forall l, l < length (heap s) -> l <> c -> heap s' !! l = heap s !! l)
  /\ (forall a, heap s !! c = Some a ->
                exists a', heap s' !! c = Some a' /\ length a' = length a).

Definition preserves {A : Type} (c : loc) (m : M F Rng A) : Prop :=
  forall s, frame c s (m s).2.

End Frame.

Section Counting.
Context {F : Type} `{Scalar F}.

(** [w += 1], [n] times from zero: an entry of the array of counts. *)
Definition bumps (n : nat) : F := Nat.iter n (fun w => fadd w fone) fzero.

(** The sum of a one-dimensional array, entry after entry. *)
Definition fsum (a : list F) : F := foldl fadd fzero a.

(** The number of points that carry label [j]. *)
Definition label_count (labels : list nat) (j : nat) : nat :=
  count_occ Nat.eq_dec labels j.

End Counting.

Section KarcherNotions.
Context {F : Type} `{Scalar F}.

(** The average of the tangent vectors [log(p, mean)] over the points [p] of
    the cloud. *)
Definition tangent_average (m : Metric F) (pts : array F) (mean : vector F)
  : vector F :=
  vdiv (sum_axis0 (shape1 pts) (map (fun p => log m p mean) pts))
       (of_nat (length pts)).

(** One iteration of the flow on the mean. *)
Definition karcher_update (m : Metric F) (pts : array F) (mean : vector F)
  : vector F :=
  exp m (tangent_average m pts mean) mean.

(** One iteration on the mean and the gap: the new mean, and how far it is
    from the old one. *)
Definition karcher_pass (m : Metric F) (pts : array F) (st : vector F * F)
  : vector F * F :=
  (karcher_update m pts st.1, dist m st.1 (karcher_update m pts st.1)).

(** The mean and the gap after [n] iterations from [mean0]; the gap before
    the first one is 1. *)
Definition karcher_iterate (m : Metric F) (pts : array F) (n : nat)
    (mean0 : vector F) : vector F * F :=
  Nat.iter n (karcher_pass m pts) (mean0, fone).

End KarcherNotions.

Section DiameterNotions.
Context {F : Type} `{Scalar F}.

(** The distances [dist(p_i, p_j)] over the pairs of indices [i < j]. *)
Fixpoint pair_dists (m : Metric F) (pts : array F) : list F :=
  match pts with
  | [] => []
  | p :: rest => map (dist m p) rest ++ pair_dists m rest
  end.

(** [v] is the greatest entry of [l]. *)
Definition is_max (v : F) (l : list F) : Prop :=
  In v l /\ forall x, In x l -> fleb x v = true.

Definition double (x : F) : F := fmul x (of_Z 2).

End DiameterNotions.

Section PassNotions.
Context {F : Type} `{Scalar F}.

(** The epoch index of the pass number [step]:
    [k = np.floor(step / n_repetition) + 1]. *)
Definition epoch (step : nat) (n_repetition : Z) : F :=
  fadd (ffloor (fdiv (of_nat step) (of_Z n_repetition))) fone.

(** The center [c] moved towards the sample [p] by the step of epoch [k]:
    [exp(log(p, c) / (k + 1), c)]. *)
Definition moved (m : Metric F) (p c : vector F) (k : F) : vector F :=
  exp m (vdiv (log m p c) (fadd k fone)) c.

End PassNotions.

(** The cloud is a float64 array: what is assigned into an array built from
    its rows is stored as it is. *)
Definition float64_cloud (F : Type) `{Dtype F} : Prop :=
  forall x : F, astype x = x.

(** The outcome is no result: an exception, or a run still going when the
    fuel is spent. *)
Definition no_result {A : Type} (o : outcome A) : Prop :=
  o = OutOfFuel \/ exists e, o = Raise e.

(** * Properties *)

(** ** Unsupported spaces *)

Lemma string_app_assoc (a b c : string) :
  ((a ++ b) ++ c = a ++ (b ++ c))%string.
Proof. induction a as [|ch a IH]; simpl; [reflexivity | now rewrite IH]. Qed.

Lemma not_implemented_names (what whom : string) (space : option string) :
  names_request (not_implemented_message what whom space) space.
Proof.
  unfold names_request, not_implemented_message. split.
  - exists ("The " ++ what ++ " function is not implemented for space ")%string.
    eexists. rewrite !string_app_assoc. reflexivity.
  - exists ("The " ++ what ++ " function is not implemented for space "
            ++ str_space space ++ ". The spaces available" ++ whom
            ++ " are: ")%string.
    exists ".". rewrite !string_app_assoc. reflexivity.
Qed.

Lemma not_in_IMPLEMENTED (space : option string) :
  space <> Some "S1" -> space <> Some "S2" ->
  space_in_IMPLEMENTED space = false.
Proof.
  intros H1 H2. destruct space as [s|]; [|reflexivity]. simpl.
  destruct (String.eqb_spec s "S1") as [->|_]; [congruence|].
  destruct (String.eqb_spec s "S2") as [->|_]; [congruence|].
  reflexivity.
Qed.

Section Unsupported.
Context {F : Type} `{Scalar F} `{Dtype F}.
Variable HypersphereMetric : Z -> Metric F.
Variable Rng : Type.
Variable next : nat -> Rng -> nat * Rng.

Lemma select_metric_unsupported (what whom : string) (space : option string) :
  space_in_IMPLEMENTED space = false ->
  select_metric HypersphereMetric what whom space
  = Raise (NotImplementedError (not_implemented_message what whom space)).
Proof. intros E. unfold select_metric. now rewrite E. Qed.

(** C1. A space outside the catalog makes each of the four functions raise
    [NotImplementedError] at once: whatever the other arguments, the metric
    library and the fuel, the outcome is the error, the store and the
    random generator are as they were, and the message names the requested
    space and the catalog [('S1', 'S2')]. *)
Theorem unsupported_space_raises (space : option string) :
  space <> Some "S1" -> space <> Some "S2" ->
  (forall point neighbors,
      exists msg,
        closest_neighbor HypersphereMetric point neighbors space
        = Raise (NotImplementedError msg)
        /\ names_request msg space)
  /\ (forall points,
        exists msg,
          diameter_of_data HypersphereMetric points space
          = Raise (NotImplementedError msg)
          /\ names_request msg space)
  /\ (forall fuel points tolerance (s : state F Rng),
        exists msg,
          karcher_flow HypersphereMetric next fuel points space tolerance s
          = (Raise (NotImplementedError msg), s)
          /\ names_request msg space)
  /\ (forall fuel points n_centers n_repetition tolerance (s : state F Rng),
        exists msg,
          optimal_quantization HypersphereMetric next fuel points n_centers
            space n_repetition tolerance s
          = (Raise (NotImplementedError msg), s)
          /\ names_request msg space).
Proof.
  intros H1 H2. pose proof (not_in_IMPLEMENTED space H1 H2) as E.
  repeat split; intros; eexists; (split; [|apply not_implemented_names]).
  - unfold closest_neighbor. now rewrite select_metric_unsupported.
  - unfold diameter_of_data. now rewrite select_metric_unsupported.
  - unfold karcher_flow, bind, lift. now rewrite select_metric_unsupported.
  - unfold optimal_quantization, bind, lift.
    now rewrite select_metric_unsupported.
Qed.

End Unsupported.

(** ** The state monad *)

Section MonadFacts.
Context {F Rng : Type}.
Implicit Types s : state F Rng.

Lemma bind_ok_inv {A B : Type} (c : M F Rng A) (k : A -> M F Rng B) s b s' :
  bind c k s = (Ok b, s') ->
  exists a s1, c s = (Ok a, s1) /\ k a s1 = (Ok b, s').
Proof.
  unfold bind. destruct (c s) as [[a| |] s1]; intros E; try discriminate.
  now exists a, s1.
Qed.

Lemma bind_ok {A B : Type} (c : M F Rng A) (k : A -> M F Rng B) s a s1 :
  c s = (Ok a, s1) -> bind c k s = k a s1.
Proof. unfold bind. now intros ->. Qed.

Lemma bind_ext {A B : Type} (c : M F Rng A) (k k' : A -> M F Rng B) s :
  (forall a s1, k a s1 = k' a s1) -> bind c k s = bind c k' s.
Proof.
  intros E. unfold bind. destruct (c s) as [[a| |] s1]; auto.
Qed.

Lemma bind_lift_ok {A B : Type} (a : A) (k : A -> M F Rng B) s :
  bind (lift (Ok a)) k s = k a s.
Proof. reflexivity. Qed.

Lemma lift_ok_inv {A : Type} (c : outcome A) s a s' :
  lift c s = (Ok a, s') -> c = Ok a /\ s' = s.
Proof. unfold lift. intros E. now inversion E. Qed.

Lemma read_ok_inv (l : loc) s a s' :
  read l s = (Ok a, s') -> heap s !! l = Some a /\ s' = s.
Proof.
  unfold read. destruct (heap s !! l); intros E; inversion E. now subst.
Qed.

Lemma read_ok (l : loc) s a :
  heap s !! l = Some a -> read l s = (Ok a, s).
Proof. unfold read. now intros ->. Qed.

Lemma obind_ok_inv {A B : Type} (c : outcome A) (k : A -> outcome B) b :
  obind c k = Ok b -> exists a, c = Ok a /\ k a = Ok b.
Proof. destruct c as [a| |]; simpl; intros E; try discriminate. now exists a. Qed.

End MonadFacts.

(** Inversion of a run that returned. *)
Ltac inv_run :=
  repeat match goal with
    | E : bind _ _ _ = (Ok _, _) |- _ =>
        apply bind_ok_inv in E; destruct E as (? & ? & ? & E)
    | E : lift _ _ = (Ok _, _) |- _ =>
        apply lift_ok_inv in E; destruct E as [E ?]; subst
    | E : read _ _ = (Ok _, _) |- _ =>
        apply read_ok_inv in E; destruct E as [E ?]; subst
    | E : ret _ _ = (Ok _, _) |- _ =>
        unfold ret in E; inversion E; clear E; subst
    | E : obind _ _ = Ok _ |- _ =>
        apply obind_ok_inv in E; destruct E as (? & ? & E)
    | E : Ok _ = Ok _ |- _ => inversion E; clear E; subst
    | E : context [match ?x with pair _ _ => _ end] |- _ => is_var x; destruct x
    | E : (Ok _, _) = (Ok _, _) |- _ => inversion E; clear E; subst
    end.

(** ** Supported spaces *)

Lemma select_metric_supported {F : Type} (HypersphereMetric : Z -> Metric F)
    (what whom : string) (space : option string) :
  supported space ->
  select_metric HypersphereMetric what whom space
  = Ok (space_metric HypersphereMetric space).
Proof. intros [-> | ->]; reflexivity. Qed.

(** ** Lists *)

Lemma lookup_map {A B : Type} (f : A -> B) (l : list A) (i : nat) :
  map f l !! i = option_map f (l !! i).
Proof.
  revert i. induction l as [|x l IH]; intros [|i]; simpl; auto.
Qed.

Lemma get_item_ok {A : Type} (a : list A) (i : nat) (x : A) :
  a !! i = Some x -> get_item a i = Ok x.
Proof. unfold get_item. now intros ->. Qed.

Lemma set_item_ok {A : Type} (a : list A) (i : nat) (x : A) :
  i < length a -> set_item a i x = Ok (<[i := x]> a).
Proof. unfold set_item. intros Hi. now rewrite (proj2 (Nat.ltb_lt _ _) Hi). Qed.

(** ** [argmin] *)

Section Argmin.
Context {F : Type} `{Scalar F}.

Lemma argmin_scan_bound (a : list F) (best : F) (ibest i : nat) :
  ibest < i -> argmin_scan a best ibest i < i + length a.
Proof.
  revert best ibest i. induction a as [|x a IH]; intros best ibest i Hi; simpl.
  - lia.
  - destruct (fltb x best).
    + specialize (IH x i (S i)). lia.
    + specialize (IH best ibest (S i)). lia.
Qed.

Lemma argmin_bound (a : list F) (i : nat) :
  argmin a = Ok i -> i < length a.
Proof.
  destruct a as [|x a]; simpl; intros E; inversion E.
  pose proof (argmin_scan_bound a x 0 1). lia.
Qed.

Hypothesis laws : OrderLaws F.

Lemma fltb_asym (x y : F) : fltb x y = true -> fltb y x = false.
Proof.
  intros Hxy. destruct (fltb y x) eqn:Hyx; [|reflexivity].
  pose proof (fltb_trans F laws x y x Hxy Hyx) as Hxx.
  now rewrite (fltb_irrefl F laws) in Hxx.
Qed.

(** Below a value that is not above [y]. *)
Lemma fltb_le_trans (x y z : F) :
  fltb x y = true -> fltb z y = false -> fltb x z = true.
Proof.
  intros Hxy Hzy. destruct (fltb x z) eqn:Hxz; [reflexivity|].
  destruct (fltb z x) eqn:Hzx.
  - now rewrite (fltb_trans F laws z x y Hzx Hxy) in Hzy.
  - pose proof (fltb_total F laws x z Hxz Hzx). subst z. congruence.
Qed.

Lemma fle_lt_trans (x y z : F) :
  fltb y x = false -> fltb y z = true -> fltb x z = true.
Proof.
  intros Hyx Hyz. destruct (fltb x z) eqn:Hxz; [reflexivity|].
  destruct (fltb z x) eqn:Hzx.
  - now rewrite (fltb_trans F laws y z x Hyz Hzx) in Hyx.
  - pose proof (fltb_total F laws x z Hxz Hzx). subst z. congruence.
Qed.

(** The invariant of the scan: [best], at [ibest], is first-minimal among
    the entries before [i]. *)
Lemma argmin_scan_spec (pre rest : list F) (best : F) (ibest : nat) :
  (pre ++ rest) !! ibest = Some best ->
  ibest < length pre ->
  (forall j x, j < length pre -> (pre ++ rest) !! j = Some x ->
               fltb x best = false) ->
  (forall j x, j < ibest -> (pre ++ rest) !! j = Some x ->
               fltb best x = true) ->
  let r := argmin_scan rest best ibest (length pre) in
  exists m,
    (pre ++ rest) !! r = Some m
    /\ (forall j x, (pre ++ rest) !! j = Some x -> fltb x m = false)
    /\ (forall j x, j < r -> (pre ++ rest) !! j = Some x -> fltb m x = true).
Proof.
  revert pre best ibest.
  induction rest as [|x rest IH]; intros pre best ibest Hb Hi Hle Hlt; simpl.
  - exists best. rewrite app_nil_r in *. repeat split; auto.
    intros j y Hj. apply (Hle j); [|exact Hj].
    now apply lookup_lt_Some in Hj.
  - assert (Hx : (pre ++ x :: rest) !! length pre = Some x).
    { rewrite lookup_app_r by lia. now rewrite Nat.sub_diag. }
    assert (Hsplit : pre ++ x :: rest = (pre ++ [x]) ++ rest).
    { now rewrite <- app_assoc. }
    assert (Hlen : length (pre ++ [x]) = S (length pre)).
    { rewrite length_app. simpl. lia. }
    destruct (fltb x best) eqn:Hxb.
    + specialize (IH (pre ++ [x]) x (length pre)).
      rewrite Hlen, <- Hsplit in IH. apply IH; auto.
      * intros j y Hj Hy. destruct (decide (j = length pre)) as [->|Hne].
        -- rewrite Hx in Hy. inversion Hy. apply (fltb_irrefl F laws).
        -- destruct (fltb y x) eqn:Hyx; [|reflexivity].
           rewrite <- (Hle j y); [|lia|exact Hy].
           symmetry. now apply (fltb_trans F laws y x best).
      * intros j y Hj Hy. apply (fltb_le_trans x best y Hxb).
        now apply (Hle j).
    + specialize (IH (pre ++ [x]) best ibest).
      rewrite Hlen, <- Hsplit in IH. apply IH; auto.
      intros j y Hj Hy. destruct (decide (j = length pre)) as [->|Hne].
      * rewrite Hx in Hy. now inversion Hy; subst.
      * apply (Hle j); [lia|exact Hy].
Qed.

Lemma argmin_spec (a : list F) :
  a <> [] ->
  exists i m,
    argmin a = Ok i
    /\ a !! i = Some m
    /\ (forall j x, a !! j = Some x -> fltb x m = false)
    /\ (forall j x, j < i -> a !! j = Some x -> fltb m x = true).
Proof.
  destruct a as [|x a]; [congruence|]. intros _.
  destruct (argmin_scan_spec [x] a x 0) as (m & Hm & Hle & Hlt); simpl; auto.
  - intros j y Hj Hy. assert (j = 0) as -> by lia. simpl in Hy.
    inversion Hy. apply (fltb_irrefl F laws).
  - intros; lia.
  - exists (argmin_scan a x 0 1), m. auto.
Qed.

End Argmin.

(** ** [closest_neighbor] *)

Section ClosestNeighbor.
Context {F : Type} `{Scalar F}.
Variable HypersphereMetric : Z -> Metric F.
Hypothesis laws : OrderLaws F.

Lemma first_minimal_unique (m : Metric F) (point : vector F)
    (neighbors : array F) (i i' : nat) :
  first_minimal m point neighbors i ->
  first_minimal m point neighbors i' ->
  i = i'.
Proof.
  intros (c & Hc & Hle & Hlt) (c' & Hc' & Hle' & Hlt').
  destruct (Nat.lt_trichotomy i i') as [Hlt0 | [Heq | Hgt0]]; [|exact Heq|].
  - pose proof (Hlt' i c Hlt0 Hc) as E.
    pose proof (Hle i' c' Hc') as E'.
    rewrite (fleb_fltb F laws), E in E'. discriminate.
  - pose proof (Hlt i' c' Hgt0 Hc') as E.
    pose proof (Hle' i c Hc) as E'.
    rewrite (fleb_fltb F laws), E in E'. discriminate.
Qed.

Lemma closest_neighbor_ok (point : vector F) (neighbors : array F)
    (space : option string) :
  supported space -> neighbors <> [] ->
  exists i,
    closest_neighbor HypersphereMetric point neighbors space = Ok i
    /\ first_minimal (space_metric HypersphereMetric space) point neighbors i.
Proof.
  intros Hs Hne. unfold closest_neighbor.
  rewrite select_metric_supported by exact Hs. simpl.
  set (m := space_metric HypersphereMetric space).
  destruct (argmin_spec laws (map (dist m point) neighbors))
    as (i & d & E & Hd & Hle & Hlt).
  { destruct neighbors; [congruence | discriminate]. }
  exists i. rewrite E. simpl. split; [reflexivity|].
  rewrite lookup_map in Hd.
  destruct (neighbors !! i) as [c|] eqn:Hc; simpl in Hd; [|discriminate Hd].
  inversion Hd; subst d. exists c. split; [exact Hc | split].
  - intros j x Hx. rewrite (fleb_fltb F laws).
    rewrite (Hle j (dist m point x)); [reflexivity|].
    now rewrite lookup_map, Hx.
  - intros j x Hj Hx. apply (Hlt j); [exact Hj|].
    now rewrite lookup_map, Hx.
Qed.

(** C6. On a supported space and a set of candidates that is not empty,
    [closest_neighbor] returns the first index among those that minimise
    the distance to the point: no candidate is nearer and each earlier one
    is strictly farther.  That index is the only one with this property, so
    the result is determined by the arguments. *)
Theorem closest_neighbor_first_minimal (point : vector F)
    (neighbors : array F) (space : option string) :
  supported space -> neighbors <> [] ->
  exists i,
    closest_neighbor HypersphereMetric point neighbors space = Ok i
    /\ first_minimal (space_metric HypersphereMetric space) point neighbors i
    /\ (forall i',
           first_minimal (space_metric HypersphereMetric space) point
             neighbors i' ->
           closest_neighbor HypersphereMetric point neighbors space = Ok i').
Proof.
  intros Hs Hne.
  destruct (closest_neighbor_ok point neighbors space Hs Hne) as (i & E & Hi).
  exists i. repeat split; auto.
  intros i' Hi'. now rewrite (first_minimal_unique _ _ _ _ _ Hi' Hi).
Qed.

End ClosestNeighbor.

(** ** The rationals satisfy the laws *)

Lemma Qc_ltb_lt (x y : Qc) : Qc_ltb x y = true <-> (x < y)%Qc.
Proof.
  unfold Qc_ltb. rewrite Qclt_alt.
  destruct (x ?= y)%Qc; split; congruence.
Qed.

Lemma Qc_ltb_ge (x y : Qc) : Qc_ltb x y = false <-> (y <= x)%Qc.
Proof.
  rewrite Qcle_ngt, <- Qc_ltb_lt. destruct (Qc_ltb x y); split; congruence.
Qed.

Lemma Qc_order_laws : OrderLaws Qc.
Proof.
  split; simpl.
  - intros x. apply Qc_ltb_ge, Qcle_refl.
  - intros x y z. rewrite !Qc_ltb_lt. apply Qclt_trans.
  - intros x y. rewrite !Qc_ltb_ge. intros Hyx Hxy. now apply Qcle_antisym.
  - intros x y. unfold Qc_leb, Qc_ltb, Qccompare.
    rewrite <- (Qcompare_antisym x y). now destruct (x ?= y)%Q.
  - intros x y. split; [apply Qc_eq_bool_correct|].
    intros ->. unfold Qc_eq_bool.
    destruct (Qcanon.Qc_eq_dec y y); [reflexivity | congruence].
Qed.

Lemma Qc_exact_laws : ExactLaws Qc.
Proof.
  split; simpl.
  - exact Qc_order_laws.
  - exact Qcft.
  - intros x y z. rewrite !Qc_ltb_lt. intros Hxy.
    apply Qclt_minus_iff. apply Qclt_minus_iff in Hxy.
    replace (y + z + - (x + z))%Qc with (y + - x)%Qc by ring. exact Hxy.
  - intros x y. rewrite !Qc_ltb_lt. intros Hx Hy.
    replace (Q2Qc 0) with (0 * y)%Qc by ring.
    now apply Qcmult_lt_compat_r.
  - reflexivity.
  - intros z. unfold Qc_of_Z. apply Qc_is_canon. simpl.
    rewrite inject_Z_plus. rewrite !Qred_correct. reflexivity.
Qed.

(** ** float64 satisfies the sign laws *)

(** From the IEEE 754 specification of the primitive floats: rounding keeps
    the sign bit, and a whole number of at most 53 bits is a float64. *)
Section FloatSigns.
Import SpecFloat.

Lemma SFleb_zero x : SFleb (S754_zero false) x = sf_nonneg x.
Proof. now destruct x as [s|[]| |[] m e]. Qed.

Lemma shr_1_nonneg mrs : (0 <= shr_m mrs)%Z -> (0 <= shr_m (shr_1 mrs))%Z.
Proof.
  destruct mrs as [m r s]. simpl.
  destruct m as [|[p|p|]|[p|p|]]; simpl; lia.
Qed.

Lemma iter_pos_shr_1_nonneg p : forall mrs,
  (0 <= shr_m mrs)%Z -> (0 <= shr_m (iter_pos shr_1 p mrs))%Z.
Proof.
  induction p as [p IH|p IH|]; intros mrs Hm; simpl.
  - apply IH, IH, shr_1_nonneg, Hm.
  - apply IH, IH, Hm.
  - apply shr_1_nonneg, Hm.
Qed.

Lemma shr_fexp_nonneg prec emax m e l :
  (0 <= m)%Z -> (0 <= shr_m (fst (shr_fexp prec emax m e l)))%Z.
Proof.
  intros Hm. unfold shr_fexp, shr.
  assert (H0 : (0 <= shr_m (shr_record_of_loc m l))%Z)
    by now destruct l as [|[]].
  destruct (_ - e)%Z as [|p|p]; simpl; auto.
  now apply iter_pos_shr_1_nonneg.
Qed.

Lemma round_nearest_even_nonneg m l :
  (0 <= m)%Z -> (0 <= round_nearest_even m l)%Z.
Proof.
  intros Hm. destruct l as [|[]]; simpl; try lia.
  destruct (Z.even m); lia.
Qed.

(** Rounding a mantissa that is not negative, with the sign bit clear, gives
    a float that is not negative. *)
Lemma binary_round_aux_nonneg prec emax m e l :
  (0 <= m)%Z -> sf_nonneg (binary_round_aux prec emax false m e l) = true.
Proof.
  intros Hm. unfold binary_round_aux.
  pose proof (shr_fexp_nonneg prec emax m e l Hm) as H1.
  destruct (shr_fexp prec emax m e l) as [mrs' e']. simpl in H1.
  pose proof (shr_fexp_nonneg prec emax
                (round_nearest_even (shr_m mrs') (loc_of_shr_record mrs')) e'
                loc_Exact (round_nearest_even_nonneg _ _ H1)) as H2.
  destruct (shr_fexp prec emax _ e' loc_Exact) as [mrs'' e'']. simpl in H2.
  destruct (shr_m mrs'') as [|p|p]; [reflexivity | | lia].
  now destruct (e'' <=? emax - prec)%Z.
Qed.

Lemma binary_round_nonneg prec emax m e :
  sf_nonneg (binary_round prec emax false m e) = true.
Proof.
  unfold binary_round. destruct (shl_align _ _ _) as [mz ez].
  now apply binary_round_aux_nonneg.
Qed.

Lemma SFadd_nonneg prec emax x y :
  sf_nonneg x = true -> sf_nonneg y = true ->
  sf_nonneg (SFadd prec emax x y) = true.
Proof.
  destruct x as [sx|[]| |[] mx ex]; destruct y as [sy|[]| |[] my ey];
    try discriminate; try reflexivity; intros _ _.
  - now destruct sx, sy.
  - simpl. apply binary_round_nonneg.
Qed.

Lemma SFdiv_nonneg prec emax x my ey :
  sf_nonneg x = true ->
  sf_nonneg (SFdiv prec emax x (S754_finite false my ey)) = true.
Proof.
  destruct x as [sx|[]| |[] mx ex]; try discriminate; try reflexivity;
    intros _.
  unfold SFdiv, SFdiv_core_binary.
  set (e' := Z.min _ _). set (m' := match (ex - ey - e')%Z with 0%Z => _ | _ => _ end).
  assert (Hm' : (0 <= m')%Z).
  { subst m'. destruct (ex - ey - e')%Z; try lia.
    apply Z.shiftl_nonneg. lia. }
  pose proof (Z_div_mod m' (Z.pos my) ltac:(lia)) as Hdiv.
  destruct (Z.div_eucl m' (Z.pos my)) as [q r].
  apply binary_round_aux_nonneg. simpl. nia.
Qed.


Lemma digits2_pos_bound (p : positive) : forall k : Z,
  (Z.pos p < 2 ^ k)%Z -> (0 <= k)%Z -> (Z.pos (digits2_pos p) <= k)%Z.
Proof.
  induction p as [p IH|p IH|]; intros k Hp Hk; simpl digits2_pos.
  - assert (Hk1 : (0 < k)%Z).
    { destruct (Z.eq_dec k 0%Z) as [->|]; [simpl in Hp; lia | lia]. }
    replace k with (Z.succ (k - 1)) in Hp by lia.
    rewrite Z.pow_succ_r in Hp by lia.
    specialize (IH (k - 1)%Z ltac:(lia) ltac:(lia)). lia.
  - assert (Hk1 : (0 < k)%Z).
    { destruct (Z.eq_dec k 0%Z) as [->|]; [simpl in Hp; lia | lia]. }
    replace k with (Z.succ (k - 1)) in Hp by lia.
    rewrite Z.pow_succ_r in Hp by lia.
    specialize (IH (k - 1)%Z ltac:(lia) ltac:(lia)). lia.
  - destruct (Z.eq_dec k 0%Z) as [->|]; [simpl in Hp; lia | lia].
Qed.

Lemma digits2_pos_shift (p d : positive) :
  Z.pos (digits2_pos (Pos.iter xO p d)) = (Z.pos (digits2_pos p) + Z.pos d)%Z.
Proof.
  induction d as [|d IH] using Pos.peano_ind.
  - simpl. lia.
  - rewrite Pos.iter_succ. simpl digits2_pos. lia.
Qed.

(** A mantissa of 53 digits with an exponent in range is its own rounding. *)
Lemma binary_round_aux_exact (m : positive) (e : Z) :
  Z.pos (digits2_pos m) = 53%Z -> (-1074 <= e <= 971)%Z ->
  binary_round_aux FloatOps.prec FloatOps.emax false (Z.pos m) e loc_Exact
  = S754_finite false m e
  /\ valid_binary FloatOps.prec FloatOps.emax (S754_finite false m e) = true.
Proof.
  intros Hd He.
  assert (Hf : fexp FloatOps.prec FloatOps.emax (Z.pos (digits2_pos m) + e)
               = e).
  { rewrite Hd. unfold fexp, SpecFloat.emin, FloatOps.prec, FloatOps.emax. lia. }
  split.
  - unfold binary_round_aux, shr_fexp. simpl Zdigits2. rewrite Hf, Z.sub_diag.
    simpl. rewrite Hf, Z.sub_diag. simpl.
    replace (e <=? FloatOps.emax - FloatOps.prec)%Z with true; [reflexivity|].
    symmetry. apply Z.leb_le. unfold FloatOps.prec, FloatOps.emax. lia.
  - unfold valid_binary, bounded, canonical_mantissa. rewrite Hf, Z.eqb_refl.
    apply Z.leb_le. unfold FloatOps.prec, FloatOps.emax. lia.
Qed.

(** An integer of at most 53 bits converts to a finite float64 above zero. *)
Lemma float_of_Z_finite (n : Z) :
  (0 < n < 2 ^ 53)%Z ->
  exists m e, FloatOps.Prim2SF (float_of_Z n) = S754_finite false m e.
Proof.
  intros [Hpos Hlt]. destruct n as [|p|p]; try lia.
  pose proof (digits2_pos_bound p 53 Hlt ltac:(lia)) as Hd.
  unfold float_of_Z, binary_normalize, binary_round.
  assert (Hf : fexp FloatOps.prec FloatOps.emax (Z.pos (digits2_pos p) + 0)
               = (Z.pos (digits2_pos p) - 53)%Z).
  { unfold fexp, SpecFloat.emin, FloatOps.prec, FloatOps.emax. lia. }
  rewrite Hf. unfold shl_align. rewrite Z.sub_0_r.
  destruct (Z.pos (digits2_pos p) - 53)%Z as [|q|q] eqn:Eq; [|lia|].
  - destruct (binary_round_aux_exact p 0) as [E V]; [lia | lia|].
    rewrite E. rewrite FloatAxioms.Prim2SF_SF2Prim by exact V. eauto.
  - destruct (binary_round_aux_exact (Pos.iter xO p q) (Z.neg q)) as [E V].
    + rewrite digits2_pos_shift. lia.
    + lia.
    + rewrite E. rewrite FloatAxioms.Prim2SF_SF2Prim by exact V. eauto.
Qed.

End FloatSigns.

Lemma float_leb_zero (x : PrimFloat.float) :
  PrimFloat.leb PrimFloat.zero x = sf_nonneg (FloatOps.Prim2SF x).
Proof.
  rewrite FloatAxioms.leb_spec.
  change (FloatOps.Prim2SF PrimFloat.zero) with (SpecFloat.S754_zero false).
  apply SFleb_zero.
Qed.

Lemma float_succ_nonneg (x : PrimFloat.float) :
  PrimFloat.leb PrimFloat.zero x = true ->
  PrimFloat.leb PrimFloat.zero (PrimFloat.add x PrimFloat.one) = true.
Proof.
  rewrite !float_leb_zero, FloatAxioms.add_spec. intros Hx.
  now apply SFadd_nonneg.
Qed.

Lemma float_div_nonneg (x : PrimFloat.float) (n : Z) :
  PrimFloat.leb PrimFloat.zero x = true -> (0 < n < 2 ^ 53)%Z ->
  PrimFloat.leb PrimFloat.zero (PrimFloat.div x (float_of_Z n)) = true.
Proof.
  rewrite !float_leb_zero, FloatAxioms.div_spec. intros Hx Hn.
  destruct (float_of_Z_finite n Hn) as (m & e & ->).
  now apply SFdiv_nonneg.
Qed.

Lemma float_sign_laws : SignLaws PrimFloat.float.
Proof.
  split; simpl.
  - reflexivity.
  - exact float_succ_nonneg.
  - exact float_div_nonneg.
Qed.

(** ** Exact arithmetic *)

Section Exact.
Context {F : Type} `{Scalar F}.
Hypothesis laws : ExactLaws F.

Add Field F_field : (exact_field F laws).

Lemma fmul_0_l (x : F) : fmul fzero x = fzero.
Proof. ring. Qed.

Lemma fadd_0_r (x : F) : fadd x fzero = x.
Proof. ring. Qed.

Lemma fmul_1_l (x : F) : fmul fone x = x.
Proof. ring. Qed.

Lemma gap_guard_zero (gap : F) :
  feqb gap fzero = true -> gap_guard gap = fone.
Proof.
  intros E. unfold gap_guard. rewrite E. simpl. ring.
Qed.

Lemma gap_guard_nonzero (gap : F) :
  feqb gap fzero = false -> gap_guard gap = gap.
Proof.
  intros E. unfold gap_guard. rewrite E. simpl. ring.
Qed.

Lemma gap_guard_cases (gap : F) :
  gap_guard gap = if feqb gap fzero then fone else gap.
Proof.
  destruct (feqb gap fzero) eqn:E;
    [now apply gap_guard_zero | now apply gap_guard_nonzero].
Qed.

Lemma of_nat_0 : of_nat 0 = fzero.
Proof. unfold of_nat. simpl. apply (of_Z_0 F laws). Qed.

Lemma of_nat_S (n : nat) : of_nat (S n) = fadd (of_nat n) fone.
Proof.
  unfold of_nat. rewrite Nat2Z.inj_succ. unfold Z.succ.
  apply (of_Z_succ F laws).
Qed.

Lemma of_nat_add (a b : nat) : of_nat (a + b) = fadd (of_nat a) (of_nat b).
Proof.
  induction b as [|b IH].
  - rewrite Nat.add_0_r, of_nat_0. ring.
  - rewrite Nat.add_succ_r, !of_nat_S, IH. ring.
Qed.

Lemma of_Z_2 : of_Z 2 = fadd fone fone.
Proof.
  change 2%Z with (0 + 1 + 1)%Z.
  rewrite !(of_Z_succ F laws), (of_Z_0 F laws). ring.
Qed.

Lemma bumps_of_nat (n : nat) : bumps n = of_nat n.
Proof.
  induction n as [|n IH]; [now rewrite of_nat_0|].
  rewrite of_nat_S, <- IH. reflexivity.
Qed.

Let order := exact_order F laws.

Lemma flt_0_1 : fltb fzero fone = true.
Proof.
  destruct (fltb fzero fone) eqn:E01; [reflexivity|].
  destruct (fltb fone fzero) eqn:E10.
  - pose proof (fadd_lt F laws _ _ (fopp fone) E10) as E.
    replace (fadd fone (fopp fone)) with fzero in E by ring.
    replace (fadd fzero (fopp fone)) with (fopp fone) in E by ring.
    pose proof (fmul_pos F laws _ _ E E) as E'.
    replace (fmul (fopp fone) (fopp fone)) with fone in E' by ring.
    congruence.
  - pose proof (fltb_total F order _ _ E01 E10) as E.
    destruct (F_1_neq_0 (exact_field F laws)). now symmetry.
Qed.

Lemma of_nat_pos (n : nat) : fltb fzero (of_nat (S n)) = true.
Proof.
  induction n as [|n IH].
  - rewrite of_nat_S, of_nat_0.
    replace (fadd fzero fone) with fone by ring. apply flt_0_1.
  - rewrite of_nat_S.
    pose proof (fadd_lt F laws _ _ fone IH) as E.
    replace (fadd fzero fone) with fone in E by ring.
    exact (fltb_trans F order _ _ _ flt_0_1 E).
Qed.

Lemma flt_neq (x y : F) : fltb x y = true -> y <> x.
Proof. intros E ->. now rewrite (fltb_irrefl F order) in E. Qed.

Lemma fdiv_same (x : F) : fltb fzero x = true -> fdiv x x = fone.
Proof. intros E. apply flt_neq in E. now field. Qed.

Lemma finv_pos (x : F) : fltb fzero x = true -> fltb fzero (finv x) = true.
Proof.
  intros Hx. pose proof (flt_neq _ _ Hx) as Hne.
  destruct (fltb fzero (finv x)) eqn:E0; [reflexivity|].
  destruct (fltb (finv x) fzero) eqn:E1.
  - pose proof (fadd_lt F laws _ _ (fopp (finv x)) E1) as E.
    replace (fadd (finv x) (fopp (finv x))) with fzero in E by ring.
    replace (fadd fzero (fopp (finv x))) with (fopp (finv x)) in E by ring.
    pose proof (fmul_pos F laws _ _ Hx E) as E'.
    replace (fmul x (fopp (finv x))) with (fopp fone) in E' by now field.
    pose proof (fadd_lt F laws _ _ fone E') as E''.
    replace (fadd fzero fone) with fone in E'' by ring.
    replace (fadd (fopp fone) fone) with fzero in E'' by ring.
    pose proof (fltb_trans F order _ _ _ E'' flt_0_1) as Hc.
    now rewrite (fltb_irrefl F order) in Hc.
  - pose proof (fltb_total F order _ _ E0 E1) as E.
    destruct (F_1_neq_0 (exact_field F laws)).
    replace fone with (fmul x (finv x)) by now field.
    rewrite <- E. ring.
Qed.

(** A count over a positive count is not negative. *)
Lemma fdiv_nonneg (c n : nat) :
  0 < n -> fleb fzero (fdiv (of_nat c) (of_nat n)) = true.
Proof.
  intros Hn. rewrite (fleb_fltb F order).
  destruct n as [|n]; [lia|].
  pose proof (finv_pos _ (of_nat_pos n)) as Hinv.
  rewrite (Fdiv_def (exact_field F laws)).
  destruct c as [|c].
  - rewrite of_nat_0.
    replace (fmul fzero (finv (of_nat (S n)))) with fzero by ring.
    now rewrite (fltb_irrefl F order).
  - pose proof (fmul_pos F laws _ _ (of_nat_pos c) Hinv) as E.
    now rewrite (fltb_asym order _ _ E).
Qed.

Lemma of_Z_pos (z : Z) : (0 < z)%Z -> fltb fzero (of_Z z) = true.
Proof.
  intros Hz. replace z with (Z.of_nat (S (Z.to_nat (z - 1)))) by lia.
  apply of_nat_pos.
Qed.

(** The signs in exact arithmetic. *)
Lemma exact_sign_laws : SignLaws F.
Proof.
  split.
  - rewrite (fleb_fltb F order). now rewrite (fltb_irrefl F order).
  - intros x Hx. rewrite (fleb_fltb F order) in *.
    apply negb_true_iff in Hx. apply negb_true_iff.
    apply (fltb_asym order).
    destruct (fltb fzero x) eqn:E0.
    + pose proof (fadd_lt F laws _ _ fone E0) as E.
      replace (fadd fzero fone) with fone in E by ring.
      exact (fltb_trans F order _ _ _ flt_0_1 E).
    + pose proof (fltb_total F order _ _ Hx E0) as ->.
      replace (fadd fzero fone) with fone by ring. apply flt_0_1.
  - intros x n Hx [Hn _]. rewrite (fleb_fltb F order) in *.
    apply negb_true_iff in Hx. apply negb_true_iff.
    pose proof (finv_pos _ (of_Z_pos n Hn)) as Hinv.
    rewrite (Fdiv_def (exact_field F laws)).
    destruct (fltb fzero x) eqn:E0.
    + apply (fltb_asym order). now apply (fmul_pos F laws).
    + pose proof (fltb_total F order _ _ Hx E0) as ->.
      replace (fmul fzero (finv (of_Z n))) with fzero by ring.
      apply (fltb_irrefl F order).
Qed.

(** Doubling keeps the order. *)
Lemma double_lt (x y : F) :
  fltb (fmul x (of_Z 2)) (fmul y (of_Z 2)) = fltb x y.
Proof.
  assert (Hmono : forall a b, fltb a b = true ->
                    fltb (fmul a (of_Z 2)) (fmul b (of_Z 2)) = true).
  { intros a b E. rewrite of_Z_2.
    pose proof (fadd_lt F laws _ _ a E) as E1.
    pose proof (fadd_lt F laws _ _ b E) as E2.
    replace (fadd a b) with (fadd b a) in E2 by ring.
    replace (fmul a (fadd fone fone)) with (fadd a a) by ring.
    replace (fmul b (fadd fone fone)) with (fadd b b) by ring.
    exact (fltb_trans F order _ _ _ E1 E2). }
  destruct (fltb x y) eqn:Exy; [now apply Hmono|].
  destruct (fltb y x) eqn:Eyx.
  - apply (fltb_asym order). now apply Hmono.
  - rewrite (fltb_total F order _ _ Exy Eyx). apply (fltb_irrefl F order).
Qed.

(** The sum of the counts over [n] is the sum of the counts, over [n]. *)
Lemma fsum_fractions (c : nat -> nat) (n : F) (js : list nat) (acc : nat) :
  foldl fadd (fdiv (of_nat acc) n) (map (fun j => fdiv (of_nat (c j)) n) js)
  = fdiv (of_nat (foldl (fun a j => a + c j) acc js)) n.
Proof.
  revert acc. induction js as [|j js IH]; intros acc; simpl; [reflexivity|].
  rewrite <- IH. f_equal. rewrite of_nat_add.
  rewrite !(Fdiv_def (exact_field F laws)). ring.
Qed.

End Exact.

(** ** The loop of [optimal_quantization] *)

Section QuantizationLoop.
Context {F : Type} `{Scalar F} `{Dtype F}.
Variable HypersphereMetric : Z -> Metric F.
Context {Rng : Type}.
Variable next : nat -> Rng -> nat * Rng.
Implicit Types s : state F Rng.

Lemma closest_neighbor_bound (point : vector F) (neighbors : array F)
    (space : option string) (i : nat) :
  closest_neighbor HypersphereMetric point neighbors space = Ok i ->
  i < length neighbors.
Proof.
  unfold closest_neighbor. intros E. inv_run.
  match goal with
  | E : argmin _ = Ok _ |- _ =>
      apply argmin_bound in E; now rewrite length_map in E
  end.
Qed.

(** A pass that got as far as the distance has a winner in range in the
    array of centers; nothing but the fresh sample was added to the store. *)
Lemma quantization_move_winner (metric : Metric F) (points centers : loc)
    (space : option string) (n_repetition : Z) (step : nat) s
    (index : nat) (new_center : vector F) (gap : F) s1 :
  quantization_move HypersphereMetric next metric points centers space
    n_repetition step s = (Ok (index, new_center, gap), s1) ->
  exists cs, heap s1 !! centers = Some cs /\ index < length cs.
Proof.
  unfold quantization_move. intros E. inv_run.
  match goal with
  | E : closest_neighbor _ _ ?cs _ = Ok _ |- _ =>
      exists cs; split; [assumption | now apply closest_neighbor_bound in E]
  end.
Qed.

Lemma quantization_step_run (metric : Metric F) (points centers : loc)
    (space : option string) (n_repetition : Z) (step : nat) s
    (index : nat) (new_center : vector F) (gap : F) s1 :
  quantization_move HypersphereMetric next metric points centers space
    n_repetition step s = (Ok (index, new_center, gap), s1) ->
  exists cs,
    heap s1 !! centers = Some cs
    /\ index < length cs
    /\ quantization_step HypersphereMetric next metric points centers space
         n_repetition step s
       = (Ok (gap_guard gap),
          Build_state
            (<[centers := <[index := map astype new_center]> cs]> (heap s1))
            (rng s1)).
Proof.
  intros E.
  destruct (quantization_move_winner _ _ _ _ _ _ _ _ _ _ _ E)
    as (cs & Hcs & Hi).
  exists cs. repeat split; auto.
  unfold quantization_step. rewrite (bind_ok _ _ _ _ _ E).
  unfold bind, write_row. rewrite Hcs.
  apply Nat.ltb_lt in Hi. now rewrite Hi.
Qed.

Lemma quantization_loop_unfold (fuel : nat) (metric : Metric F)
    (points centers : loc) (space : option string) (n_repetition : Z)
    (tolerance gap : F) (step : nat) :
  fltb tolerance gap = true ->
  quantization_loop HypersphereMetric next (S fuel) metric points centers
    space n_repetition tolerance gap step
  = (let! gap' :=
       quantization_step HypersphereMetric next metric points centers space
         n_repetition (S step) in
     quantization_loop HypersphereMetric next fuel metric points centers
       space n_repetition tolerance gap' (S step)).
Proof. intros E. simpl. now rewrite E. Qed.

Lemma quantization_loop_exit (fuel : nat) (metric : Metric F)
    (points centers : loc) (space : option string) (n_repetition : Z)
    (tolerance gap : F) (step : nat) s :
  fltb tolerance gap = false ->
  quantization_loop HypersphereMetric next fuel metric points centers
    space n_repetition tolerance gap step s = (Ok step, s).
Proof. intros E. destruct fuel; simpl; now rewrite E. Qed.

End QuantizationLoop.

(** ** The zero-gap guard *)

Section ZeroGap.
Context {F : Type} `{Scalar F} `{Dtype F}.
Variable HypersphereMetric : Z -> Metric F.
Context {Rng : Type}.
Variable next : nat -> Rng -> nat * Rng.
Hypothesis laws : ExactLaws F.

(** C2. The guard of line 156 turns a raw gap that is zero into 1 and leaves
    any other raw gap as it is.  In a pass of the loop whose winner moves by
    the raw distance [raw], the value the next test [gap > tolerance] reads
    is 1 when [raw] is zero and [raw] otherwise; so after a pass in which the
    winner does not move, and with a tolerance below 1, the loop does not
    return: it runs its body once more (or the fuel of the model is spent). *)
Theorem zero_gap_substitution :
  (forall raw : F, feqb raw fzero = true -> gap_guard raw = fone)
  /\ (forall raw : F, feqb raw fzero = false -> gap_guard raw = raw)
  /\ (forall fuel metric points centers space n_repetition tolerance gap step
             (s : state F Rng) index new_center raw s1,
         fltb tolerance gap = true ->
         quantization_move HypersphereMetric next metric points centers space
           n_repetition (S step) s = (Ok (index, new_center, raw), s1) ->
         exists s2,
           quantization_step HypersphereMetric next metric points centers
             space n_repetition (S step) s
           = (Ok (if feqb raw fzero then fone else raw), s2)
           /\ quantization_loop HypersphereMetric next (S fuel) metric points
                centers space n_repetition tolerance gap step s
              = quantization_loop HypersphereMetric next fuel metric points
                  centers space n_repetition tolerance
                  (if feqb raw fzero then fone else raw) (S step) s2
           /\ (feqb raw fzero = true -> fltb tolerance fone = true ->
               quantization_loop HypersphereMetric next (S fuel) metric points
                 centers space n_repetition tolerance gap step s
               = match fuel with
                 | O => (OutOfFuel, s2)
                 | S fuel' =>
                     (let! gap' :=
                        quantization_step HypersphereMetric next metric points
                          centers space n_repetition (S (S step)) in
                      quantization_loop HypersphereMetric next fuel' metric
                        points centers space n_repetition tolerance gap'
                        (S (S step))) s2
                 end)).
Proof.
  split; [exact (gap_guard_zero laws) |].
  split; [exact (gap_guard_nonzero laws) |].
  intros fuel metric points centers space n_repetition tolerance gap step s
    index new_center raw s1 Hgap Hmove.
  destruct (quantization_step_run _ _ _ _ _ _ _ _ _ _ _ _ _ Hmove)
    as (cs & Hcs & Hi & Hstep).
  rewrite (gap_guard_cases laws) in Hstep.
  eexists. split; [exact Hstep |].
  assert (Hloop :
    quantization_loop HypersphereMetric next (S fuel) metric points centers
      space n_repetition tolerance gap step s
    = quantization_loop HypersphereMetric next fuel metric points centers
        space n_repetition tolerance (if feqb raw fzero then fone else raw)
        (S step)
        (Build_state
           (<[centers := <[index := map astype new_center]> cs]> (heap s1))
           (rng s1))).
  { rewrite quantization_loop_unfold by exact Hgap.
    now rewrite (bind_ok _ _ _ _ _ Hstep). }
  split; [exact Hloop |].
  intros Hzero Htol. rewrite Hloop, Hzero.
  destruct fuel as [|fuel'].
  - simpl. now rewrite Htol.
  - now rewrite quantization_loop_unfold by exact Htol.
Qed.

End ZeroGap.

(** ** Sampling *)

Section Sampling.
Context {F Rng : Type}.
Variable next : nat -> Rng -> nat * Rng.
Implicit Types s : state F Rng.

Lemma draws_length (high size : nat) (g : Rng) :
  length (draws next high size g).1 = size.
Proof.
  revert g. induction size as [|k IH]; intros g; simpl; [reflexivity|].
  destruct (next high g) as [i g1]. specialize (IH g1).
  destruct (draws next high k g1) as [r g2]. simpl in *. now rewrite IH.
Qed.

Lemma take_rows_ok (points : array F) (index : list nat) :
  Forall (fun i => i < length points) index ->
  exists sample,
    take_rows points index = Ok sample
    /\ Forall2 (fun i row => points !! i = Some row) index sample.
Proof.
  induction 1 as [|i index Hi _ (sample & E & Hs)]; simpl.
  - exists []. split; [reflexivity | constructor].
  - apply lookup_lt_is_Some_2 in Hi. destruct Hi as [row Hrow].
    exists (row :: sample). unfold get_item. rewrite Hrow. simpl.
    rewrite E. simpl. split; [reflexivity | now constructor].
Qed.

Lemma take_rows_inv (points : array F) (index : list nat) (sample : array F) :
  take_rows points index = Ok sample ->
  Forall2 (fun i row => points !! i = Some row) index sample.
Proof.
  revert sample. induction index as [|i index IH]; intros sample; simpl.
  - intros E. inversion E. constructor.
  - unfold get_item. destruct (points !! i) as [row|] eqn:Hrow; simpl;
      [|discriminate].
    destruct (take_rows points index) as [rest| |]; simpl; try discriminate.
    intros E. inversion E. constructor; [exact Hrow | now apply IH].
Qed.

(** On an empty cloud a draw of at least one point raises, and nothing has
    changed. *)
Lemma sample_from_empty (points : loc) (size : nat) s :
  heap s !! points = Some [] -> 0 < size ->
  sample_from next points size s = (Raise (ValueError "low >= high"), s).
Proof.
  intros Hp Hsize. unfold sample_from.
  rewrite (bind_ok _ _ _ _ _ (read_ok _ _ _ Hp)).
  unfold bind, randint. simpl.
  destruct size; [lia | reflexivity].
Qed.

Lemma randint_inv (high size : nat) s (index : list nat) s' :
  randint next high size s = (Ok index, s') ->
  length index = size /\ heap s' = heap s.
Proof.
  unfold randint. destruct (size =? 0) eqn:E0.
  - intros E. inversion E; subst. apply Nat.eqb_eq in E0. now subst.
  - destruct (high =? 0); [discriminate|].
    pose proof (draws_length high size (rng s)) as Hl.
    destruct (draws next high size (rng s)) as [ix g].
    intros E. inversion E; subst. now split.
Qed.

(** What [sample_from] returns is a new array: its location is the first
    free one and its rows are rows of the cloud. *)
Lemma sample_from_inv (points : loc) (size : nat) s (l : loc) s' :
  sample_from next points size s = (Ok l, s') ->
  l = length (heap s)
  /\ exists pts index sample,
       heap s !! points = Some pts
       /\ heap s' = heap s ++ [sample]
       /\ length sample = size
       /\ Forall2 (fun i row => pts !! i = Some row) index sample.
Proof.
  unfold sample_from. intros E. inv_run.
  match goal with
  | E : randint _ _ _ _ = _ |- _ => apply randint_inv in E; destruct E as [Hl Hh]
  end.
  match goal with
  | E : take_rows _ _ = Ok _ |- _ => apply take_rows_inv in E; rename E into Hrows
  end.
  unfold alloc in E. inversion E; subst. rewrite Hh.
  split; [reflexivity|]. do 3 eexists. split; [eassumption|].
  split; [reflexivity|]. split; [|exact Hrows].
  now rewrite <- (Forall2_length _ _ _ Hrows).
Qed.

(** The generator draws in range. *)
Hypothesis next_range :
  forall (high : nat) (g : Rng), 0 < high -> (next high g).1 < high.

Lemma draws_range (high size : nat) (g : Rng) :
  0 < high -> Forall (fun i => i < high) (draws next high size g).1.
Proof.
  intros Hh. revert g. induction size as [|k IH]; intros g; simpl;
    [constructor|].
  pose proof (next_range high g Hh) as Hi.
  destruct (next high g) as [i g1]. specialize (IH g1).
  destruct (draws next high k g1) as [r g2]. simpl in *. now constructor.
Qed.

(** On a cloud that is not empty, [sample_from] returns a new array, made of
    rows of the cloud at the indices drawn; the arrays already in the store
    are as they were. *)
Lemma sample_from_ok (points : loc) (size : nat) s (pts : array F) :
  heap s !! points = Some pts -> pts <> [] ->
  exists index sample g,
    draws next (length pts) size (rng s) = (index, g)
    /\ length sample = size
    /\ Forall2 (fun i row => pts !! i = Some row) index sample
    /\ sample_from next points size s
       = (Ok (length (heap s)), Build_state (heap s ++ [sample]) g).
Proof.
  intros Hp Hne.
  assert (Hlen : 0 < length pts) by (destruct pts; simpl; [congruence | lia]).
  destruct (draws next (length pts) size (rng s)) as [index g] eqn:Hd.
  destruct (take_rows_ok pts index) as (sample & Ht & Hs).
  { pose proof (draws_range (length pts) size (rng s) Hlen) as Hr.
    now rewrite Hd in Hr. }
  exists index, sample, g. split; [reflexivity|].
  split.
  { rewrite <- (Forall2_length _ _ _ Hs).
    pose proof (draws_length (length pts) size (rng s)) as Hl.
    now rewrite Hd in Hl. }
  split; [exact Hs|].
  unfold sample_from. rewrite (bind_ok _ _ _ _ _ (read_ok _ _ _ Hp)).
  destruct size as [|k].
  - simpl in Hd. inversion Hd; subst. simpl in Ht. inversion Ht; subst.
    unfold bind, randint, lift, alloc. simpl. now destruct s.
  - unfold bind at 1. unfold randint.
    replace (S k =? 0) with false by reflexivity.
    destruct (length pts =? 0) eqn:E0; [apply Nat.eqb_eq in E0; lia|].
    rewrite Hd. unfold bind, lift. rewrite Ht. reflexivity.
Qed.

End Sampling.

(** ** The frame of a run *)

Section FrameFacts.
Context {F Rng : Type} `{Dtype F}.
Implicit Types s : state F Rng.

Lemma frame_refl (c : loc) s : frame c s s.
Proof. repeat split; auto. intros a Ha. now exists a. Qed.

Lemma frame_same_heap (c : loc) s s' : heap s' = heap s -> frame c s s'.
Proof.
  intros E. unfold frame. rewrite E. repeat split; auto.
  intros a Ha. now exists a.
Qed.

Lemma frame_trans (c : loc) s1 s2 s3 :
  frame c s1 s2 -> frame c s2 s3 -> frame c s1 s3.
Proof.
  intros (Hl1 & Ho1 & Hc1) (Hl2 & Ho2 & Hc2). repeat split.
  - lia.
  - intros l Hl Hne. rewrite Ho2 by lia. now apply Ho1.
  - intros a Ha. destruct (Hc1 a Ha) as (a' & Ha' & Hlen).
    destruct (Hc2 a' Ha') as (a'' & Ha'' & Hlen').
    exists a''. split; [assumption | congruence].
Qed.

Lemma preserves_ret {A : Type} (c : loc) (a : A) :
  preserves c (ret a : M F Rng A).
Proof. intros s. apply frame_refl. Qed.

Lemma preserves_lift {A : Type} (c : loc) (o : outcome A) :
  preserves c (lift o : M F Rng A).
Proof. intros s. apply frame_refl. Qed.

Lemma preserves_read (c l : loc) : preserves c (read l : M F Rng _).
Proof.
  intros s. unfold read. destruct (heap s !! l); apply frame_refl.
Qed.

Lemma preserves_bind {A B : Type} (c : loc) (m : M F Rng A)
    (k : A -> M F Rng B) :
  preserves c m -> (forall a, preserves c (k a)) -> preserves c (bind m k).
Proof.
  intros Hm Hk s. unfold bind. specialize (Hm s).
  destruct (m s) as [[a| |] s1]; simpl in *; try exact Hm.
  eapply frame_trans; [exact Hm | apply Hk].
Qed.

Lemma preserves_alloc (c : loc) (a : array F) :
  preserves c (alloc a : M F Rng _).
Proof.
  intros s. unfold alloc, frame. simpl. repeat split.
  - rewrite length_app. lia.
  - intros l Hl _. now apply lookup_app_l.
  - intros a0 Ha0. exists a0. split; [|reflexivity].
    rewrite lookup_app_l; [exact Ha0 | now apply lookup_lt_Some in Ha0].
Qed.

(** A write to a row of the array at [c]. *)
Lemma preserves_write_row (c : loc) (i : nat) (v : vector F) :
  preserves c (write_row c i v : M F Rng _).
Proof.
  intros s. unfold write_row.
  destruct (heap s !! c) as [a|] eqn:Ha; [|apply frame_refl].
  destruct (i <? length a); [|apply frame_refl].
  unfold frame. simpl. repeat split.
  - now rewrite length_insert.
  - intros l Hl Hne. now apply list_lookup_insert_ne.
  - intros a0 Ha0. exists (<[i := map astype v]> a). split.
    + apply list_lookup_insert_eq. now apply lookup_lt_Some in Ha.
    + rewrite length_insert. congruence.
Qed.

End FrameFacts.

Section FrameOfTheModule.
Context {F : Type} `{Scalar F} `{Dtype F}.
Variable HypersphereMetric : Z -> Metric F.
Context {Rng : Type}.
Variable next : nat -> Rng -> nat * Rng.
Implicit Types s : state F Rng.

Lemma preserves_randint (c : loc) (high size : nat) :
  preserves c (randint next high size : M F Rng _).
Proof.
  intros s. unfold randint.
  destruct (size =? 0); [apply frame_refl|].
  destruct (high =? 0); [apply frame_refl|].
  destruct (draws next high size (rng s)). now apply frame_same_heap.
Qed.

Lemma preserves_sample_from (c : loc) (points : loc) (size : nat) :
  preserves c (sample_from next points size : M F Rng _).
Proof.
  unfold sample_from.
  apply preserves_bind; [apply preserves_read | intros pts].
  apply preserves_bind; [apply preserves_randint | intros index].
  apply preserves_bind; [apply preserves_lift | intros sample].
  apply preserves_alloc.
Qed.

Lemma preserves_quantization_move (c : loc) (metric : Metric F)
    (points centers : loc) (space : option string) (n_repetition : Z)
    (step : nat) :
  preserves c (quantization_move HypersphereMetric next metric points centers
                 space n_repetition step).
Proof.
  unfold quantization_move.
  repeat first
    [ apply preserves_sample_from
    | apply preserves_ret
    | apply preserves_lift
    | apply preserves_read
    | apply preserves_bind; [|intros ?]
    | progress cbv zeta ].
Qed.

(** The only write of [optimal_quantization] is to the array of centers. *)
Lemma preserves_quantization_step (metric : Metric F)
    (points centers : loc) (space : option string) (n_repetition : Z)
    (step : nat) :
  preserves centers (quantization_step HypersphereMetric next metric points
                       centers space n_repetition step).
Proof.
  unfold quantization_step.
  apply preserves_bind; [apply preserves_quantization_move|].
  intros [[index new_center] gap].
  apply preserves_bind; [apply preserves_write_row | intros _].
  apply preserves_ret.
Qed.

Lemma preserves_quantization_loop (fuel : nat) (metric : Metric F)
    (points centers : loc) (space : option string) (n_repetition : Z)
    (tolerance gap : F) (step : nat) :
  preserves centers (quantization_loop HypersphereMetric next fuel metric
                       points centers space n_repetition tolerance gap step).
Proof.
  revert gap step. induction fuel as [|fuel IH]; intros gap step; simpl.
  - destruct (fltb tolerance gap); [apply preserves_lift | apply preserves_ret].
  - destruct (fltb tolerance gap); [|apply preserves_ret].
    apply preserves_bind; [apply preserves_quantization_step|].
    intros gap'. apply IH.
Qed.

Lemma preserves_labelling (c : loc) (points centers : loc) (n_centers : nat)
    (space : option string) :
  preserves c (labelling HypersphereMetric points centers n_centers space
               : M F Rng _).
Proof.
  unfold labelling.
  apply preserves_bind; [apply preserves_read | intros pts].
  apply preserves_bind; [apply preserves_read | intros cs].
  apply preserves_bind; [apply preserves_lift | intros [clustering weights]].
  apply preserves_ret.
Qed.

Lemma preserves_karcher_step (c : loc) (metric : Metric F) (points : loc)
    (n_points : nat) (karcher_mean : vector F) :
  preserves c (karcher_step metric points n_points karcher_mean
               : M F Rng _).
Proof.
  unfold karcher_step.
  apply preserves_bind; [apply preserves_read | intros pts].
  apply preserves_bind; [apply preserves_lift | intros tangent_vectors].
  apply preserves_ret.
Qed.

Lemma preserves_karcher_loop (c : loc) (fuel : nat) (metric : Metric F)
    (points : loc) (n_points : nat) (tolerance : F) (karcher_mean : vector F)
    (gap : F) (step : nat) :
  preserves c (karcher_loop fuel metric points n_points tolerance karcher_mean
                 gap step : M F Rng _).
Proof.
  revert karcher_mean gap step.
  induction fuel as [|fuel IH]; intros karcher_mean gap step; simpl.
  - destruct (fltb tolerance gap); [apply preserves_lift | apply preserves_ret].
  - destruct (fltb tolerance gap); [|apply preserves_ret].
    apply preserves_bind; [apply preserves_karcher_step|].
    intros [karcher_mean_updated gap']. apply IH.
Qed.

Lemma preserves_karcher_flow (c : loc) (fuel : nat) (points : loc)
    (space : option string) (tolerance : F) :
  preserves c (karcher_flow HypersphereMetric next fuel points space
                 tolerance).
Proof.
  unfold karcher_flow.
  apply preserves_bind; [apply preserves_lift | intros metric].
  apply preserves_bind; [apply preserves_sample_from | intros sample].
  apply preserves_bind; [apply preserves_read | intros a].
  apply preserves_bind; [apply preserves_lift | intros karcher_mean].
  apply preserves_bind; [apply preserves_read | intros pts].
  apply preserves_karcher_loop.
Qed.

End FrameOfTheModule.

(** ** The cloud is not written to *)

Section Cloud.
Context {F : Type} `{Scalar F} `{Dtype F}.
Variable HypersphereMetric : Z -> Metric F.
Context {Rng : Type}.
Variable next : nat -> Rng -> nat * Rng.
Implicit Types s : state F Rng.

Lemma frame_fresh (s s' : state F Rng) :
  frame (length (heap s)) s s' ->
  forall l a, heap s !! l = Some a -> heap s' !! l = Some a.
Proof.
  intros (_ & Ho & _) l a Ha. pose proof (lookup_lt_Some _ _ _ Ha) as Hl.
  rewrite Ho; [exact Ha | exact Hl | lia].
Qed.

Lemma optimal_quantization_frame (fuel : nat) (points : loc) (n_centers : nat)
    (space : option string) (n_repetition : Z) (tolerance : F) s :
  frame (length (heap s)) s
    (optimal_quantization HypersphereMetric next fuel points n_centers space
       n_repetition tolerance s).2.
Proof.
  unfold optimal_quantization, bind at 1, lift at 1.
  destruct (select_metric _ _ _ space) as [metric| |];
    try apply frame_refl.
  unfold bind at 1.
  pose proof (preserves_sample_from next (length (heap s)) points n_centers s)
    as Hs.
  destruct (sample_from next points n_centers s) as [[centers| |] s1] eqn:E;
    simpl in Hs; try exact Hs.
  apply sample_from_inv in E. destruct E as [-> _].
  eapply frame_trans; [exact Hs|].
  apply preserves_bind; [apply preserves_quantization_loop | intros step].
  apply preserves_bind; [apply preserves_labelling | intros [w c]].
  apply preserves_ret.
Qed.

(** C10. Whatever the outcome of a run of [optimal_quantization] or of
    [karcher_flow] (a result, an exception, or fuel spent), every array that
    was in the store before the run, the cloud among them, has the same
    contents after it.  The array of centers that [optimal_quantization]
    returns is a new object: its location held no array before the run, so it
    is an alias of none, and it is the only array the run writes to. *)
Theorem cloud_unchanged (fuel : nat) (points : loc) (n_centers : nat)
    (space : option string) (n_repetition : Z) (tolerance : F) s :
  (forall l a,
      heap s !! l = Some a ->
      heap (optimal_quantization HypersphereMetric next fuel points n_centers
              space n_repetition tolerance s).2 !! l = Some a)
  /\ (forall centers weights clustering step,
         (optimal_quantization HypersphereMetric next fuel points n_centers
            space n_repetition tolerance s).1
         = Ok (centers, weights, clustering, step) ->
         heap s !! centers = None /\ centers <> points)
  /\ (forall l a,
         heap s !! l = Some a ->
         heap (karcher_flow HypersphereMetric next fuel points space
                 tolerance s).2 !! l = Some a).
Proof.
  split; [|split].
  - apply frame_fresh, optimal_quantization_frame.
  - intros centers weights clustering step E.
    destruct (optimal_quantization _ _ _ _ _ _ _ _ s) as [r s'] eqn:Erun.
    simpl in E. subst r. unfold optimal_quantization in Erun. inv_run.
    match goal with
    | E : sample_from _ _ _ _ = _ |- _ =>
        apply sample_from_inv in E;
        destruct E as (-> & pts & _ & _ & Hp & _)
    end.
    split.
    + apply lookup_ge_None. lia.
    + apply lookup_lt_Some in Hp. lia.
  - apply frame_fresh, preserves_karcher_flow.
Qed.

End Cloud.

(** ** The labelling pass *)

Section Labelling.
Context {F : Type} `{Scalar F}.
Variable HypersphereMetric : Z -> Metric F.
Context {Rng : Type}.
Implicit Types s : state F Rng.

Lemma closest_neighbor_total (point : vector F) (cs : array F)
    (space : option string) :
  supported space -> cs <> [] ->
  exists l,
    closest_neighbor HypersphereMetric point cs space = Ok l /\ l < length cs.
Proof.
  intros Hs Hne.
  assert (E : exists l, closest_neighbor HypersphereMetric point cs space = Ok l).
  { unfold closest_neighbor. rewrite select_metric_supported by exact Hs.
    destruct cs as [|c cs]; [congruence|]. simpl. eauto. }
  destruct E as [l E]. exists l. split; [exact E|].
  eapply closest_neighbor_bound; exact E.
Qed.

(** The loop over the points from index [off] on: it writes the labels into
    the array of labels from [off] on and adds one to the count of each
    label. *)
Lemma label_loop (cs : array F) (space : option string) :
  supported space -> cs <> [] ->
  forall (pts : array F) (off : nat) (cl w : list F),
    off + length pts <= length cl -> length w = length cs ->
    exists labels w',
      Forall2 (fun p l => closest_neighbor HypersphereMetric p cs space = Ok l)
        pts labels
      /\ Forall (fun l => l < length cs) labels
      /\ foldM_o (label_point HypersphereMetric cs space)
           (zip (seq off (length pts)) pts) (cl, w)
         = Ok (take off cl ++ map of_nat labels ++ drop (off + length pts) cl,
               w')
      /\ length w' = length w
      /\ forall j,
           w' !! j
           = option_map
               (Nat.iter (label_count labels j) (fun y => fadd y fone))
               (w !! j).
Proof.
  intros Hs Hne pts.
  induction pts as [|p pts IH]; intros off cl w Hcl Hw; simpl.
  - exists [], w. split; [constructor|]. split; [constructor|].
    split; [|split].
    + simpl. rewrite Nat.add_0_r, take_drop. reflexivity.
    + reflexivity.
    + intros j. now destruct (w !! j).
  - destruct (closest_neighbor_total p cs space Hs Hne) as (l & El & Hl).
    simpl in Hcl.
    assert (Hoff : off < length cl) by lia.
    assert (Hlw : l < length w) by lia.
    destruct (lookup_lt_is_Some_2 w l Hlw) as [wl Hwl].
    destruct (IH (S off) (<[off := of_nat l]> cl) (<[l := fadd wl fone]> w))
      as (labels & w' & Hlab & Hrange & Hfold & Hlen & Hw').
    { rewrite length_insert. lia. }
    { now rewrite length_insert. }
    exists (l :: labels), w'. split; [now constructor|].
    split; [now constructor|]. split; [|split].
    + rewrite El. simpl. unfold set_item, get_item.
      rewrite (proj2 (Nat.ltb_lt _ _) Hoff). simpl. rewrite Hwl. simpl.
      rewrite (proj2 (Nat.ltb_lt _ _) Hlw). simpl. rewrite Hfold.
      f_equal. f_equal.
      rewrite (take_S_r _ _ (of_nat l)).
      * rewrite take_insert_ge by lia. rewrite drop_insert_lt by lia.
        rewrite <- app_assoc. simpl. now rewrite Nat.add_succ_r.
      * now apply list_lookup_insert_eq.
    + rewrite Hlen. apply length_insert.
    + intros j. rewrite Hw'. unfold label_count.
      destruct (decide (l = j)) as [<-|Hne'].
      * rewrite list_lookup_insert_eq by exact Hlw. rewrite Hwl.
        rewrite count_occ_cons_eq by reflexivity.
        cbn [option_map]. rewrite Nat.iter_succ_r. reflexivity.
      * rewrite list_lookup_insert_ne by exact Hne'.
        now rewrite count_occ_cons_neq by exact Hne'.
Qed.

(** The pass on a store: with at least one center it returns, for the labels
    [l_i] of the points by nearest center, the array of the [l_i] as floats
    and, for each center, its count over the number of points. *)
Lemma labelling_ok (points centers : loc) (n_centers : nat)
    (space : option string) s (pts cs : array F) :
  heap s !! points = Some pts -> heap s !! centers = Some cs ->
  supported space -> cs <> [] -> length cs = n_centers ->
  exists labels,
    Forall2 (fun p l => closest_neighbor HypersphereMetric p cs space = Ok l)
      pts labels
    /\ Forall (fun l => l < n_centers) labels
    /\ labelling HypersphereMetric points centers n_centers space s
       = (Ok (map (fun j => fdiv (bumps (label_count labels j))
                              (of_nat (length pts)))
                (seq 0 n_centers),
              map of_nat labels), s).
Proof.
  intros Hp Hc Hs Hne Hlen.
  destruct (label_loop cs space Hs Hne pts 0 (zeros1 (length pts))
              (zeros1 n_centers))
    as (labels & w' & Hlab & Hrange & Hfold & Hlw & Hw').
  { unfold zeros1. rewrite length_replicate. lia. }
  { unfold zeros1. now rewrite length_replicate. }
  exists labels. split; [exact Hlab|]. split; [now rewrite <- Hlen|].
  unfold labelling.
  rewrite (bind_ok _ _ _ _ _ (read_ok _ _ _ Hp)).
  rewrite (bind_ok _ _ _ _ _ (read_ok _ _ _ Hc)).
  unfold bind, lift, ret. rewrite Hfold. f_equal. f_equal. f_equal.
  - unfold vdiv. apply list_eq. intros j. rewrite !lookup_map, Hw'.
    unfold zeros1 in *. rewrite length_replicate in Hlw.
    destruct (decide (j < n_centers)) as [Hj|Hj].
    + rewrite lookup_replicate_2 by exact Hj.
      rewrite lookup_seq_lt by exact Hj. reflexivity.
    + assert (E : replicate n_centers (fzero : F) !! j = None)
        by (apply lookup_replicate_None; lia).
      rewrite E.
      rewrite lookup_seq_ge by lia. reflexivity.
  - simpl. rewrite drop_ge; [apply app_nil_r|].
    unfold zeros1. rewrite length_replicate. lia.
Qed.

End Labelling.

(** ** Weights and labels *)

Lemma foldl_add_sum (c : nat -> nat) (js : list nat) (acc : nat) :
  foldl (fun a j => a + c j) acc js = acc + sum_list_with c js.
Proof.
  revert acc. induction js as [|j js IH]; intros acc; simpl; [lia|].
  rewrite IH. lia.
Qed.

Lemma sum_indicator (l a k : nat) :
  sum_list_with (fun j => if Nat.eq_dec l j then 1 else 0) (seq a k)
  = if decide (a <= l < a + k) then 1 else 0.
Proof.
  revert a. induction k as [|k IH]; intros a; simpl.
  - case_decide; [lia | reflexivity].
  - rewrite IH. destruct (Nat.eq_dec l a); repeat case_decide; lia.
Qed.

Lemma sum_label_count_cons (l : nat) (labels js : list nat) :
  sum_list_with (label_count (l :: labels)) js
  = sum_list_with (fun j => if Nat.eq_dec l j then 1 else 0) js
    + sum_list_with (label_count labels) js.
Proof.
  induction js as [|j js IH]; simpl; [reflexivity|].
  rewrite IH. unfold label_count. simpl. destruct (Nat.eq_dec l j); lia.
Qed.

(** Labels in range are counted once each. *)
Lemma sum_label_count (labels : list nat) (k : nat) :
  Forall (fun l => l < k) labels ->
  sum_list_with (label_count labels) (seq 0 k) = length labels.
Proof.
  induction 1 as [|l labels Hl _ IH].
  - induction (seq 0 k) as [|j js IHjs]; simpl; [reflexivity | exact IHjs].
  - rewrite sum_label_count_cons, IH, sum_indicator. simpl.
    case_decide; lia.
Qed.

Lemma select_metric_ok_inv {F : Type} (HypersphereMetric : Z -> Metric F)
    (what whom : string) (space : option string) (m : Metric F) :
  select_metric HypersphereMetric what whom space = Ok m -> supported space.
Proof.
  unfold select_metric, supported. destruct space as [sp|]; simpl;
    [|discriminate].
  destruct (String.eqb_spec sp "S1") as [->|_]; [now left|].
  destruct (String.eqb_spec sp "S2") as [->|_]; [now right|].
  discriminate.
Qed.

Section Weights.
Context {F : Type} `{Scalar F} `{Dtype F}.
Variable HypersphereMetric : Z -> Metric F.
Context {Rng : Type}.
Variable next : nat -> Rng -> nat * Rng.
Implicit Types s : state F Rng.

(** A run that returns: its labels are those of the points by nearest center
    among the centers it returns, and its weights are the counts of the
    labels, each built by adding one and divided by the number of points. *)
Lemma optimal_quantization_labels (fuel : nat) (points : loc)
    (n_centers : nat) (space : option string) (n_repetition : Z)
    (tolerance : F) s (pts : array F) centers weights clustering step s' :
  heap s !! points = Some pts -> 1 <= n_centers ->
  optimal_quantization HypersphereMetric next fuel points n_centers space
    n_repetition tolerance s = (Ok (centers, weights, clustering, step), s') ->
  exists cs labels,
    heap s' !! centers = Some cs
    /\ length cs = n_centers
    /\ Forall2 (fun p l => closest_neighbor HypersphereMetric p cs space = Ok l)
         pts labels
    /\ Forall (fun l => l < n_centers) labels
    /\ clustering = map of_nat labels
    /\ weights = map (fun j => fdiv (bumps (label_count labels j))
                                 (of_nat (length pts)))
                   (seq 0 n_centers).
Proof.
  intros Hp Hn Erun. unfold optimal_quantization in Erun.
  apply bind_ok_inv in Erun as (metric & s0 & Em & Erun).
  apply lift_ok_inv in Em as [Hs ->].
  apply select_metric_ok_inv in Hs.
  apply bind_ok_inv in Erun as (c & s1 & Es & Erun).
  apply bind_ok_inv in Erun as (step0 & s2 & Eloop & Erun).
  apply bind_ok_inv in Erun as ([w cl] & s3 & Elab & Erun).
  unfold ret in Erun. inversion Erun; subst. clear Erun.
  apply sample_from_inv in Es.
  destruct Es as (-> & pts0 & index & sample & Hp0 & Hheap & Hlen & _).
  pose proof (preserves_quantization_loop HypersphereMetric next fuel metric
                points (length (heap s)) space n_repetition tolerance fone 0
                s1) as Hfr.
  rewrite Eloop in Hfr. simpl in Hfr. destruct Hfr as (_ & Hother & Hself).
  pose proof (lookup_lt_Some _ _ _ Hp) as Hlt.
  destruct (Hself sample) as (cs & Hcs & Hcslen).
  { rewrite Hheap. rewrite lookup_app_r by lia.
    now rewrite Nat.sub_diag. }
  assert (Hp2 : heap s2 !! points = Some pts).
  { rewrite Hother; [|rewrite Hheap, length_app; lia | lia].
    rewrite Hheap. rewrite lookup_app_l by lia. exact Hp. }
  destruct (labelling_ok HypersphereMetric points (length (heap s))
              n_centers space s2 pts cs Hp2 Hcs Hs)
    as (labels & Hlab & Hrange & Elab').
  { destruct cs; simpl in *; [lia | congruence]. }
  { lia. }
  rewrite Elab' in Elab. inversion Elab; subst.
  exists cs, labels. split; [exact Hcs|]. split; [lia|].
  split; [exact Hlab|]. split; [exact Hrange|]. split; reflexivity.
Qed.

(** A count built by adding one per point is not negative. *)
Lemma bumps_nonneg (n : nat) : SignLaws F -> fleb fzero (bumps n) = true.
Proof.
  intros signs. induction n as [|n IH]; simpl.
  - apply (sign_zero F signs).
  - now apply (sign_succ F signs).
Qed.

(** C5 (amended). A run of [optimal_quantization] that returns, on a cloud
    of N >= 1 points and with at least one center, gives labels that all lie
    in [0, n_centers), the label of each point being the index
    [closest_neighbor] returns for it among the returned centers, and
    weights that are the counts of the labels, each built by adding one per
    point, divided by N; the counts sum to N.  No weight is negative, in
    float64 as in exact arithmetic: this needs the signs of sums and
    quotients only, and N below 2^53, as the length of any array is.  In
    exact arithmetic each weight is the fraction of the points that carry
    its label and the weights sum to 1; in float64 their sum can differ
    from 1. *)
Theorem weights_from_label_counts (fuel : nat) (points : loc)
    (n_centers : nat) (space : option string) (n_repetition : Z)
    (tolerance : F) s (pts : array F) centers weights clustering step s' :
  heap s !! points = Some pts -> pts <> [] -> 1 <= n_centers ->
  optimal_quantization HypersphereMetric next fuel points n_centers space
    n_repetition tolerance s = (Ok (centers, weights, clustering, step), s') ->
  exists cs labels,
    heap s' !! centers = Some cs
    /\ length cs = n_centers
    /\ Forall2 (fun p l => closest_neighbor HypersphereMetric p cs space = Ok l)
         pts labels
    /\ Forall (fun l => l < n_centers) labels
    /\ clustering = map of_nat labels
    /\ weights = map (fun j => fdiv (bumps (label_count labels j))
                                 (of_nat (length pts)))
                   (seq 0 n_centers)
    /\ sum_list_with (label_count labels) (seq 0 n_centers) = length pts
    /\ (SignLaws F -> (Z.of_nat (length pts) < 2 ^ 53)%Z ->
        Forall (fun w => fleb fzero w = true) weights)
    /\ (ExactLaws F ->
        weights = map (fun j => fdiv (of_nat (label_count labels j))
                                  (of_nat (length pts)))
                    (seq 0 n_centers)
        /\ Forall (fun w => fleb fzero w = true) weights
        /\ fsum weights = fone).
Proof.
  intros Hp Hne Hn Erun.
  destruct (optimal_quantization_labels _ _ _ _ _ _ _ _ _ _ _ _ _ Hp Hn Erun)
    as (cs & labels & Hcs & Hlen & Hlab & Hrange & Hcl & Hw).
  assert (HN : 0 < length pts) by (destruct pts; simpl; [congruence | lia]).
  assert (Hsum : sum_list_with (label_count labels) (seq 0 n_centers)
                 = length pts).
  { rewrite sum_label_count by exact Hrange.
    symmetry. exact (Forall2_length _ _ _ Hlab). }
  exists cs, labels. do 6 (split; [assumption|]). split; [exact Hsum|].
  split.
  { intros signs Hbound. rewrite Hw. apply Forall_forall. intros w Hin.
    apply list_elem_of_In, in_map_iff in Hin. destruct Hin as (j & <- & _).
    apply (sign_div F signs); [now apply bumps_nonneg | lia]. }
  intros laws.
  assert (Hw' : weights
                = map (fun j => fdiv (of_nat (label_count labels j))
                                  (of_nat (length pts))) (seq 0 n_centers)).
  { rewrite Hw. apply map_ext. intros j. now rewrite (bumps_of_nat laws). }
  split; [exact Hw'|]. split.
  - rewrite Hw'. apply Forall_forall. intros w Hin.
    apply list_elem_of_In, in_map_iff in Hin. destruct Hin as (j & <- & _).
    now apply (fdiv_nonneg laws).
  - rewrite Hw'. unfold fsum.
    replace fzero with (fdiv (of_nat 0) (of_nat (length pts))).
    + rewrite (fsum_fractions laws), foldl_add_sum, Hsum. simpl.
      destruct (length pts) as [|n]; [lia|].
      apply (fdiv_same laws), (of_nat_pos laws).
    + rewrite (of_nat_0 laws), (Fdiv_def (exact_field F laws)).
      apply (fmul_0_l laws).
Qed.

End Weights.

(** ** A tolerance of 1 or more *)

Section LargeTolerance.
Context {F : Type} `{Scalar F} `{Dtype F}.
Variable HypersphereMetric : Z -> Metric F.
Context {Rng : Type}.
Variable next : nat -> Rng -> nat * Rng.
Implicit Types s : state F Rng.

Lemma karcher_loop_exit (fuel : nat) (metric : Metric F) (points : loc)
    (n_points : nat) (tolerance : F) (karcher_mean : vector F) (gap : F)
    (step : nat) s :
  fltb tolerance gap = false ->
  karcher_loop fuel metric points n_points tolerance karcher_mean gap step s
  = (Ok (karcher_mean, step), s).
Proof. intros E. destruct fuel; simpl; now rewrite E. Qed.

Hypothesis laws : OrderLaws F.
Hypothesis next_range :
  forall (high : nat) (g : Rng), 0 < high -> (next high g).1 < high.

(** C9 (amended). With a tolerance of 1 or more, on a supported space and a
    cloud that is not empty, neither loop runs its body, whatever the fuel:
    [karcher_flow] returns the point it drew from the cloud and 0 steps, and
    [optimal_quantization], with at least one center, returns as centers the
    new array of the rows it drew, as [sample_from] built it, and 0 steps.
    Whatever the number of centers, the run of [optimal_quantization] is the
    one it makes with no fuel at all; with no center that run raises in the
    labelling pass. *)
Theorem no_iteration_at_large_tolerance (points : loc)
    (space : option string) (tolerance : F) s (pts : array F) :
  supported space -> heap s !! points = Some pts -> pts <> [] ->
  fleb fone tolerance = true ->
  (forall fuel,
      exists i p g,
        next (length pts) (rng s) = (i, g)
        /\ pts !! i = Some p
        /\ karcher_flow HypersphereMetric next fuel points space tolerance s
           = (Ok (p, 0), Build_state (heap s ++ [[p]]) g))
  /\ (forall fuel n_centers n_repetition,
         1 <= n_centers ->
         exists index sample g weights clustering,
           draws next (length pts) n_centers (rng s) = (index, g)
           /\ Forall2 (fun i row => pts !! i = Some row) index sample
           /\ optimal_quantization HypersphereMetric next fuel points
                n_centers space n_repetition tolerance s
              = (Ok (length (heap s), weights, clustering, 0),
                 Build_state (heap s ++ [sample]) g))
  /\ (forall fuel n_centers n_repetition,
         optimal_quantization HypersphereMetric next fuel points n_centers
           space n_repetition tolerance s
         = optimal_quantization HypersphereMetric next 0 points n_centers
             space n_repetition tolerance s)
  /\ (forall fuel n_repetition,
         optimal_quantization HypersphereMetric next fuel points 0 space
           n_repetition tolerance s
         = (Raise (ValueError "attempt to get argmin of an empty sequence"),
            Build_state (heap s ++ [[]]) (rng s))).
Proof.
  intros Hs Hp Hne Htol.
  assert (Hexit : fltb tolerance fone = false).
  { rewrite (fleb_fltb F laws) in Htol. now destruct (fltb tolerance fone). }
  pose proof (lookup_lt_Some _ _ _ Hp) as Hlt.
  split; [|split; [|split]].
  - intros fuel.
    destruct (sample_from_ok next next_range points 1 s pts Hp Hne)
      as (index & sample & g & Hd & Hlen & Hrows & Es).
    simpl in Hd. destruct (next (length pts) (rng s)) as [i g1] eqn:Hnext.
    inversion Hd; subst index g. clear Hd.
    inversion Hrows as [|? p ? rest Hip Hrest]; subst.
    inversion Hrest; subst. exists i, p, g1.
    split; [reflexivity|]. split; [exact Hip|].
    unfold karcher_flow.
    rewrite select_metric_supported by exact Hs.
    unfold bind at 1, lift at 1. rewrite (bind_ok _ _ _ _ _ Es). cbv beta.
    rewrite (bind_ok _ _ _ [p] (Build_state (heap s ++ [[p]]) g1)).
    2: { apply read_ok. simpl. rewrite lookup_app_r by lia.
         now rewrite Nat.sub_diag. }
    cbv beta. change (get_item [p] 0) with (Ok p). rewrite bind_lift_ok.
    rewrite (bind_ok _ _ _ pts (Build_state (heap s ++ [[p]]) g1)).
    2: { apply read_ok. simpl. now rewrite lookup_app_l by lia. }
    now apply karcher_loop_exit.
  - intros fuel n_centers n_repetition Hn.
    destruct (sample_from_ok next next_range points n_centers s pts Hp Hne)
      as (index & sample & g & Hd & Hlen & Hrows & Es).
    set (s1 := Build_state (heap s ++ [sample]) g) in *.
    destruct (labelling_ok HypersphereMetric points (length (heap s))
                n_centers space s1 pts sample) as (labels & _ & _ & Elab).
    { simpl. now rewrite lookup_app_l by lia. }
    { simpl. rewrite lookup_app_r by lia. now rewrite Nat.sub_diag. }
    { exact Hs. }
    { destruct sample; simpl in *; [lia | congruence]. }
    { exact Hlen. }
    exists index, sample, g. do 2 eexists.
    split; [exact Hd|]. split; [exact Hrows|].
    unfold optimal_quantization.
    rewrite select_metric_supported by exact Hs.
    unfold bind at 1, lift at 1. rewrite (bind_ok _ _ _ _ _ Es). cbv beta.
    rewrite (bind_ok _ _ _ 0 s1) by now apply quantization_loop_exit.
    rewrite (bind_ok _ _ _ _ _ Elab). reflexivity.
  - intros fuel n_centers n_repetition. unfold optimal_quantization.
    rewrite select_metric_supported by exact Hs. rewrite !bind_lift_ok.
    apply bind_ext. intros centers s1. unfold bind at 1 3.
    now rewrite !(quantization_loop_exit HypersphereMetric next _ _ _ _ _ _
                    _ _ _ s1 Hexit).
  - intros fuel n_repetition. unfold optimal_quantization.
    rewrite select_metric_supported by exact Hs. rewrite bind_lift_ok.
    set (s1 := Build_state (heap s ++ [[]]) (rng s)).
    assert (Es : sample_from next points 0 s = (Ok (length (heap s)), s1)).
    { unfold sample_from. rewrite (bind_ok _ _ _ _ _ (read_ok _ _ _ Hp)).
      reflexivity. }
    rewrite (bind_ok _ _ _ _ _ Es). cbv beta.
    rewrite (bind_ok _ _ _ 0 s1) by now apply quantization_loop_exit.
    unfold labelling. unfold bind at 1.
    rewrite (bind_ok _ _ _ pts s1).
    2: { apply read_ok. simpl. now rewrite lookup_app_l by lia. }
    cbv beta zeta. rewrite (bind_ok _ _ _ [] s1).
    2: { apply read_ok. simpl. rewrite lookup_app_r by lia.
         now rewrite Nat.sub_diag. }
    destruct pts as [|p rest]; [congruence|]. simpl.
    unfold closest_neighbor. rewrite select_metric_supported by exact Hs.
    reflexivity.
Qed.

End LargeTolerance.

(** ** An empty cloud *)

Section EmptyCloud.
Context {F : Type} `{Scalar F} `{Dtype F}.
Variable HypersphereMetric : Z -> Metric F.
Context {Rng : Type}.
Variable next : nat -> Rng -> nat * Rng.
Implicit Types s : state F Rng.

(** C7 (amended). The module has no check for an empty cloud.  On a
    supported space, [diameter_of_data] of an empty cloud returns 0.0;
    [closest_neighbor] among no candidates raises the [ValueError] of
    [argmin]; [karcher_flow], and [optimal_quantization] with at least one
    center, raise the [ValueError] of [randint] in their first draw, before
    any iteration and with the store and the generator as they were. *)
Theorem empty_cloud (space : option string) :
  supported space ->
  diameter_of_data HypersphereMetric [] space = Ok fzero
  /\ (forall point,
         closest_neighbor HypersphereMetric point [] space
         = Raise (ValueError "attempt to get argmin of an empty sequence"))
  /\ (forall fuel points tolerance s,
         heap s !! points = Some [] ->
         karcher_flow HypersphereMetric next fuel points space tolerance s
         = (Raise (ValueError "low >= high"), s))
  /\ (forall fuel points n_centers n_repetition tolerance s,
         heap s !! points = Some [] -> 1 <= n_centers ->
         optimal_quantization HypersphereMetric next fuel points n_centers
           space n_repetition tolerance s
         = (Raise (ValueError "low >= high"), s)).
Proof.
  intros Hs. repeat split.
  - unfold diameter_of_data. now rewrite select_metric_supported.
  - intros point. unfold closest_neighbor.
    now rewrite select_metric_supported.
  - intros fuel points tolerance s Hp. unfold karcher_flow.
    rewrite select_metric_supported by exact Hs. rewrite bind_lift_ok.
    unfold bind. now rewrite (sample_from_empty next points 1 s Hp) by lia.
  - intros fuel points n_centers n_repetition tolerance s Hp Hn.
    unfold optimal_quantization.
    rewrite select_metric_supported by exact Hs. rewrite bind_lift_ok.
    unfold bind.
    now rewrite (sample_from_empty next points n_centers s Hp) by lia.
Qed.

End EmptyCloud.

(** ** The Karcher flow *)

Section Karcher.
Context {F : Type} `{Scalar F}.
Variable HypersphereMetric : Z -> Metric F.
Context {Rng : Type}.
Variable next : nat -> Rng -> nat * Rng.
Implicit Types s : state F Rng.

(** The loop that fills [tangent_vectors] row by row. *)
Lemma fill_rows (f : vector F -> vector F) (pts : array F) :
  forall (k off : nat) (tv : array F),
    length tv = length pts -> off + k <= length pts ->
    foldM_o (fun tangent_vectors i =>
               let? p := get_item pts i in
               set_item tangent_vectors i (f p))
            (seq off k) tv
    = Ok (take off tv ++ map f (take k (drop off pts)) ++ drop (off + k) tv).
Proof.
  induction k as [|k IH]; intros off tv Hlen Hk; simpl.
  - rewrite Nat.add_0_r, take_drop. reflexivity.
  - destruct (lookup_lt_is_Some_2 pts off) as [p Hp]; [lia|].
    assert (Hoff : off < length tv) by lia.
    rewrite (get_item_ok _ _ _ Hp). simpl.
    rewrite (set_item_ok _ _ _ Hoff). simpl.
    rewrite IH; [|rewrite length_insert; lia | lia].
    f_equal. rewrite (take_S_r _ _ (f p)) by now apply list_lookup_insert_eq.
    rewrite take_insert_ge by lia. rewrite drop_insert_lt by lia.
    rewrite (drop_S _ _ _ Hp). simpl. rewrite <- app_assoc. simpl.
    now rewrite Nat.add_succ_r.
Qed.

(** The body of the loop computes one iteration of the flow. *)
Lemma karcher_step_run (metric : Metric F) (points : loc)
    (mean : vector F) s (pts : array F) :
  heap s !! points = Some pts ->
  karcher_step metric points (length pts) mean s
  = (Ok (karcher_pass metric pts (mean, fone)), s).
Proof.
  intros Hp. unfold karcher_step.
  rewrite (bind_ok _ _ _ _ _ (read_ok _ _ _ Hp)). cbv beta zeta.
  rewrite (fill_rows (fun p => log metric p mean) pts (length pts) 0).
  - rewrite bind_lift_ok. rewrite take_0, drop_0, firstn_all.
    rewrite (drop_ge (zeros _ _))
      by (unfold zeros; rewrite length_replicate; lia).
    rewrite app_nil_r. reflexivity.
  - unfold zeros. apply length_replicate.
  - lia.
Qed.

Lemma karcher_pass_gap (metric : Metric F) (pts : array F)
    (mean : vector F) (gap gap' : F) :
  karcher_pass metric pts (mean, gap) = karcher_pass metric pts (mean, gap').
Proof. reflexivity. Qed.

Lemma karcher_loop_unfold (fuel : nat) (metric : Metric F) (points : loc)
    (tolerance : F) (mean : vector F) (gap : F) (step : nat) s
    (pts : array F) :
  heap s !! points = Some pts ->
  fltb tolerance gap = true ->
  karcher_loop (S fuel) metric points (length pts) tolerance mean gap step s
  = karcher_loop fuel metric points (length pts) tolerance
      (karcher_pass metric pts (mean, gap)).1
      (karcher_pass metric pts (mean, gap)).2 (S step) s.
Proof.
  intros Hp Hgap. simpl. rewrite Hgap.
  now rewrite (bind_ok _ _ _ _ _ (karcher_step_run metric points mean s pts Hp)).
Qed.

(** The loop stops at the first iterate whose gap is not above the
    tolerance, if the fuel reaches that far. *)
Lemma karcher_loop_run (metric : Metric F) (points : loc) (tolerance : F)
    s (pts : array F) :
  heap s !! points = Some pts ->
  forall (n fuel : nat) (st : vector F * F) (step : nat),
    n <= fuel ->
    (forall k, k < n ->
               fltb tolerance (Nat.iter k (karcher_pass metric pts) st).2
               = true) ->
    fltb tolerance (Nat.iter n (karcher_pass metric pts) st).2 = false ->
    karcher_loop fuel metric points (length pts) tolerance st.1 st.2 step s
    = (Ok ((Nat.iter n (karcher_pass metric pts) st).1, step + n), s).
Proof.
  intros Hp. induction n as [|n IH]; intros fuel st step Hfuel Hgo Hstop.
  - rewrite Nat.add_0_r. now apply karcher_loop_exit.
  - destruct fuel as [|fuel]; [lia|]. destruct st as [mean gap].
    rewrite (karcher_loop_unfold _ _ _ _ _ _ _ _ pts Hp (Hgo 0 ltac:(lia))).
    rewrite (IH fuel (karcher_pass metric pts (mean, gap)) (S step)).
    + rewrite <- Nat.iter_succ_r. now rewrite Nat.add_succ_r.
    + lia.
    + intros k Hk. rewrite <- Nat.iter_succ_r. apply Hgo. lia.
    + now rewrite <- Nat.iter_succ_r.
Qed.

Lemma karcher_loop_out_of_fuel (metric : Metric F) (points : loc)
    (tolerance : F) s (pts : array F) :
  heap s !! points = Some pts ->
  forall (fuel : nat) (st : vector F * F) (step : nat),
    (forall k, k <= fuel ->
               fltb tolerance (Nat.iter k (karcher_pass metric pts) st).2
               = true) ->
    karcher_loop fuel metric points (length pts) tolerance st.1 st.2 step s
    = (OutOfFuel, s).
Proof.
  intros Hp. induction fuel as [|fuel IH]; intros st step Hgo.
  - pose proof (Hgo 0 (Nat.le_refl 0)) as E. simpl in *. now rewrite E.
  - destruct st as [mean gap].
    rewrite (karcher_loop_unfold _ _ _ _ _ _ _ _ pts Hp (Hgo 0 ltac:(lia))).
    apply IH. intros k Hk. rewrite <- Nat.iter_succ_r. apply Hgo. lia.
Qed.

Hypothesis laws : OrderLaws F.
Hypothesis next_range :
  forall (high : nat) (g : Rng), 0 < high -> (next high g).1 < high.

(** C3. On a supported space and a cloud of N >= 1 points, [karcher_flow]
    starts from a point [p] drawn from the cloud and a gap of 1.  Each
    iteration maps the mean [mean] to [exp] of the average of the N tangent
    vectors [log(p_i, mean)], sets the gap to the distance between the two
    means and adds one to the step count.  The loop goes on while the gap is
    above the tolerance and returns the mean and the step count as soon as
    the gap is at most the tolerance: if that first happens after [n]
    iterations, any fuel of [n] or more yields the [n]-th mean and [n]; if it
    does not happen within the fuel, the run is still going. *)
Theorem karcher_flow_iteration (points : loc) (space : option string)
    (tolerance : F) s (pts : array F) :
  supported space -> heap s !! points = Some pts -> pts <> [] ->
  exists i p g,
    next (length pts) (rng s) = (i, g)
    /\ pts !! i = Some p
    /\ let metric := space_metric HypersphereMetric space in
       let s1 := Build_state (heap s ++ [[p]]) g in
       (forall mean,
           karcher_step metric points (length pts) mean s1
           = (Ok (karcher_update metric pts mean,
                  dist metric mean (karcher_update metric pts mean)), s1))
       /\ (forall fuel mean gap step,
              fleb gap tolerance = false ->
              karcher_loop (S fuel) metric points (length pts) tolerance mean
                gap step s1
              = karcher_loop fuel metric points (length pts) tolerance
                  (karcher_update metric pts mean)
                  (dist metric mean (karcher_update metric pts mean))
                  (S step) s1)
       /\ (forall fuel mean gap step,
              fleb gap tolerance = true ->
              karcher_loop fuel metric points (length pts) tolerance mean gap
                step s1
              = (Ok (mean, step), s1))
       /\ (forall n fuel,
              n <= fuel ->
              (forall k, k < n ->
                         fleb (karcher_iterate metric pts k p).2 tolerance
                         = false) ->
              fleb (karcher_iterate metric pts n p).2 tolerance = true ->
              karcher_flow HypersphereMetric next fuel points space tolerance s
              = (Ok ((karcher_iterate metric pts n p).1, n), s1))
       /\ (forall fuel,
              (forall k, k <= fuel ->
                         fleb (karcher_iterate metric pts k p).2 tolerance
                         = false) ->
              karcher_flow HypersphereMetric next fuel points space tolerance s
              = (OutOfFuel, s1)).
Proof.
  intros Hs Hp Hne.
  assert (Hle : forall x y : F, fleb x y = negb (fltb y x))
    by apply (fleb_fltb F laws).
  pose proof (lookup_lt_Some _ _ _ Hp) as Hlt.
  destruct (sample_from_ok next next_range points 1 s pts Hp Hne)
    as (index & sample & g & Hd & Hlen & Hrows & Es).
  simpl in Hd. destruct (next (length pts) (rng s)) as [i g1] eqn:Hnext.
  inversion Hd; subst index g. clear Hd.
  inversion Hrows as [|? p ? rest Hip Hrest]; subst.
  inversion Hrest; subst. exists i, p, g1.
  split; [reflexivity|]. split; [exact Hip|].
  intros metric s1.
  assert (Hp1 : heap s1 !! points = Some pts).
  { subst s1. simpl. now rewrite lookup_app_l by lia. }
  assert (Hflow : forall fuel,
    karcher_flow HypersphereMetric next fuel points space tolerance s
    = karcher_loop fuel metric points (length pts) tolerance p fone 0 s1).
  { intros fuel. unfold karcher_flow.
    rewrite select_metric_supported by exact Hs. rewrite bind_lift_ok.
    rewrite (bind_ok _ _ _ _ _ Es). cbv beta.
    rewrite (bind_ok _ _ _ [p] s1).
    2: { apply read_ok. subst s1. simpl. rewrite lookup_app_r by lia.
         now rewrite Nat.sub_diag. }
    cbv beta. change (get_item [p] 0) with (Ok p). rewrite bind_lift_ok.
    now rewrite (bind_ok _ _ _ _ _ (read_ok _ _ _ Hp1)). }
  split; [|split; [|split; [|split]]].
  - intros mean. now rewrite (karcher_step_run metric points mean s1 pts Hp1).
  - intros fuel mean gap step Hgap. rewrite Hle in Hgap.
    apply negb_false_iff in Hgap.
    now rewrite (karcher_loop_unfold _ _ _ _ _ _ _ _ pts Hp1 Hgap).
  - intros fuel mean gap step Hgap. rewrite Hle in Hgap.
    apply negb_true_iff in Hgap. now apply karcher_loop_exit.
  - intros n fuel Hfuel Hgo Hstop. rewrite Hflow.
    apply (karcher_loop_run metric points tolerance s1 pts Hp1 n fuel
             (p, fone) 0 Hfuel).
    + intros k Hk. specialize (Hgo k Hk). rewrite Hle in Hgo.
      now apply negb_false_iff in Hgo.
    + rewrite Hle in Hstop. now apply negb_true_iff in Hstop.
  - intros fuel Hgo. rewrite Hflow.
    apply (karcher_loop_out_of_fuel metric points tolerance s1 pts Hp1 fuel
             (p, fone) 0).
    intros k Hk. specialize (Hgo k Hk). rewrite Hle in Hgo.
    now apply negb_false_iff in Hgo.
Qed.

End Karcher.

(** ** The order on the scalars *)

Section Order.
Context {F : Type} `{Scalar F}.
Hypothesis laws : OrderLaws F.

Lemma fle_refl (x : F) : fleb x x = true.
Proof. now rewrite (fleb_fltb F laws), (fltb_irrefl F laws). Qed.

Lemma fle_trans (x y z : F) :
  fleb x y = true -> fleb y z = true -> fleb x z = true.
Proof.
  rewrite !(fleb_fltb F laws), !negb_true_iff. intros Hxy Hyz.
  destruct (fltb z x) eqn:Hzx; [|reflexivity].
  now rewrite (fltb_le_trans laws z x y Hzx Hxy) in Hyz.
Qed.

Lemma fle_antisym (x y : F) :
  fleb x y = true -> fleb y x = true -> x = y.
Proof.
  rewrite !(fleb_fltb F laws), !negb_true_iff. intros Hxy Hyx.
  now apply (fltb_total F laws).
Qed.

Lemma maximum_cases (a b : F) : maximum a b = a \/ maximum a b = b.
Proof. unfold maximum. destruct (fltb a b); auto. Qed.

Lemma maximum_ge_l (a b : F) : fleb a (maximum a b) = true.
Proof.
  unfold maximum. destruct (fltb a b) eqn:E; [|apply fle_refl].
  now rewrite (fleb_fltb F laws), (fltb_asym laws a b E).
Qed.

Lemma maximum_ge_r (a b : F) : fleb b (maximum a b) = true.
Proof.
  unfold maximum. destruct (fltb a b) eqn:E; [apply fle_refl|].
  now rewrite (fleb_fltb F laws), E.
Qed.

Lemma is_max_unique (v v' : F) (l : list F) :
  is_max v l -> is_max v' l -> v = v'.
Proof.
  intros [Hin Hub] [Hin' Hub']. apply fle_antisym; auto.
Qed.

(** Two lists with the same entries have the same greatest entry. *)
Lemma is_max_same_entries (v v' : F) (l l' : list F) :
  (forall x, In x l -> In x l') -> (forall x, In x l' -> In x l) ->
  is_max v l -> is_max v' l' -> v = v'.
Proof.
  intros Hsub Hsub' [Hin Hub] [Hin' Hub']. apply fle_antisym; auto.
Qed.

Lemma foldl_maximum_is_max (r : list F) (x : F) :
  is_max (foldl maximum x r) (x :: r).
Proof.
  revert x. induction r as [|y r IH]; intros x; simpl.
  - split; [now left|]. intros z [<-|[]]. apply fle_refl.
  - destruct (IH (maximum x y)) as [Hin Hub]. split.
    + destruct Hin as [E|Hin]; [|now right; right].
      rewrite <- E. destruct (maximum_cases x y) as [->| ->]; simpl; auto.
    + intros z [<-|[<-|Hz]].
      * eapply fle_trans; [apply maximum_ge_l | apply Hub; now left].
      * eapply fle_trans; [apply maximum_ge_r | apply Hub; now left].
      * apply Hub. now right.
Qed.

Lemma amax_is_max (a : list F) :
  a <> [] -> exists m, amax a = Ok m /\ is_max m a.
Proof.
  destruct a as [|x r]; [congruence|]. intros _.
  exists (foldl maximum x r). split; [reflexivity|].
  apply foldl_maximum_is_max.
Qed.

End Order.

(** ** Pairs of points *)

Section Pairs.
Context {F : Type} `{Scalar F}.

Lemma in_pair_dists (m : Metric F) (pts : array F) (x : F) :
  In x (pair_dists m pts)
  <-> exists i j a b,
        i < j /\ pts !! i = Some a /\ pts !! j = Some b /\ x = dist m a b.
Proof.
  induction pts as [|p pts IH]; simpl.
  - split; [intros [] | intros (i & j & a & b & _ & Hi & _)]. discriminate.
  - rewrite in_app_iff, in_map_iff, IH. split.
    + intros [(b & <- & Hb) | (i & j & a & b & Hij & Hi & Hj & ->)].
      * apply list_elem_of_In, list_elem_of_lookup in Hb. destruct Hb as [j Hj].
        exists 0, (S j), p, b. repeat split; auto. lia.
      * exists (S i), (S j), a, b. repeat split; auto. lia.
    + intros (i & j & a & b & Hij & Hi & Hj & ->).
      destruct j as [|j]; [lia|]. simpl in Hj.
      destruct i as [|i]; simpl in Hi.
      * inversion Hi; subst. left. exists b. split; [reflexivity|].
        apply list_elem_of_In, list_elem_of_lookup. eauto.
      * right. exists i, j, a, b. repeat split; auto. lia.
Qed.

(** With a symmetric distance, the pair distances of a cloud are those of
    any reordering of it. *)
Lemma pair_dists_permutation (m : Metric F) (pts pts' : array F) (x : F) :
  (forall a b, dist m a b = dist m b a) ->
  pts ≡ₚ pts' -> In x (pair_dists m pts) -> In x (pair_dists m pts').
Proof.
  intros Hsym Hperm. rewrite !in_pair_dists.
  intros (i & j & a & b & Hij & Hi & Hj & ->).
  apply Permutation_inj in Hperm. destruct Hperm as (_ & f & Hinj & Hf).
  rewrite Hf in Hi, Hj.
  destruct (Nat.lt_trichotomy (f i) (f j)) as [Hlt | [Heq | Hgt]].
  - exists (f i), (f j), a, b. auto.
  - apply Hinj in Heq. lia.
  - exists (f j), (f i), b, a. auto.
Qed.

End Pairs.

(** ** The diameter *)

Section Diameter.
Context {F : Type} `{Scalar F}.
Variable HypersphereMetric : Z -> Metric F.
Hypothesis laws : ExactLaws F.

Let order := exact_order F laws.

Lemma double_le (x y : F) :
  fleb x y = true -> fleb (double x) (double y) = true.
Proof.
  unfold double. rewrite !(fleb_fltb F order). now rewrite (double_lt laws).
Qed.

Lemma double_le_inv (x y : F) :
  fleb (double x) (double y) = true -> fleb x y = true.
Proof.
  unfold double. rewrite !(fleb_fltb F order). now rewrite (double_lt laws).
Qed.

Lemma double_0 : double fzero = (fzero : F).
Proof. unfold double. apply (fmul_0_l laws). Qed.

(** The loop over the rows from index [length pre] on: it returns the
    running maximum of the doubled row maxima, which is the greatest of the
    start value and the doubled pair distances of the rows left. *)
Lemma diameter_loop (metric : Metric F) (pts : array F) :
  forall (suf pre : array F) (d : F),
    pts = pre ++ suf ->
    exists rowmax,
      Forall2 (fun i rm =>
                 exists p,
                   pts !! i = Some p
                   /\ is_max rm (map (dist metric p) (drop (S i) pts)))
        (seq (length pre) (length suf - 1)) rowmax
      /\ foldM_o (fun diameter i =>
                    let? p := get_item pts i in
                    let dist_to_neighbors :=
                      map (dist metric p) (drop (S i) pts) in
                    let? dist_to_farthest_neighbor :=
                      amax dist_to_neighbors in
                    Ok (maximum diameter
                          (fmul dist_to_farthest_neighbor (of_Z 2))))
           (seq (length pre) (length suf - 1)) d
         = Ok (foldl maximum d (map double rowmax))
      /\ is_max (foldl maximum d (map double rowmax))
           (d :: map double (pair_dists metric suf)).
Proof.
  assert (Hone : forall d : F, is_max d [d]).
  { intros d. split; [now left|]. intros x [<-|[]]. apply (fle_refl order). }
  induction suf as [|p suf IH]; intros pre d Hpts.
  - exists []. simpl. repeat split; auto; apply Hone.
  - destruct suf as [|q rest].
    + exists []. simpl. repeat split; auto; apply Hone.
    + assert (Hp : pts !! length pre = Some p).
      { rewrite Hpts, lookup_app_r by lia. now rewrite Nat.sub_diag. }
      assert (Hdrop : drop (S (length pre)) pts = q :: rest).
      { rewrite Hpts.
        replace (pre ++ p :: q :: rest) with ((pre ++ [p]) ++ q :: rest)
          by now rewrite <- app_assoc.
        replace (S (length pre)) with (length (pre ++ [p]))
          by (rewrite length_app; simpl; lia).
        apply drop_app_length. }
      destruct (amax_is_max order (map (dist metric p) (q :: rest)))
        as (m & Em & Hm); [discriminate|].
      destruct (IH (pre ++ [p]) (maximum d (double m)))
        as (rowmax & Hrows & Efold & Hmax).
      { rewrite Hpts. now rewrite <- app_assoc. }
      replace (length (pre ++ [p])) with (S (length pre)) in *
        by (rewrite length_app; simpl; lia).
      replace (length (q :: rest) - 1) with (length rest) in *
        by (simpl; lia).
      replace (length (p :: q :: rest) - 1) with (S (length rest))
        by (simpl; lia).
      exists (m :: rowmax). split; [|split].
      * simpl. constructor; [|exact Hrows].
        exists p. split; [exact Hp|]. now rewrite Hdrop.
      * cbn [seq foldM_o]. rewrite (get_item_ok _ _ _ Hp). cbn [obind].
        rewrite Hdrop, Em. cbn [obind]. exact Efold.
      * cbn [map foldl]. destruct Hmax as [Hin Hub].
        destruct Hm as [Hmin Hmub].
        assert (Hd1 : fleb (maximum d (double m))
                        (foldl maximum (maximum d (double m))
                           (map double rowmax)) = true)
          by (apply Hub; now left).
        split.
        -- destruct Hin as [E|Hin].
           ++ rewrite <- E.
              destruct (maximum_cases d (double m)) as [->| ->];
                [now left|].
              right. cbn [pair_dists]. rewrite map_app. apply in_or_app. left.
              now apply in_map.
           ++ right. cbn [pair_dists]. rewrite map_app. apply in_or_app.
              now right.
        -- intros x [<-|Hx].
           ++ eapply (fle_trans order); [apply (maximum_ge_l order)|].
              exact Hd1.
           ++ cbn [pair_dists] in Hx. rewrite map_app in Hx.
              apply in_app_or in Hx. destruct Hx as [Hx|Hx].
              ** apply in_map_iff in Hx. destruct Hx as (y & <- & Hy).
                 eapply (fle_trans order); [apply double_le, Hmub, Hy|].
                 eapply (fle_trans order); [apply (maximum_ge_r order)|].
                 exact Hd1.
              ** apply Hub. now right.
Qed.

(** On a supported space [diameter_of_data] returns the greatest of 0 and
    the doubled pair distances. *)
Lemma diameter_spec (pts : array F) (space : option string) :
  supported space ->
  exists rowmax,
    Forall2 (fun i rm =>
               exists p,
                 pts !! i = Some p
                 /\ is_max rm (map (dist (space_metric HypersphereMetric space)
                                      p) (drop (S i) pts)))
      (seq 0 (length pts - 1)) rowmax
    /\ diameter_of_data HypersphereMetric pts space
       = Ok (foldl maximum fzero (map double rowmax))
    /\ is_max (foldl maximum fzero (map double rowmax))
         (fzero :: map double
                     (pair_dists (space_metric HypersphereMetric space) pts)).
Proof.
  intros Hs.
  destruct (diameter_loop (space_metric HypersphereMetric space) pts pts []
              fzero eq_refl) as (rowmax & Hrows & Efold & Hmax).
  exists rowmax. split; [exact Hrows|]. split; [|exact Hmax].
  unfold diameter_of_data. rewrite select_metric_supported by exact Hs.
  exact Efold.
Qed.

(** The metric of each dimension is symmetric and not negative. *)
Hypothesis metric_laws : forall d, MetricLaws (HypersphereMetric d).

Lemma space_metric_laws (space : option string) :
  MetricLaws (space_metric HypersphereMetric space).
Proof.
  unfold space_metric. destruct space as [sp|]; [|apply metric_laws].
  repeat (destruct sp as [|[[] [] [] [] [] [] [] []] sp];
          try apply metric_laws).
Qed.

(** C4. On a supported space and a cloud of N >= 2 points,
    [diameter_of_data] returns twice the greatest distance
    [dist(p_i, p_j)] over the pairs of indices [i < j].  It is computed as
    the running maximum, from 0, of the doubled maxima of the rows
    [dist(p_i, p_j), j > i], for [i] from 0 to N-2. *)
Theorem diameter_twice_max_pair (pts : array F) (space : option string) :
  supported space -> 2 <= length pts ->
  let metric := space_metric HypersphereMetric space in
  exists i j a b rowmax,
    i < j /\ pts !! i = Some a /\ pts !! j = Some b
    /\ (forall i' j' a' b',
           i' < j' -> pts !! i' = Some a' -> pts !! j' = Some b' ->
           fleb (dist metric a' b') (dist metric a b) = true)
    /\ diameter_of_data HypersphereMetric pts space
       = Ok (fmul (dist metric a b) (of_Z 2))
    /\ Forall2 (fun i rm =>
                  exists p,
                    pts !! i = Some p
                    /\ is_max rm (map (dist metric p) (drop (S i) pts)))
         (seq 0 (length pts - 1)) rowmax
    /\ fmul (dist metric a b) (of_Z 2)
       = foldl maximum fzero (map (fun rm => fmul rm (of_Z 2)) rowmax).
Proof.
  intros Hs Hlen metric.
  destruct (diameter_spec pts space Hs) as (rowmax & Hrows & Ed & Hin & Hub).
  fold metric in Hrows, Hin, Hub.
  set (v := foldl maximum fzero (map double rowmax)) in *.
  pose proof (space_metric_laws space) as Hm. fold metric in Hm.
  assert (Hfirst : exists d, In d (pair_dists metric pts)).
  { destruct pts as [|p [|q rest]]; simpl in Hlen; try lia.
    exists (dist metric p q). simpl. now left. }
  assert (Hd : exists d, In d (pair_dists metric pts) /\ v = double d).
  { destruct Hin as [E|Hin].
    - destruct Hfirst as [d Hd]. exists d. split; [exact Hd|].
      apply (fle_antisym order).
      + rewrite <- E, <- double_0. apply double_le.
        apply in_pair_dists in Hd.
        destruct Hd as (i & j & a & b & _ & _ & _ & ->).
        apply (dist_nonneg _ Hm).
      + apply Hub. right. now apply in_map.
    - apply in_map_iff in Hin. destruct Hin as (d & E & Hd). now exists d. }
  destruct Hd as (d & Hd & Ev).
  pose proof Hd as Hd'. apply in_pair_dists in Hd'.
  destruct Hd' as (i & j & a & b & Hij & Hi & Hj & ->).
  exists i, j, a, b, rowmax. do 3 (split; [assumption|]).
  split; [|split; [|split]].
  - intros i' j' a' b' Hij' Hi' Hj'. apply double_le_inv. rewrite <- Ev.
    apply Hub. right. apply in_map. apply in_pair_dists.
    exists i', j', a', b'. auto.
  - rewrite Ed. now rewrite Ev.
  - exact Hrows.
  - symmetry. exact Ev.
Qed.

(** C8. [diameter_of_data] gives the same result on a cloud and on any
    reordering of it. *)
Theorem diameter_permutation (pts pts' : array F) (space : option string) :
  pts ≡ₚ pts' ->
  diameter_of_data HypersphereMetric pts space
  = diameter_of_data HypersphereMetric pts' space.
Proof.
  intros Hperm.
  destruct (space_in_IMPLEMENTED space) eqn:Hin.
  - assert (Hs : supported space).
    { unfold supported. destruct space as [sp|]; [|discriminate].
      simpl in Hin. destruct (String.eqb_spec sp "S1") as [->|_]; [now left|].
      destruct (String.eqb_spec sp "S2") as [->|_]; [now right|].
      discriminate. }
    destruct (diameter_spec pts space Hs) as (r & _ & -> & Hmax).
    destruct (diameter_spec pts' space Hs) as (r' & _ & -> & Hmax').
    f_equal.
    pose proof (dist_sym _ (space_metric_laws space)) as Hsym.
    refine (is_max_same_entries order _ _ _ _ _ _ Hmax Hmax').
    + intros x [<-|Hx]; [now left|]. right.
      apply in_map_iff in Hx. destruct Hx as (d & <- & Hd). apply in_map.
      now apply (pair_dists_permutation _ pts pts').
    + intros x [<-|Hx]; [now left|]. right.
      apply in_map_iff in Hx. destruct Hx as (d & <- & Hd). apply in_map.
      apply (pair_dists_permutation _ pts' pts); auto. now symmetry.
  - unfold diameter_of_data.
    now rewrite !select_metric_unsupported by exact Hin.
Qed.

End Diameter.

(** ** The flat metric is a metric *)

Section FlatMetricLaws.
Context {F : Type} `{Scalar F}.
Hypothesis laws : ExactLaws F.

Add Field F_field' : (exact_field F laws).

Let order := exact_order F laws.

Lemma flt_opp_pos (x : F) : fltb x fzero = true -> fltb fzero (fopp x) = true.
Proof.
  intros E. pose proof (fadd_lt F laws _ _ (fopp x) E) as E'.
  replace (fadd x (fopp x)) with fzero in E' by ring.
  now replace (fadd fzero (fopp x)) with (fopp x) in E' by ring.
Qed.

Lemma flt_opp_neg (x : F) : fltb fzero x = true -> fltb (fopp x) fzero = true.
Proof.
  intros E. pose proof (fadd_lt F laws _ _ (fopp x) E) as E'.
  replace (fadd x (fopp x)) with fzero in E' by ring.
  now replace (fadd fzero (fopp x)) with (fopp x) in E' by ring.
Qed.

Lemma fabs_opp (z : F) : fabs (fopp z) = fabs z.
Proof.
  unfold fabs. destruct (fltb z fzero) eqn:Ez.
  - now rewrite (fltb_asym order _ _ (flt_opp_pos z Ez)).
  - destruct (fltb (fopp z) fzero) eqn:Eo; [ring|].
    destruct (fltb fzero z) eqn:Ep.
    + now rewrite (flt_opp_neg z Ep) in Eo.
    + rewrite (fltb_total F order _ _ Ez Ep). ring.
Qed.

Lemma fabs_nonneg (z : F) : fleb fzero (fabs z) = true.
Proof.
  rewrite (fleb_fltb F order). unfold fabs.
  destruct (fltb z fzero) eqn:Ez; [|now rewrite Ez].
  now rewrite (fltb_asym order _ _ (flt_opp_pos z Ez)).
Qed.

Lemma fadd_nonneg (a b : F) :
  fleb fzero a = true -> fleb fzero b = true -> fleb fzero (fadd a b) = true.
Proof.
  rewrite !(fleb_fltb F order), !negb_true_iff. intros Ha Hb.
  destruct (fltb (fadd a b) fzero) eqn:E; [|reflexivity].
  destruct (fltb fzero a) eqn:Ea.
  - pose proof (fadd_lt F laws _ _ b Ea) as E'.
    replace (fadd fzero b) with b in E' by ring.
    now rewrite (fltb_trans F order _ _ _ E' E) in Hb.
  - rewrite (fltb_total F order _ _ Ha Ea) in E.
    replace (fadd fzero b) with b in E by ring. congruence.
Qed.

Lemma foldl_fadd_nonneg (l : list F) (acc : F) :
  fleb fzero acc = true -> Forall (fun x => fleb fzero x = true) l ->
  fleb fzero (foldl fadd acc l) = true.
Proof.
  intros Hacc Hl. revert acc Hacc.
  induction Hl as [|x l Hx _ IH]; intros acc Hacc; simpl; [exact Hacc|].
  apply IH. now apply fadd_nonneg.
Qed.

Lemma flat_metric_laws : MetricLaws (flat_metric : Metric F).
Proof.
  split; simpl; unfold flat_dist.
  - intros a b. f_equal. revert b.
    induction a as [|x a IH]; intros [|y b]; simpl; try reflexivity.
    rewrite IH. f_equal. rewrite <- fabs_opp. f_equal. ring.
  - intros a b. apply foldl_fadd_nonneg; [apply (fle_refl order)|].
    revert b. induction a as [|x a IH]; intros [|y b]; simpl;
      try constructor; [apply fabs_nonneg | apply IH].
Qed.

End FlatMetricLaws.

(** * Further properties of the module *)

(** ** [sample_from] *)

Section SampleFrom.
Context {F Rng : Type}.
Variable next : nat -> Rng -> nat * Rng.
Implicit Types s : state F Rng.

Lemma draws_app (high a b : nat) (g : Rng) :
  draws next high (a + b) g
  = let '(i1, g1) := draws next high a g in
    let '(i2, g2) := draws next high b g1 in
    (i1 ++ i2, g2).
Proof.
  revert g. induction a as [|a IH]; intros g; simpl.
  - now destruct (draws next high b g).
  - destruct (next high g) as [i g1]. rewrite IH.
    destruct (draws next high a g1) as [i1 g2].
    now destruct (draws next high b g2).
Qed.

(** A call that returns consumed [size] draws from the generator. *)
Lemma sample_from_rng (points : loc) (size : nat) s (l : loc) s1 :
  sample_from next points size s = (Ok l, s1) ->
  exists pts index,
    heap s !! points = Some pts
    /\ draws next (length pts) size (rng s) = (index, rng s1).
Proof.
  unfold sample_from. intros E.
  apply bind_ok_inv in E as (pts & s0 & Er & E).
  apply read_ok_inv in Er as [Hp ->].
  apply bind_ok_inv in E as (index & s2 & Ei & E).
  apply bind_ok_inv in E as (sample & s3 & Et & E).
  apply lift_ok_inv in Et as [_ ->].
  unfold alloc in E. inversion E; subst. clear E. simpl.
  exists pts, index. split; [exact Hp|].
  unfold randint in Ei. destruct size as [|k].
  - simpl in Ei. inversion Ei; subst. reflexivity.
  - replace (S k =? 0) with false in Ei by reflexivity.
    destruct (length pts =? 0); [discriminate|].
    destruct (draws next (length pts) (S k) (rng s)) as [ix g].
    now inversion Ei; subst.
Qed.

Hypothesis next_range :
  forall (high : nat) (g : Rng), 0 < high -> (next high g).1 < high.

(** X1. On a cloud that is not empty [sample_from] never raises: it consumes
    exactly [size] draws and returns a new array, at a location that held
    none, of [size] rows, each of them the row of the cloud at the index
    drawn; the arrays already in the store keep their place. *)
Theorem sample_from_rows (points : loc) (size : nat) s (pts : array F) :
  heap s !! points = Some pts -> pts <> [] ->
  exists index sample g,
    draws next (length pts) size (rng s) = (index, g)
    /\ sample_from next points size s
       = (Ok (length (heap s)), Build_state (heap s ++ [sample]) g)
    /\ length sample = size
    /\ length index = size
    /\ Forall2 (fun i row => pts !! i = Some row) index sample
    /\ Forall (fun row => In row pts) sample
    /\ heap s !! length (heap s) = None.
Proof.
  intros Hp Hne.
  destruct (sample_from_ok next next_range points size s pts Hp Hne)
    as (index & sample & g & Hd & Hlen & Hrows & Es).
  exists index, sample, g. split; [exact Hd|]. split; [exact Es|].
  split; [exact Hlen|].
  split; [now rewrite (Forall2_length _ _ _ Hrows)|].
  split; [exact Hrows|]. split.
  - clear Hlen Es Hd. induction Hrows as [|i row index sample Hi _ IH];
      constructor; [|exact IH].
    apply list_elem_of_In, list_elem_of_lookup. eauto.
  - apply lookup_ge_None. lia.
Qed.

End SampleFrom.

(** ** When [closest_neighbor] returns *)

Section ClosestNeighborReturns.
Context {F : Type} `{Scalar F}.
Variable HypersphereMetric : Z -> Metric F.

(** X13. [closest_neighbor] returns an index exactly when the space is
    supported and there is at least one candidate, and the index is then in
    range, whatever the distances are (NaN included).  The space is checked
    first: an unsupported space raises [NotImplementedError] even among no
    candidates, and only a supported space among none raises the
    [ValueError] of [argmin]. *)
Theorem closest_neighbor_returns (point : vector F) (neighbors : array F)
    (space : option string) :
  (forall i,
      closest_neighbor HypersphereMetric point neighbors space = Ok i ->
      supported space /\ neighbors <> [] /\ i < length neighbors)
  /\ (supported space -> neighbors <> [] ->
      exists i,
        closest_neighbor HypersphereMetric point neighbors space = Ok i
        /\ i < length neighbors)
  /\ (space_in_IMPLEMENTED space = false ->
      exists msg,
        closest_neighbor HypersphereMetric point neighbors space
        = Raise (NotImplementedError msg))
  /\ (supported space -> neighbors = [] ->
      closest_neighbor HypersphereMetric point neighbors space
      = Raise (ValueError "attempt to get argmin of an empty sequence")).
Proof.
  split; [|split; [|split]].
  - intros i E. pose proof (closest_neighbor_bound _ _ _ _ _ E) as Hi.
    split; [|split; [|exact Hi]].
    + unfold closest_neighbor in E. apply obind_ok_inv in E as (m & Em & _).
      now apply select_metric_ok_inv in Em.
    + intros ->. simpl in Hi. lia.
  - apply closest_neighbor_total.
  - intros Hin. eexists. unfold closest_neighbor.
    now rewrite select_metric_unsupported by exact Hin.
  - intros Hs ->. unfold closest_neighbor.
    now rewrite select_metric_supported by exact Hs.
Qed.

End ClosestNeighborReturns.

(** ** A pass of the quantization loop *)

Section Pass.
Context {F : Type} `{Scalar F} `{Dtype F}.
Variable HypersphereMetric : Z -> Metric F.
Context {Rng : Type}.
Variable next : nat -> Rng -> nat * Rng.
Implicit Types s : state F Rng.

(** What a pass that returns has done. *)
Lemma quantization_step_inv (metric : Metric F) (points centers : loc)
    (space : option string) (n_repetition : Z) (step : nat) s (gap : F) s2 :
  quantization_step HypersphereMetric next metric points centers space
    n_repetition step s = (Ok gap, s2) ->
  exists l s1 a b,
    sample_from next points 1 s = (Ok l, s1)
    /\ rng s2 = rng s1
    /\ n_repetition <> 0%Z
    /\ gap = gap_guard (dist metric a b).
Proof.
  unfold quantization_step. intros E.
  apply bind_ok_inv in E as ([[index new_center] raw] & s1 & Em & E).
  apply bind_ok_inv in E as ([] & s3 & Ew & E).
  unfold ret in E. inversion E; subst. clear E.
  unfold quantization_move in Em.
  apply bind_ok_inv in Em as (ratio & s0 & Er & Em).
  apply lift_ok_inv in Er as [Er ->].
  apply bind_ok_inv in Em as (l & s4 & Es & Em).
  apply bind_ok_inv in Em as (a0 & s5 & Ea & Em).
  apply read_ok_inv in Ea as [_ ->].
  apply bind_ok_inv in Em as (point & s6 & Ep & Em).
  apply lift_ok_inv in Ep as [_ ->].
  apply bind_ok_inv in Em as (cs & s7 & Ec & Em).
  apply read_ok_inv in Ec as [_ ->].
  apply bind_ok_inv in Em as (ix & s8 & Ei & Em).
  apply lift_ok_inv in Ei as [_ ->].
  apply bind_ok_inv in Em as (c & s9 & Eg & Em).
  apply lift_ok_inv in Eg as [_ ->].
  unfold ret in Em. inversion Em; subst. clear Em.
  exists l, s1. do 2 eexists. split; [exact Es|]. split; [|split].
  - unfold write_row in Ew. destruct (heap s1 !! centers) as [a1|];
      [|discriminate]. destruct (index <? length a1); [|discriminate].
    now inversion Ew.
  - unfold true_div in Er. destruct (Z.eqb_spec n_repetition 0);
      [discriminate | assumption].
  - reflexivity.
Qed.

Hypothesis laws : OrderLaws F.
Hypothesis next_range :
  forall (high : nat) (g : Rng), 0 < high -> (next high g).1 < high.

(** A pass on a cloud and a set of centers that are not empty. *)
Lemma quantization_pass_run (points centers : loc) (space : option string)
    (n_repetition : Z) (step : nat) s (pts cs : array F) :
  supported space ->
  heap s !! points = Some pts -> pts <> [] ->
  heap s !! centers = Some cs -> cs <> [] ->
  n_repetition <> 0%Z ->
  let metric := space_metric HypersphereMetric space in
  exists i p g index c,
    next (length pts) (rng s) = (i, g)
    /\ pts !! i = Some p
    /\ cs !! index = Some c
    /\ first_minimal metric p cs index
    /\ quantization_step HypersphereMetric next metric points centers space
         n_repetition step s
       = (Ok (gap_guard
                (dist metric c (moved metric p c (epoch step n_repetition)))),
          Build_state
            (<[centers :=
                 <[index := map astype
                              (moved metric p c (epoch step n_repetition))]>
                   cs]>
               (heap s ++ [[p]]))
            g).
Proof.
  intros Hs Hp Hne Hc Hcne Hn metric.
  pose proof (lookup_lt_Some _ _ _ Hp) as Hlt.
  pose proof (lookup_lt_Some _ _ _ Hc) as Hclt.
  destruct (sample_from_ok next next_range points 1 s pts Hp Hne)
    as (ix & sample & g & Hd & Hlen & Hrows & Es).
  simpl in Hd. destruct (next (length pts) (rng s)) as [i g1] eqn:Hnext.
  inversion Hd; subst ix g. clear Hd.
  inversion Hrows as [|? p ? rest Hip Hrest]; subst.
  inversion Hrest; subst.
  destruct (closest_neighbor_ok HypersphereMetric laws p cs space Hs Hcne)
    as (index & Ecn & Hfm).
  pose proof Hfm as (c & Hci & _).
  exists i, p, g1, index, c.
  split; [reflexivity|]. split; [exact Hip|]. split; [exact Hci|].
  split; [exact Hfm|].
  set (s1 := Build_state (heap s ++ [[p]]) g1) in *.
  assert (Hc1 : heap s1 !! centers = Some cs).
  { subst s1. simpl. now rewrite lookup_app_l by lia. }
  assert (Em : quantization_move HypersphereMetric next metric points
                 centers space n_repetition step s
               = (Ok (index, moved metric p c (epoch step n_repetition),
                      dist metric c
                        (moved metric p c (epoch step n_repetition))), s1)).
  { unfold quantization_move, true_div.
    destruct (Z.eqb_spec n_repetition 0) as [E0|_]; [contradiction|].
    rewrite bind_lift_ok. rewrite (bind_ok _ _ _ _ _ Es). cbv beta.
    rewrite (bind_ok _ _ _ [p] s1).
    2: { apply read_ok. subst s1. simpl. rewrite lookup_app_r by lia.
         now rewrite Nat.sub_diag. }
    cbv beta. change (get_item [p] 0) with (Ok p). rewrite bind_lift_ok.
    rewrite (bind_ok _ _ _ _ _ (read_ok _ _ _ Hc1)). cbv beta.
    rewrite Ecn, bind_lift_ok. rewrite (get_item_ok _ _ _ Hci).
    rewrite bind_lift_ok. reflexivity. }
  destruct (quantization_step_run _ _ _ _ _ _ _ _ _ _ _ _ _ Em)
    as (cs' & Hcs' & _ & Estep).
  rewrite Hc1 in Hcs'. inversion Hcs'; subst cs'. exact Estep.
Qed.

(** X3. One pass of the loop of [optimal_quantization], with a cloud and a set
    of centers that are not empty and [n_repetition] not zero: it draws one
    point [p] of the cloud, finds the first of the centers nearest to [p],
    and computes the new position [exp(log(p, c) / (k + 1), c)] of that
    center [c] for the epoch [k] of the pass.  The gap it hands to the loop
    test is the guarded distance between [c] and the new position as
    computed; what it stores in place of [c], and of no other center, is the
    new position converted to the element type of the cloud: the new
    position itself when the cloud is float64, its truncation when the cloud
    is an integer array. *)
Theorem pass_moves_the_winner (points centers : loc) (space : option string)
    (n_repetition : Z) (step : nat) s (pts cs : array F) :
  supported space ->
  heap s !! points = Some pts -> pts <> [] ->
  heap s !! centers = Some cs -> cs <> [] ->
  n_repetition <> 0%Z ->
  let metric := space_metric HypersphereMetric space in
  exists i p g index c,
    next (length pts) (rng s) = (i, g)
    /\ pts !! i = Some p
    /\ cs !! index = Some c
    /\ first_minimal metric p cs index
    /\ quantization_step HypersphereMetric next metric points centers space
         n_repetition step s
       = (Ok (gap_guard
                (dist metric c (moved metric p c (epoch step n_repetition)))),
          Build_state
            (<[centers :=
                 <[index := map astype
                              (moved metric p c (epoch step n_repetition))]>
                   cs]>
               (heap s ++ [[p]]))
            g)
    /\ (forall j, j <> index ->
                  (<[index := map astype
                                (moved metric p c (epoch step n_repetition))]>
                     cs) !! j = cs !! j).
Proof.
  intros Hs Hp Hne Hc Hcne Hn metric.
  destruct (quantization_pass_run points centers space n_repetition step s
              pts cs Hs Hp Hne Hc Hcne Hn)
    as (i & p & g & index & c & Hnext & Hip & Hci & Hfm & Estep).
  exists i, p, g, index, c. do 5 (split; [assumption|]).
  intros j Hj. now apply list_lookup_insert_ne.
Qed.

End Pass.

(** ** Whole runs of [optimal_quantization] *)

Section Runs.
Context {F : Type} `{Scalar F} `{Dtype F}.
Variable HypersphereMetric : Z -> Metric F.
Context {Rng : Type}.
Variable next : nat -> Rng -> nat * Rng.
Implicit Types s : state F Rng.

Lemma labelling_state (points centers : loc) (n_centers : nat)
    (space : option string) s (r : list F * list F) s' :
  labelling HypersphereMetric points centers n_centers space s = (Ok r, s') ->
  s' = s.
Proof.
  unfold labelling. intros E.
  apply bind_ok_inv in E as (pts & s0 & Er & E).
  apply read_ok_inv in Er as [_ ->].
  apply bind_ok_inv in E as (cs & s1 & Ec & E).
  apply read_ok_inv in Ec as [_ ->].
  apply bind_ok_inv in E as ([cl w] & s2 & El & E).
  apply lift_ok_inv in El as [_ ->].
  unfold ret in E. now inversion E.
Qed.

(** The loop draws once per pass, and counts its passes. *)
Lemma quantization_loop_draws (metric : Metric F) (points centers : loc)
    (space : option string) (n_repetition : Z) (tolerance : F)
    (pts : array F) :
  points <> centers ->
  forall (fuel : nat) (gap : F) (step0 : nat) s1 (stepf : nat) s2,
    heap s1 !! points = Some pts ->
    quantization_loop HypersphereMetric next fuel metric points centers space
      n_repetition tolerance gap step0 s1 = (Ok stepf, s2) ->
    exists k index,
      stepf = step0 + k
      /\ draws next (length pts) k (rng s1) = (index, rng s2)
      /\ (fltb tolerance gap = true -> 1 <= k)
      /\ (fltb tolerance gap = false -> k = 0).
Proof.
  intros Hpc. induction fuel as [|fuel IH];
    intros gap step0 s1 stepf s2 Hp E; simpl in E.
  - destruct (fltb tolerance gap) eqn:Eg; [discriminate|].
    unfold ret in E. inversion E; subst. exists 0, [].
    repeat split; auto; try lia; try congruence.
  - destruct (fltb tolerance gap) eqn:Eg.
    + apply bind_ok_inv in E as (gap' & s1' & Estep & Eloop).
      pose proof (preserves_quantization_step HypersphereMetric next metric
                    points centers space n_repetition (S step0) s1) as Hfr.
      rewrite Estep in Hfr. simpl in Hfr. destruct Hfr as (_ & Hother & _).
      assert (Hp' : heap s1' !! points = Some pts).
      { rewrite Hother; [exact Hp | now apply lookup_lt_Some in Hp | exact Hpc]. }
      apply quantization_step_inv in Estep.
      destruct Estep as (l & s1a & a & b & Es & Hrng & _ & _).
      apply sample_from_rng in Es. destruct Es as (pts0 & ix & Hp0 & Hd).
      rewrite Hp in Hp0. inversion Hp0; subst pts0.
      destruct (IH gap' (S step0) s1' stepf s2 Hp' Eloop)
        as (k & index & -> & Hdk & _ & _).
      exists (S k), (ix ++ index). split; [lia|]. split; [|split].
      * change (S k) with (1 + k). rewrite draws_app, Hd, <- Hrng, Hdk.
        reflexivity.
      * intros _. lia.
      * discriminate.
    + unfold ret in E. inversion E; subst. exists 0, [].
      repeat split; auto; try lia; try congruence.
Qed.

(** X5. A run of [optimal_quantization] that returns [step] passes has consumed
    exactly [n_centers + step] draws in [0, N) from the random generator, the
    first [n_centers] for the centers and one per pass; it has made at least
    one pass if the tolerance is below 1, and none otherwise. *)
Theorem draws_of_a_run (fuel : nat) (points : loc) (n_centers : nat)
    (space : option string) (n_repetition : Z) (tolerance : F) s
    (pts : array F) centers weights clustering step s' :
  heap s !! points = Some pts ->
  optimal_quantization HypersphereMetric next fuel points n_centers space
    n_repetition tolerance s = (Ok (centers, weights, clustering, step), s') ->
  exists index,
    draws next (length pts) (n_centers + step) (rng s) = (index, rng s')
    /\ length index = n_centers + step
    /\ (fltb tolerance fone = true -> 1 <= step)
    /\ (fltb tolerance fone = false -> step = 0).
Proof.
  intros Hp Erun. unfold optimal_quantization in Erun.
  apply bind_ok_inv in Erun as (metric & s0 & Em & Erun).
  apply lift_ok_inv in Em as [_ ->].
  apply bind_ok_inv in Erun as (c & s1 & Es & Erun).
  apply bind_ok_inv in Erun as (step0 & s2 & Eloop & Erun).
  apply bind_ok_inv in Erun as ([w cl] & s3 & Elab & Erun).
  unfold ret in Erun. inversion Erun; subst. clear Erun.
  apply labelling_state in Elab. subst s'.
  pose proof (lookup_lt_Some _ _ _ Hp) as Hlt.
  pose proof Es as Es'. apply sample_from_rng in Es'.
  destruct Es' as (pts0 & ix & Hp0 & Hd).
  rewrite Hp in Hp0. inversion Hp0; subst pts0.
  apply sample_from_inv in Es.
  destruct Es as (-> & _ & _ & sample & _ & Hheap & _ & _).
  destruct (quantization_loop_draws metric points (length (heap s)) space
              n_repetition tolerance pts ltac:(lia) fuel fone 0 s1 step s2)
    as (k & index & Hk & Hdk & Hge & Hz); [|exact Eloop|].
  { rewrite Hheap. now rewrite lookup_app_l by lia. }
  simpl in Hk. subst k.
  exists (ix ++ index). split; [|split; [|split; assumption]].
  - rewrite draws_app, Hd, Hdk. reflexivity.
  - pose proof (draws_length next (length pts) (n_centers + step) (rng s))
      as Hl.
    rewrite draws_app, Hd, Hdk in Hl. exact Hl.
Qed.

Hypothesis next_range :
  forall (high : nat) (g : Rng), 0 < high -> (next high g).1 < high.

(** X6. With [n_repetition = 0], a tolerance below 1 and some fuel, on a
    supported space and a cloud that is not empty, [optimal_quantization]
    raises [ZeroDivisionError] in its first pass, at [step / n_repetition]:
    after the centers were drawn and before any sample is. *)
Theorem zero_repetition_raises (points : loc) (n_centers : nat)
    (space : option string) (tolerance : F) s (pts : array F) :
  supported space -> heap s !! points = Some pts -> pts <> [] ->
  fltb tolerance fone = true ->
  exists index sample g,
    draws next (length pts) n_centers (rng s) = (index, g)
    /\ forall fuel,
         optimal_quantization HypersphereMetric next (S fuel) points
           n_centers space 0 tolerance s
         = (Raise ZeroDivisionError, Build_state (heap s ++ [sample]) g).
Proof.
  intros Hs Hp Hne Htol.
  destruct (sample_from_ok next next_range points n_centers s pts Hp Hne)
    as (index & sample & g & Hd & _ & _ & Es).
  exists index, sample, g. split; [exact Hd|]. intros fuel.
  unfold optimal_quantization.
  rewrite select_metric_supported by exact Hs. rewrite bind_lift_ok.
  rewrite (bind_ok _ _ _ _ _ Es). cbv beta zeta.
  unfold bind at 1. rewrite quantization_loop_unfold by exact Htol.
  reflexivity.
Qed.

Hypothesis laws : OrderLaws F.

(** X7. On a float64 cloud and with [n_repetition] not negative, the
    clustering that [optimal_quantization] returns is the Voronoi labelling
    of the cloud by the centers it returns: the label of each point is the
    first index of a center nearest to it, so no center is nearer to the
    point than the one of its label and every center of lower index is
    farther.  The two conditions keep the returned centers points of the
    manifold, where the distances are numbers: a negative [n_repetition]
    makes the divisor [k + 1] of a pass zero and an integer cloud truncates
    the centers, and the distances to such centers can be NaN, which the
    order assumed on the distances leaves out. *)
Theorem clustering_is_nearest_center (fuel : nat) (points : loc)
    (n_centers : nat) (space : option string) (n_repetition : Z)
    (tolerance : F) s (pts : array F) centers weights clustering step s' :
  float64_cloud F -> (0 <= n_repetition)%Z ->
  heap s !! points = Some pts -> 1 <= n_centers ->
  optimal_quantization HypersphereMetric next fuel points n_centers space
    n_repetition tolerance s = (Ok (centers, weights, clustering, step), s') ->
  exists cs labels,
    heap s' !! centers = Some cs
    /\ clustering = map of_nat labels
    /\ length labels = length pts
    /\ Forall2 (fun p l =>
                  first_minimal (space_metric HypersphereMetric space) p cs l)
         pts labels.
Proof.
  intros _ _ Hp Hn Erun.
  assert (Hs : supported space).
  { unfold optimal_quantization in Erun.
    apply bind_ok_inv in Erun as (metric & s0 & Em & _).
    apply lift_ok_inv in Em as [Em _].
    now apply select_metric_ok_inv in Em. }
  destruct (optimal_quantization_labels _ _ _ _ _ _ _ _ _ _ _ _ _ _ _ Hp Hn
              Erun)
    as (cs & labels & Hcs & Hlen & Hlab & _ & Hcl & _).
  assert (Hcne : cs <> []) by (destruct cs; simpl in *; [lia | congruence]).
  assert (Hfm : Forall2 (fun p l =>
                  first_minimal (space_metric HypersphereMetric space) p cs l)
                  pts labels).
  { eapply Forall2_impl; [exact Hlab|]. intros p l E. simpl in E.
    destruct (closest_neighbor_ok HypersphereMetric laws p cs space Hs Hcne)
      as (i & Ei & Hi).
    rewrite E in Ei. now inversion Ei; subst. }
  exists cs, labels. split; [exact Hcs|]. split; [exact Hcl|].
  split; [symmetry; exact (Forall2_length _ _ _ Hlab)|].
  exact Hfm.
Qed.

End Runs.

(** ** Tolerances that cannot be met *)

Lemma select_metric_ok_metric {F : Type} (HypersphereMetric : Z -> Metric F)
    (what whom : string) (space : option string) (m : Metric F) :
  select_metric HypersphereMetric what whom space = Ok m ->
  m = space_metric HypersphereMetric space.
Proof.
  intros E. pose proof (select_metric_ok_inv _ _ _ _ _ E) as Hs.
  rewrite select_metric_supported in E by exact Hs. now inversion E.
Qed.

Lemma no_result_intro {A : Type} (o : outcome A) :
  (forall r, o <> Ok r) -> no_result o.
Proof.
  intros Hno. destruct o as [r|e|]; [now destruct (Hno r) | right | left];
    eauto.
Qed.

Section Unreachable.
Context {F : Type} `{Scalar F} `{Dtype F}.
Variable HypersphereMetric : Z -> Metric F.
Context {Rng : Type}.
Variable next : nat -> Rng -> nat * Rng.
Implicit Types s : state F Rng.
Hypothesis laws : ExactLaws F.
Hypothesis metric_laws : forall d, MetricLaws (HypersphereMetric d).

Let order := exact_order F laws.

(** The guarded gap of a distance is above zero. *)
Lemma gap_guard_pos (raw : F) :
  fleb fzero raw = true -> fltb fzero (gap_guard raw) = true.
Proof.
  intros Hraw. rewrite (gap_guard_cases laws).
  destruct (feqb raw fzero) eqn:E; [apply (flt_0_1 laws)|].
  rewrite (fleb_fltb F order), negb_true_iff in Hraw.
  destruct (fltb fzero raw) eqn:E0; [reflexivity|].
  pose proof (fltb_total F order _ _ Hraw E0) as ->.
  assert (feqb (fzero : F) fzero = true) by now apply (feqb_eq F order).
  congruence.
Qed.

Lemma quantization_loop_stuck (metric : Metric F) (points centers : loc)
    (space : option string) (n_repetition : Z) (tolerance : F) :
  MetricLaws metric -> fleb tolerance fzero = true ->
  forall (fuel : nat) (gap : F) (step : nat) s (r : nat),
    fltb fzero gap = true ->
    (quantization_loop HypersphereMetric next fuel metric points centers
       space n_repetition tolerance gap step s).1 <> Ok r.
Proof.
  intros Hm Htol.
  rewrite (fleb_fltb F order), negb_true_iff in Htol.
  induction fuel as [|fuel IH]; intros gap step s r Hgap; simpl;
    rewrite (fle_lt_trans order _ _ _ Htol Hgap); [discriminate|].
  unfold bind.
  destruct (quantization_step HypersphereMetric next metric points centers
              space n_repetition (S step) s) as [[gap'| |] s1] eqn:E;
    simpl; try discriminate.
  apply IH. apply quantization_step_inv in E.
  destruct E as (_ & _ & a & b & _ & _ & _ & ->).
  apply gap_guard_pos, (dist_nonneg _ Hm).
Qed.

(** X8. With a tolerance of zero or less, and a distance that is not negative,
    [optimal_quantization] on a float64 cloud and with [n_repetition] not
    negative never returns: the gap its loop tests is the guarded distance,
    which is above zero, so whatever the other arguments and the fuel the
    outcome is an exception or a run still going.  The two conditions keep
    the centers points of the manifold, where the distance is a number: with
    a negative [n_repetition] the divisor [k + 1] of a pass becomes zero,
    the gap NaN, and the loop ends. *)
Theorem quantization_needs_positive_tolerance (fuel : nat) (points : loc)
    (n_centers : nat) (space : option string) (n_repetition : Z)
    (tolerance : F) s :
  float64_cloud F -> (0 <= n_repetition)%Z ->
  fleb tolerance fzero = true ->
  no_result
    (optimal_quantization HypersphereMetric next fuel points n_centers space
       n_repetition tolerance s).1.
Proof.
  intros _ _ Htol. apply no_result_intro. intros r.
  unfold optimal_quantization.
  unfold bind at 1, lift at 1.
  destruct (select_metric HypersphereMetric _ _ space) as [metric| |] eqn:Em;
    simpl; try discriminate.
  apply select_metric_ok_metric in Em. subst metric.
  unfold bind at 1.
  destruct (sample_from next points n_centers s) as [[centers| |] s1];
    simpl; try discriminate.
  unfold bind at 1.
  pose proof (quantization_loop_stuck
                (space_metric HypersphereMetric space) points centers space
                n_repetition tolerance
                (space_metric_laws HypersphereMetric metric_laws space) Htol
                fuel fone 0 s1) as Hstuck.
  destruct (quantization_loop _ _ _ _ _ _ _ _ _ _ _ s1) as [[step| |] s2];
    simpl; try discriminate.
  exfalso. apply (Hstuck step (flt_0_1 laws)). reflexivity.
Qed.

Lemma karcher_step_gap (metric : Metric F) (points : loc) (n_points : nat)
    (mean : vector F) s (mean' : vector F) (gap : F) s' :
  karcher_step metric points n_points mean s = (Ok (mean', gap), s') ->
  gap = dist metric mean mean'.
Proof.
  unfold karcher_step. intros E.
  apply bind_ok_inv in E as (pts & s0 & _ & E).
  apply bind_ok_inv in E as (tv & s1 & _ & E).
  unfold ret in E. now inversion E.
Qed.

Lemma karcher_loop_stuck (metric : Metric F) (points : loc) (n_points : nat)
    (tolerance : F) :
  MetricLaws metric -> fltb tolerance fzero = true ->
  forall (fuel : nat) (mean : vector F) (gap : F) (step : nat) s r,
    fleb fzero gap = true ->
    (karcher_loop fuel metric points n_points tolerance mean gap step s
     : outcome (vector F * nat) * state F Rng).1 <> Ok r.
Proof.
  intros Hm Htol.
  induction fuel as [|fuel IH]; intros mean gap step s r Hgap; simpl;
    rewrite (fleb_fltb F order), negb_true_iff in Hgap;
    rewrite (fltb_le_trans order _ _ _ Htol Hgap); [discriminate|].
  unfold bind.
  destruct (karcher_step metric points n_points mean s)
    as [[[mean' gap']| |] s1] eqn:E; simpl; try discriminate.
  apply IH. apply karcher_step_gap in E. subst gap'.
  apply (dist_nonneg _ Hm).
Qed.

(** X9. With a tolerance below zero, and a distance that is not negative,
    [karcher_flow] never returns. *)
Theorem karcher_needs_nonnegative_tolerance (fuel : nat) (points : loc)
    (space : option string) (tolerance : F) s :
  fltb tolerance fzero = true ->
  no_result
    (karcher_flow HypersphereMetric next fuel points space tolerance s).1.
Proof.
  intros Htol. apply no_result_intro. intros r. unfold karcher_flow.
  unfold bind at 1, lift at 1.
  destruct (select_metric HypersphereMetric _ _ space) as [metric| |] eqn:Em;
    simpl; try discriminate.
  apply select_metric_ok_metric in Em. subst metric.
  unfold bind at 1.
  destruct (sample_from next points 1 s) as [[sample| |] s1];
    simpl; try discriminate.
  unfold bind at 1. destruct (read sample s1) as [[a| |] s2];
    simpl; try discriminate.
  unfold bind at 1, lift at 1. destruct (get_item a 0) as [mean| |];
    simpl; try discriminate.
  unfold bind at 1. destruct (read points s2) as [[pts| |] s3];
    simpl; try discriminate.
  apply karcher_loop_stuck; auto.
  - apply (space_metric_laws HypersphereMetric metric_laws).
  - rewrite (fleb_fltb F order). now rewrite (fltb_asym order _ _ (flt_0_1 laws)).
Qed.

End Unreachable.

(** ** More on the diameter *)

Section DiameterMore.
Context {F : Type} `{Scalar F}.
Variable HypersphereMetric : Z -> Metric F.
Hypothesis laws : ExactLaws F.

Let order := exact_order F laws.

Lemma pair_dists_sublist (m : Metric F) (pts pts' : array F) (x : F) :
  pts `sublist_of` pts' ->
  In x (pair_dists m pts) -> In x (pair_dists m pts').
Proof.
  induction 1 as [|p l1 l2 Hsub IH|p l1 l2 Hsub IH]; simpl.
  - auto.
  - rewrite !in_app_iff, !in_map_iff. intros [(b & <- & Hb)|Hx].
    + left. exists b. split; [reflexivity|].
      apply list_elem_of_In. apply list_elem_of_In in Hb.
      eapply elem_of_sublist; eassumption.
    + right. now apply IH.
  - intros Hx. apply in_or_app. right. now apply IH.
Qed.

(** X11. On a supported space [diameter_of_data] never raises; its result is not
    negative, whatever the sign of the distances, and it is 0.0 when the
    cloud has fewer than two points. *)
Theorem diameter_returns (pts : array F) (space : option string) :
  supported space ->
  exists v,
    diameter_of_data HypersphereMetric pts space = Ok v
    /\ fleb fzero v = true
    /\ (length pts <= 1 -> v = fzero).
Proof.
  intros Hs.
  destruct (diameter_spec HypersphereMetric laws pts space Hs)
    as (rowmax & _ & E & Hin & Hub).
  eexists. split; [exact E|]. split.
  - apply Hub. now left.
  - intros Hlen.
    assert (Hnil : pair_dists (space_metric HypersphereMetric space) pts = []).
    { destruct pts as [|p [|q rest]]; simpl in *; [reflexivity | reflexivity | lia]. }
    rewrite Hnil in Hin. simpl in Hin. destruct Hin as [<-|[]]. reflexivity.
Qed.

(** X12. Dropping points from a cloud never makes its diameter larger. *)
Theorem diameter_monotone (pts pts' : array F) (space : option string) :
  supported space -> pts `sublist_of` pts' ->
  exists v v',
    diameter_of_data HypersphereMetric pts space = Ok v
    /\ diameter_of_data HypersphereMetric pts' space = Ok v'
    /\ fleb v v' = true.
Proof.
  intros Hs Hsub.
  destruct (diameter_spec HypersphereMetric laws pts space Hs)
    as (r & _ & E & Hin & _).
  destruct (diameter_spec HypersphereMetric laws pts' space Hs)
    as (r' & _ & E' & _ & Hub').
  do 2 eexists. split; [exact E|]. split; [exact E'|].
  apply Hub'. destruct Hin as [<-|Hin]; [now left|]. right.
  apply in_map_iff in Hin. destruct Hin as (d & <- & Hd). apply in_map.
  now apply (pair_dists_sublist _ pts pts').
Qed.

End DiameterMore.

(** ** The step size *)

Section Schedule.
Context {F : Type} `{Scalar F}.
Hypothesis laws : ExactLaws F.

(** [np.floor] of a quotient of integers is their integer quotient. *)
Hypothesis floor_quotient :
  forall a b : Z,
    (0 <= a)%Z -> (0 < b)%Z -> ffloor (fdiv (of_Z a) (of_Z b)) = of_Z (a / b).

(** With [n_repetition > 0] the divisor [k + 1] of a pass is above zero. *)
Lemma divisor_pos (step : nat) (n_repetition : Z) :
  (0 < n_repetition)%Z ->
  fltb fzero (fadd (epoch step n_repetition) fone) = true.
Proof.
  intros Hn. unfold epoch, of_nat. rewrite floor_quotient by lia.
  rewrite <- !(of_Z_succ F laws). apply (of_Z_pos laws).
  pose proof (Z.div_pos (Z.of_nat step) n_repetition). lia.
Qed.


End Schedule.

Lemma Qc_floor_quotient (a b : Z) :
  (0 <= a)%Z -> (0 < b)%Z ->
  ffloor (fdiv (of_Z a) (of_Z b)) = (of_Z (a / b) : Qc).
Proof.
  intros _ _. simpl. unfold Qc_floor, Qc_of_Z. f_equal. f_equal.
  rewrite Zdiv_Qdiv. apply Qfloor_comp. unfold Qcdiv, Qcmult, Qcinv. simpl.
  rewrite !Qred_correct. reflexivity.
Qed.

(** ** A cloud of one point *)

Lemma space_metric_cases {F : Type} (HypersphereMetric : Z -> Metric F)
    (space : option string) :
  space_metric HypersphereMetric space = HypersphereMetric 1%Z
  \/ space_metric HypersphereMetric space = HypersphereMetric 2%Z.
Proof.
  unfold space_metric. destruct space as [sp|]; [|now right].
  repeat (destruct sp as [|[[] [] [] [] [] [] [] []] sp]; auto).
Qed.

Section OnePoint.
Context {F : Type} `{Scalar F} `{Dtype F}.
Variable HypersphereMetric : Z -> Metric F.
Context {Rng : Type}.
Variable next : nat -> Rng -> nat * Rng.
Implicit Types s : state F Rng.
Hypothesis laws : ExactLaws F.
Hypothesis floor_quotient :
  forall a b : Z,
    (0 <= a)%Z -> (0 < b)%Z -> ffloor (fdiv (of_Z a) (of_Z b)) = of_Z (a / b).
Hypothesis next_range :
  forall (high : nat) (g : Rng), 0 < high -> (next high g).1 < high.

(** Moving from a point towards itself, by the tangent vector there divided
    by a number above zero, stays there, and a point is at distance zero
    from itself. *)
Hypothesis stay :
  forall d p k,
    fltb fzero k = true ->
    exp (HypersphereMetric d) (vdiv (log (HypersphereMetric d) p p) k) p = p.
Hypothesis dist_self : forall d p, dist (HypersphereMetric d) p p = fzero.

Let order := exact_order F laws.

Lemma still_pass (n : nat) (p : vector F) (points centers : loc)
    (space : option string) (n_repetition : Z) (step : nat) s :
  supported space -> 1 <= n -> (0 < n_repetition)%Z -> map astype p = p ->
  heap s !! points = Some [p] ->
  heap s !! centers = Some (replicate n p) ->
  exists s',
    quantization_step HypersphereMetric next
      (space_metric HypersphereMetric space) points centers space
      n_repetition step s = (Ok fone, s')
    /\ heap s' !! points = Some [p]
    /\ heap s' !! centers = Some (replicate n p).
Proof.
  intros Hs Hn Hrep Hcast Hp Hc.
  destruct (quantization_pass_run HypersphereMetric next order next_range
              points centers space n_repetition step s [p] (replicate n p)
              Hs Hp) as (i & p0 & g & index & c & _ & Hip & Hci & _ & E).
  { discriminate. }
  { exact Hc. }
  { destruct n; [lia | discriminate]. }
  { lia. }
  assert (p0 = p) as ->.
  { destruct i as [|i]; simpl in Hip; [now inversion Hip | discriminate]. }
  apply lookup_replicate in Hci. destruct Hci as [-> _].
  assert (Hmoved : moved (space_metric HypersphereMetric space) p p
                     (epoch step n_repetition) = p).
  { unfold moved.
    destruct (space_metric_cases HypersphereMetric space) as [-> | ->];
      apply stay, (divisor_pos laws floor_quotient), Hrep. }
  assert (Hdist : dist (space_metric HypersphereMetric space) p p = fzero).
  { destruct (space_metric_cases HypersphereMetric space) as [-> | ->];
      apply dist_self. }
  rewrite Hmoved, Hdist, Hcast in E. rewrite insert_replicate in E.
  rewrite (gap_guard_zero laws) in E by now apply (feqb_eq F order).
  pose proof (lookup_lt_Some _ _ _ Hp) as Hlt.
  pose proof (lookup_lt_Some _ _ _ Hc) as Hclt.
  rewrite list_insert_id in E by now rewrite lookup_app_l by lia.
  eexists. split; [exact E|]. simpl.
  split; now rewrite lookup_app_l by lia.
Qed.

Lemma still_loop (n : nat) (p : vector F) (points centers : loc)
    (space : option string) (n_repetition : Z) (tolerance : F) :
  supported space -> 1 <= n -> (0 < n_repetition)%Z -> map astype p = p ->
  fltb tolerance fone = true ->
  forall (fuel step : nat) s,
    heap s !! points = Some [p] ->
    heap s !! centers = Some (replicate n p) ->
    exists s',
      quantization_loop HypersphereMetric next fuel
        (space_metric HypersphereMetric space) points centers space
        n_repetition tolerance fone step s = (OutOfFuel, s').
Proof.
  intros Hs Hn Hrep Hcast Htol.
  induction fuel as [|fuel IH]; intros step s Hp Hc.
  - exists s. simpl. now rewrite Htol.
  - destruct (still_pass n p points centers space n_repetition (S step) s
                Hs Hn Hrep Hcast Hp Hc) as (s1 & E & Hp1 & Hc1).
    destruct (IH (S step) s1 Hp1 Hc1) as (s' & E').
    exists s'. rewrite quantization_loop_unfold by exact Htol.
    now rewrite (bind_ok _ _ _ _ _ E).
Qed.

(** X10. On a cloud of one point, stored as it is in an array of the type of
    the cloud, with at least one center, [n_repetition] above zero and a
    tolerance below 1, [optimal_quantization] never returns: every center is
    that point, the divisor [k + 1] of every pass is above zero, every pass
    moves its winner by zero, and the guard turns each zero gap into 1. *)
Theorem one_point_cloud_never_converges (points : loc) (n_centers : nat)
    (space : option string) (n_repetition : Z) (tolerance : F) s
    (p : vector F) :
  supported space -> heap s !! points = Some [p] -> map astype p = p ->
  1 <= n_centers -> (0 < n_repetition)%Z -> fltb tolerance fone = true ->
  forall fuel,
    exists s',
      optimal_quantization HypersphereMetric next fuel points n_centers space
        n_repetition tolerance s = (OutOfFuel, s').
Proof.
  intros Hs Hp Hcast Hn Hrep Htol fuel.
  destruct (sample_from_ok next next_range points n_centers s [p] Hp)
    as (index & sample & g & _ & Hlen & Hrows & Es); [discriminate|].
  assert (Hsample : sample = replicate n_centers p).
  { rewrite <- Hlen. clear - Hrows.
    induction Hrows as [|i row index sample Hi _ IH]; [reflexivity|].
    simpl. rewrite <- IH. f_equal.
    destruct i as [|i]; simpl in Hi; [now inversion Hi | discriminate]. }
  subst sample.
  pose proof (lookup_lt_Some _ _ _ Hp) as Hlt.
  destruct (still_loop n_centers p points (length (heap s)) space
              n_repetition tolerance Hs Hn Hrep Hcast Htol fuel 0
              (Build_state (heap s ++ [replicate n_centers p]) g))
    as (s' & E).
  { simpl. now rewrite lookup_app_l by lia. }
  { simpl. rewrite lookup_app_r by lia. now rewrite Nat.sub_diag. }
  exists s'. unfold optimal_quantization.
  rewrite select_metric_supported by exact Hs. rewrite bind_lift_ok.
  rewrite (bind_ok _ _ _ _ _ Es). cbv beta zeta.
  unfold bind at 1. now rewrite E.
Qed.

End OnePoint.

Section FlatMetricStill.
Context {F : Type} `{Scalar F}.
Hypothesis laws : ExactLaws F.

Add Field F_field'' : (exact_field F laws).

Lemma flat_stay (p : vector F) (k : F) :
  fltb fzero k = true ->
  exp flat_metric (vdiv (log flat_metric p p) k) p = p.
Proof.
  intros _. simpl. unfold vdiv. induction p as [|x p IH]; simpl; [reflexivity|].
  rewrite IH. f_equal. rewrite (Fdiv_def (exact_field F laws)). ring.
Qed.

Lemma flat_dist_self (p : vector F) : flat_dist p p = fzero.
Proof.
  unfold flat_dist. induction p as [|x p IH]; simpl; [reflexivity|].
  replace (fadd fzero (fabs (fsub x x))) with (fzero : F); [exact IH|].
  replace (fsub x x) with (fzero : F) by ring. unfold fabs.
  rewrite (fltb_irrefl F (exact_order F laws)). ring.
Qed.

End FlatMetricStill.

(** * Concrete runs *)

Lemma float64_dtype_cloud (F : Type) : @float64_cloud F (float64_dtype F).
Proof. intros x. reflexivity. Qed.

Lemma unsupported_space_raises_witness :
  exists msg,
    karcher_flow (flat_provider Qc) tape_next 5 0 (Some "S3") 1%Qc
      (Build_state [[[1%Qc; 0%Qc]]] [0])
    = (Raise (NotImplementedError msg), Build_state [[[1%Qc; 0%Qc]]] [0])
    /\ names_request msg (Some "S3").
Proof.
  destruct (unsupported_space_raises (flat_provider Qc) (list nat) tape_next
              (Some "S3")) as (_ & _ & Hk & _);
    [discriminate | discriminate |].
  apply Hk.
Defined.

Lemma closest_neighbor_first_minimal_witness :
  exists i,
    closest_neighbor (flat_provider Qc) [1%Qc; 0%Qc]
      [[0%Qc; 1%Qc]; [1%Qc; 0%Qc]; [1%Qc; 0%Qc]] (Some "S1") = Ok i
    /\ first_minimal (flat_provider Qc 1%Z) [1%Qc; 0%Qc]
         [[0%Qc; 1%Qc]; [1%Qc; 0%Qc]; [1%Qc; 0%Qc]] i.
Proof.
  destruct (closest_neighbor_first_minimal (flat_provider Qc) Qc_order_laws
              [1%Qc; 0%Qc] [[0%Qc; 1%Qc]; [1%Qc; 0%Qc]; [1%Qc; 0%Qc]]
              (Some "S1")) as (i & E & Hi & _).
  - left. reflexivity.
  - discriminate.
  - exists i. split; [exact E | exact Hi].
Defined.

Example closest_neighbor_tie :
  closest_neighbor (flat_provider Qc) [1%Qc; 0%Qc]
    [[0%Qc; 1%Qc]; [1%Qc; 0%Qc]; [1%Qc; 0%Qc]] (Some "S1") = Ok 1.
Proof. vm_compute. reflexivity. Qed.

Lemma zero_gap_substitution_witness :
  exists s2,
    quantization_step (flat_provider Qc) tape_next flat_metric 0 1 (Some "S1")
      20%Z 1 still_state = (Ok 1%Qc, s2).
Proof.
  destruct (zero_gap_substitution (flat_provider Qc) tape_next Qc_exact_laws)
    as (_ & _ & Hpass).
  edestruct (Hpass 0 flat_metric 0 1 (Some "S1") 20%Z (Q2Qc (1 # 2)) 1%Qc 0
               still_state) as (s2 & Hstep & _).
  - vm_compute. reflexivity.
  - vm_compute. reflexivity.
  - exists s2. rewrite Hstep. reflexivity.
Defined.

(** On the rationals the weights of a run sum to 1; in float64, on a run of
    16 passes, none is negative. *)
Lemma weights_from_label_counts_witness :
  (exists centers weights clustering step s',
      optimal_quantization (flat_provider Qc) tape_next 0 0 3 (Some "S1") 20%Z
        1%Qc (six_state Qc) = (Ok (centers, weights, clustering, step), s')
      /\ fsum weights = 1%Qc)
  /\ (exists centers weights clustering step s',
         optimal_quantization (flat_provider PrimFloat.float) tape_next 30 0 3
           (Some "S1") 20%Z TOLERANCE pulled_state
         = (Ok (centers, weights, clustering, step), s')
         /\ Forall (fun w => fleb fzero w = true) weights).
Proof.
  split.
  - destruct (optimal_quantization (flat_provider Qc) tape_next 0 0 3
                (Some "S1") 20%Z 1%Qc (six_state Qc))
      as [[[[[centers weights] clustering] step]| |] s'] eqn:Erun;
      [| vm_compute in Erun; discriminate Erun
       | vm_compute in Erun; discriminate Erun].
    exists centers, weights, clustering, step, s'. split; [reflexivity|].
    destruct (weights_from_label_counts (flat_provider Qc) tape_next
                0 0 3 (Some "S1") 20%Z 1%Qc (six_state Qc)
                (six_points Qc) centers weights clustering step s')
      as (cs & labels & _ & _ & _ & _ & _ & _ & _ & _ & Hexact).
    + reflexivity.
    + discriminate.
    + lia.
    + exact Erun.
    + destruct (Hexact Qc_exact_laws) as (_ & _ & Hsum). exact Hsum.
  - destruct (optimal_quantization (flat_provider PrimFloat.float) tape_next
                30 0 3 (Some "S1") 20%Z TOLERANCE pulled_state)
      as [[[[[centers weights] clustering] step]| |] s'] eqn:Erun;
      [| vm_compute in Erun; discriminate Erun
       | vm_compute in Erun; discriminate Erun].
    exists centers, weights, clustering, step, s'. split; [reflexivity|].
    destruct (weights_from_label_counts (flat_provider PrimFloat.float)
                tape_next 30 0 3 (Some "S1") 20%Z TOLERANCE pulled_state
                _ centers weights clustering step s' eq_refl)
      as (cs & labels & _ & _ & _ & _ & _ & _ & _ & Hsign & _).
    + discriminate.
    + lia.
    + exact Erun.
    + apply (Hsign float_sign_laws). simpl. lia.
Defined.

(** In float64 the weights 1/6, 4/6 and 1/6 of the same run do not sum
    to 1. *)
Lemma float64_weights_sum_below_one :
  exists centers weights clustering step s',
    optimal_quantization (flat_provider PrimFloat.float) tape_next 0 0 3
      (Some "S1") 20%Z fone (six_state PrimFloat.float)
    = (Ok (centers, weights, clustering, step), s')
    /\ fsum weights <> fone.
Proof.
  do 5 eexists. split; [vm_compute; reflexivity|].
  intros E.
  apply (f_equal (fun x => PrimFloat.eqb x PrimFloat.one)) in E.
  vm_compute in E. discriminate E.
Qed.

Lemma tape_next_range (high : nat) (g : list nat) :
  0 < high -> (tape_next high g).1 < high.
Proof.
  intros Hh. destruct g as [|r g]; simpl; [exact Hh|].
  apply Nat.mod_upper_bound. lia.
Qed.

Lemma no_iteration_at_large_tolerance_witness :
  exists p g,
    karcher_flow (flat_provider Qc) tape_next 0 0 (Some "S1") 1%Qc
      (six_state Qc)
    = (Ok (p, 0), Build_state (heap (six_state Qc) ++ [[p]]) g).
Proof.
  destruct (no_iteration_at_large_tolerance (flat_provider Qc) tape_next
              Qc_order_laws tape_next_range 0 (Some "S1") 1%Qc (six_state Qc)
              (six_points Qc)) as [Hk _].
  - left. reflexivity.
  - reflexivity.
  - discriminate.
  - reflexivity.
  - destruct (Hk 0) as (i & p & g & _ & _ & E). now exists p, g.
Defined.

(** With no center at all and a tolerance of 1, [optimal_quantization] makes
    no pass either, but it returns nothing: the labelling pass looks for the
    nearest of no centers and raises. *)
Lemma large_tolerance_no_center_raises :
  optimal_quantization (flat_provider PrimFloat.float) tape_next 5 0 0
    (Some "S1") 20%Z fone (six_state PrimFloat.float)
  = (Raise (ValueError "attempt to get argmin of an empty sequence"),
     Build_state [six_points PrimFloat.float; []] [0; 1; 5]).
Proof. vm_compute. reflexivity. Qed.

Lemma empty_cloud_witness :
  diameter_of_data (flat_provider Qc) [] (Some "S2") = Ok 0%Qc.
Proof.
  destruct (empty_cloud (flat_provider Qc) (@tape_next) (Some "S2"))
    as [Hd _].
  - right. reflexivity.
  - exact Hd.
Defined.

(** On an empty cloud [diameter_of_data] returns a value: it raises no
    error. *)
Lemma empty_cloud_diameter_returns :
  diameter_of_data (flat_provider PrimFloat.float) [] (Some "S1")
  = Ok PrimFloat.zero.
Proof. reflexivity. Qed.

Lemma karcher_flow_iteration_witness :
  exists mean s1,
    karcher_flow (flat_provider Qc) tape_next 5 0 (Some "S1")
      (Q2Qc (1 # 100)) two_state = (Ok (mean, 2), s1).
Proof.
  destruct (karcher_flow_iteration (flat_provider Qc) tape_next Qc_order_laws
              tape_next_range 0 (Some "S1") (Q2Qc (1 # 100)) two_state
              [[1%Qc; 0%Qc]; [0%Qc; 1%Qc]])
    as (i & p & g & Hnext & Hp & _ & _ & _ & Hrun & _).
  - left. reflexivity.
  - reflexivity.
  - discriminate.
  - vm_compute in Hnext. inversion Hnext; subst i g.
    simpl in Hp. inversion Hp; subst p.
    do 2 eexists. apply (Hrun 2 5).
    + lia.
    + intros k Hk. destruct k as [|[|k]]; [reflexivity | reflexivity | lia].
    + reflexivity.
Defined.

Lemma diameter_twice_max_pair_witness :
  exists a b,
    diameter_of_data (flat_provider Qc) (six_points Qc) (Some "S1")
    = Ok (fmul (flat_dist a b) (of_Z 2)).
Proof.
  destruct (diameter_twice_max_pair (flat_provider Qc) Qc_exact_laws
              (fun _ => flat_metric_laws Qc_exact_laws) (six_points Qc)
              (Some "S1"))
    as (i & j & a & b & rowmax & _ & _ & _ & _ & E & _).
  - left. reflexivity.
  - simpl. lia.
  - now exists a, b.
Defined.

Example diameter_six_points :
  diameter_of_data (flat_provider Qc) (six_points Qc) (Some "S1")
  = Ok (Qc_of_Z 4).
Proof. vm_compute. reflexivity. Qed.

Lemma diameter_permutation_witness :
  diameter_of_data (flat_provider Qc)
    [[1%Qc; 0%Qc]; [0%Qc; 1%Qc]; [Qcopp 1; 0%Qc]] (Some "S2")
  = diameter_of_data (flat_provider Qc)
      [[0%Qc; 1%Qc]; [Qcopp 1; 0%Qc]; [1%Qc; 0%Qc]] (Some "S2").
Proof.
  apply (diameter_permutation (flat_provider Qc) Qc_exact_laws
           (fun _ => flat_metric_laws Qc_exact_laws)).
  apply (Permutation_cons_append [[0%Qc; 1%Qc]; [Qcopp 1; 0%Qc]]
           [1%Qc; 0%Qc]).
Defined.

(** ** Runs for the further properties *)

Lemma sample_from_rows_witness :
  exists sample g,
    sample_from tape_next 0 2 (six_state Qc)
    = (Ok 1, Build_state (heap (six_state Qc) ++ [sample]) g)
    /\ length sample = 2.
Proof.
  destruct (sample_from_rows (@tape_next) tape_next_range 0 2 (six_state Qc)
              (six_points Qc))
    as (index & sample & g & _ & E & Hlen & _).
  - reflexivity.
  - discriminate.
  - exists sample, g. split; [exact E | exact Hlen].
Defined.

(** A pass on a float64 cloud and one on an integer cloud. *)
Lemma pass_moves_the_winner_witness :
  (exists i p g index c,
      tape_next 3 (rng pass_state) = (i, g)
      /\ [[1%Qc; 0%Qc]; [Q2Qc (3 # 4); Q2Qc (1 # 4)]; [0%Qc; 1%Qc]] !! i
         = Some p
      /\ [[0%Qc; 1%Qc]; [1%Qc; 0%Qc]; [Qcopp 1; 0%Qc]] !! index = Some c
      /\ first_minimal flat_metric p
           [[0%Qc; 1%Qc]; [1%Qc; 0%Qc]; [Qcopp 1; 0%Qc]] index
      /\ quantization_step (flat_provider Qc) tape_next flat_metric 0 1
           (Some "S1") 20%Z 1 pass_state
         = (Ok (gap_guard
                  (flat_dist c (moved flat_metric p c (epoch 1 20%Z)))),
            Build_state
              (<[1 := <[index := map astype
                                   (moved flat_metric p c (epoch 1 20%Z))]>
                        [[0%Qc; 1%Qc]; [1%Qc; 0%Qc]; [Qcopp 1; 0%Qc]]]>
                 (heap pass_state ++ [[p]]))
              g)
      /\ (forall j, j <> index ->
                    (<[index := map astype
                                  (moved flat_metric p c (epoch 1 20%Z))]>
                       [[0%Qc; 1%Qc]; [1%Qc; 0%Qc]; [Qcopp 1; 0%Qc]]) !! j
                    = [[0%Qc; 1%Qc]; [1%Qc; 0%Qc]; [Qcopp 1; 0%Qc]] !! j))
  /\ (exists i p g index c,
         tape_next 3 (rng int_pass_state) = (i, g)
         /\ [[1%Qc; 0%Qc]; [0%Qc; 1%Qc]; [Qcopp 1; 0%Qc]] !! i = Some p
         /\ [[1%Qc; 0%Qc]; [Qcopp 1; 0%Qc]] !! index = Some c
         /\ first_minimal flat_metric p [[1%Qc; 0%Qc]; [Qcopp 1; 0%Qc]] index
         /\ @quantization_step Qc Qc_scalar int64_dtype (flat_provider Qc)
              (list nat) tape_next flat_metric 0 1 (Some "S1") 20%Z 1
              int_pass_state
            = (Ok (gap_guard
                     (flat_dist c (moved flat_metric p c (epoch 1 20%Z)))),
               Build_state
                 (<[1 := <[index := map Qc_trunc
                                      (moved flat_metric p c (epoch 1 20%Z))]>
                           [[1%Qc; 0%Qc]; [Qcopp 1; 0%Qc]]]>
                    (heap int_pass_state ++ [[p]]))
                 g)
         /\ (forall j, j <> index ->
                       (<[index := map Qc_trunc
                                     (moved flat_metric p c (epoch 1 20%Z))]>
                          [[1%Qc; 0%Qc]; [Qcopp 1; 0%Qc]]) !! j
                       = [[1%Qc; 0%Qc]; [Qcopp 1; 0%Qc]] !! j)).
Proof.
  split.
  - apply (pass_moves_the_winner (flat_provider Qc) tape_next
             Qc_order_laws tape_next_range 0 1 (Some "S1") 20%Z 1 pass_state
             [[1%Qc; 0%Qc]; [Q2Qc (3 # 4); Q2Qc (1 # 4)]; [0%Qc; 1%Qc]]
             [[0%Qc; 1%Qc]; [1%Qc; 0%Qc]; [Qcopp 1; 0%Qc]]).
    + left. reflexivity.
    + reflexivity.
    + discriminate.
    + reflexivity.
    + discriminate.
    + discriminate.
  - apply (@pass_moves_the_winner Qc Qc_scalar int64_dtype
             (flat_provider Qc) (list nat) tape_next
             Qc_order_laws tape_next_range 0 1 (Some "S1") 20%Z 1
             int_pass_state
             [[1%Qc; 0%Qc]; [0%Qc; 1%Qc]; [Qcopp 1; 0%Qc]]
             [[1%Qc; 0%Qc]; [Qcopp 1; 0%Qc]]).
    + left. reflexivity.
    + reflexivity.
    + discriminate.
    + reflexivity.
    + discriminate.
    + discriminate.
Defined.

(** The pass on the float64 cloud moves the center of index 1 half of the
    way to the point drawn; the one on the integer cloud moves the first of
    the two nearest centers, from (1, 0) to (1/2, 1/2), a distance of 1, and
    stores (0, 0). *)
Example pass_state_run :
  quantization_step (flat_provider Qc) tape_next flat_metric 0 1 (Some "S1")
    20%Z 1 pass_state
  = (Ok (Q2Qc (1 # 4)),
     Build_state
       [[[1%Qc; 0%Qc]; [Q2Qc (3 # 4); Q2Qc (1 # 4)]; [0%Qc; 1%Qc]];
        [[0%Qc; 1%Qc]; [Q2Qc (7 # 8); Q2Qc (1 # 8)]; [Qcopp 1; 0%Qc]];
        [[Q2Qc (3 # 4); Q2Qc (1 # 4)]]]
       []).
Proof. vm_compute. reflexivity. Qed.

Example int_pass_state_run :
  @quantization_step Qc Qc_scalar int64_dtype (flat_provider Qc) (list nat)
    tape_next flat_metric 0 1 (Some "S1") 20%Z 1 int_pass_state
  = (Ok 1%Qc,
     Build_state
       [[[1%Qc; 0%Qc]; [0%Qc; 1%Qc]; [Qcopp 1; 0%Qc]];
        [[0%Qc; 0%Qc]; [Qcopp 1; 0%Qc]];
        [[0%Qc; 1%Qc]]]
       []).
Proof. vm_compute. reflexivity. Qed.

Lemma draws_of_a_run_witness :
  exists centers weights clustering step s' index,
    optimal_quantization (flat_provider Qc) tape_next 0 0 3 (Some "S1") 20%Z
      1%Qc (six_state Qc) = (Ok (centers, weights, clustering, step), s')
    /\ draws tape_next 6 (3 + step) [0; 1; 5] = (index, rng s').
Proof.
  destruct (optimal_quantization (flat_provider Qc) tape_next 0 0 3
              (Some "S1") 20%Z 1%Qc (six_state Qc))
    as [[[[[centers weights] clustering] step]| |] s'] eqn:Erun;
    [| vm_compute in Erun; discriminate Erun
     | vm_compute in Erun; discriminate Erun].
  destruct (draws_of_a_run (flat_provider Qc) tape_next 0 0 3 (Some "S1")
              20%Z 1%Qc (six_state Qc) (six_points Qc) centers weights
              clustering step s' eq_refl Erun) as (index & Hd & _).
  exists centers, weights, clustering, step, s', index.
  split; [reflexivity | exact Hd].
Defined.

Lemma zero_repetition_raises_witness :
  exists s',
    optimal_quantization (flat_provider Qc) tape_next 1 0 3 (Some "S1") 0%Z
      (Q2Qc (1 # 2)) (six_state Qc) = (Raise ZeroDivisionError, s').
Proof.
  destruct (zero_repetition_raises (flat_provider Qc) tape_next
              tape_next_range 0 3 (Some "S1") (Q2Qc (1 # 2)) (six_state Qc)
              (six_points Qc)) as (index & sample & g & _ & E).
  - left. reflexivity.
  - reflexivity.
  - discriminate.
  - reflexivity.
  - eexists. apply (E 0).
Defined.

(** A run of six passes. *)
Lemma clustering_is_nearest_center_witness :
  exists centers weights clustering s' cs labels,
    optimal_quantization (flat_provider Qc) tape_next 30 0 3 (Some "S1") 20%Z
      (Q2Qc (1 # 100)) pulled_state_Qc
    = (Ok (centers, weights, clustering, 6), s')
    /\ heap s' !! centers = Some cs
    /\ clustering = map of_nat labels
    /\ Forall2 (fun p l => first_minimal (flat_provider Qc 1%Z) p cs l)
         [[1%Qc; 0%Qc]; [Q2Qc (3 # 4); Q2Qc (1 # 4)];
          [0%Qc; 1%Qc]; [0%Qc; 1%Qc]; [0%Qc; 1%Qc]; [Qcopp 1; 0%Qc]] labels.
Proof.
  destruct (optimal_quantization (flat_provider Qc) tape_next 30 0 3
              (Some "S1") 20%Z (Q2Qc (1 # 100)) pulled_state_Qc)
    as [[[[[centers weights] clustering] step]| |] s'] eqn:Erun;
    [| vm_compute in Erun; discriminate Erun
     | vm_compute in Erun; discriminate Erun].
  assert (Hstep : step = 6).
  { pose proof (f_equal (fun r => match r.1 with
                                  | Ok (_, _, _, n) => n
                                  | _ => 0
                                  end) Erun) as E.
    vm_compute in E. symmetry. exact E. }
  subst step.
  destruct (clustering_is_nearest_center (flat_provider Qc) tape_next
              Qc_order_laws 30 0 3 (Some "S1") 20%Z (Q2Qc (1 # 100))
              pulled_state_Qc _ centers weights clustering 6 s'
              (float64_dtype_cloud Qc) ltac:(lia) eq_refl ltac:(lia) Erun)
    as (cs & labels & Hcs & Hcl & _ & Hfm).
  exists centers, weights, clustering, s', cs, labels.
  split; [reflexivity|]. split; [exact Hcs|]. split; [exact Hcl | exact Hfm].
Defined.

Lemma quantization_needs_positive_tolerance_witness :
  no_result
    (optimal_quantization (flat_provider Qc) tape_next 4 0 3 (Some "S1") 20%Z
       0%Qc (six_state Qc)).1.
Proof.
  apply (quantization_needs_positive_tolerance (flat_provider Qc) tape_next
           Qc_exact_laws (fun _ => flat_metric_laws Qc_exact_laws)).
  - exact (float64_dtype_cloud Qc).
  - lia.
  - reflexivity.
Defined.

Lemma karcher_needs_nonnegative_tolerance_witness :
  no_result
    (karcher_flow (flat_provider Qc) tape_next 4 0 (Some "S1") (Qcopp 1)
       two_state).1.
Proof.
  apply (karcher_needs_nonnegative_tolerance (flat_provider Qc) tape_next
           Qc_exact_laws (fun _ => flat_metric_laws Qc_exact_laws)).
  reflexivity.
Defined.

Lemma diameter_returns_witness :
  exists v,
    diameter_of_data (flat_provider Qc) [[1%Qc; 0%Qc]] (Some "S2") = Ok v
    /\ fleb 0%Qc v = true.
Proof.
  destruct (diameter_returns (flat_provider Qc) Qc_exact_laws [[1%Qc; 0%Qc]]
              (Some "S2")) as (v & E & Hv & _).
  - right. reflexivity.
  - exists v. split; [exact E | exact Hv].
Defined.

Lemma diameter_monotone_witness :
  exists v v',
    diameter_of_data (flat_provider Qc) [[1%Qc; 0%Qc]; [0%Qc; 1%Qc]]
      (Some "S1") = Ok v
    /\ diameter_of_data (flat_provider Qc) (six_points Qc) (Some "S1")
       = Ok v'
    /\ fleb v v' = true.
Proof.
  apply (diameter_monotone (flat_provider Qc) Qc_exact_laws).
  - left. reflexivity.
  - unfold six_points. do 2 apply sublist_skip. apply sublist_nil_l.
Defined.


Lemma one_point_cloud_never_converges_witness :
  exists s',
    optimal_quantization (flat_provider Qc) tape_next 3 0 2 (Some "S1") 20%Z
      (Q2Qc (1 # 100000)) one_point_state = (OutOfFuel, s').
Proof.
  apply (one_point_cloud_never_converges (flat_provider Qc) tape_next
           Qc_exact_laws Qc_floor_quotient tape_next_range
           (fun _ => flat_stay Qc_exact_laws)
           (fun _ => flat_dist_self Qc_exact_laws)
           0 2 (Some "S1") 20%Z (Q2Qc (1 # 100000)) one_point_state
           [1%Qc; 0%Qc]).
  - left. reflexivity.
  - reflexivity.
  - reflexivity.
  - lia.
  - lia.
  - reflexivity.
Defined.

(** ** Runs in float64 *)

Module Float64Examples.

Example floor_of_quotients :
  map ffloor [fdiv (of_Z 15) (of_Z 4); fdiv (of_Z (-1)) (of_Z 2);
              of_Z 2; fdiv (of_Z 1) (of_Z 4)]
  = [of_Z 3; of_Z (-1); of_Z 2; of_Z 0 : PrimFloat.float].
Proof. vm_compute. reflexivity. Qed.

Example six_weights :
  optimal_quantization (flat_provider PrimFloat.float) tape_next 0 0 3
    (Some "S1") 20%Z fone (six_state PrimFloat.float)
  = (Ok (1,
         [fdiv (of_Z 1) (of_Z 6); fdiv (of_Z 4) (of_Z 6);
          fdiv (of_Z 1) (of_Z 6)],
         [of_Z 0; of_Z 1; of_Z 1; of_Z 1; of_Z 1; of_Z 2], 0),
     Build_state
       [six_points PrimFloat.float;
        [[fone; fzero]; [fzero; fone]; [fopp fone; fzero]]] []).
Proof. vm_compute. reflexivity. Qed.

(** 1/6 + 4/6 + 1/6 is the float64 just below 1. *)
Example six_weights_sum :
  fsum [fdiv (of_Z 1) (of_Z 6); fdiv (of_Z 4) (of_Z 6);
        fdiv (of_Z 1) (of_Z 6)]
  = PrimFloat.next_down PrimFloat.one.
Proof. vm_compute. reflexivity. Qed.

(** With the default tolerance the loop makes 16 passes on [pulled_state];
    the weights 2/6, 3/6 and 1/6 do not sum to 1 either. *)
Example pulled_run :
  exists centers weights clustering s',
    optimal_quantization (flat_provider PrimFloat.float) tape_next 30 0 3
      (Some "S1") 20%Z TOLERANCE pulled_state
    = (Ok (centers, weights, clustering, 16), s')
    /\ weights = [fdiv (of_Z 2) (of_Z 6); fdiv (of_Z 3) (of_Z 6);
                  fdiv (of_Z 1) (of_Z 6)]
    /\ fsum weights = PrimFloat.next_down PrimFloat.one.
Proof.
  do 4 eexists. split; [vm_compute; reflexivity|].
  split; vm_compute; reflexivity.
Qed.

(** With a tolerance of 0.0 the same run is still going after 200 passes,
    and so is, with the default tolerance, a run on a cloud of one point. *)
Example pulled_run_zero_tolerance :
  (optimal_quantization (flat_provider PrimFloat.float) tape_next 200 0 3
     (Some "S1") 20%Z fzero pulled_state).1 = OutOfFuel.
Proof. vm_compute. reflexivity. Qed.

Example one_point_run :
  (optimal_quantization (flat_provider PrimFloat.float) tape_next 200 0 2
     (Some "S1") 20%Z TOLERANCE
     (Build_state [[[fone; fzero]]] ([] : list nat))).1 = OutOfFuel.
Proof. vm_compute. reflexivity. Qed.

End Float64Examples.
